(** * Multiphase clocking: the constraint models built by the
    [python/multiphase] scripts (mockturtle).

    The scripts translate a typed signal graph into a CP-SAT model: integer
    decision variables with bounds, linear and global constraints, and an
    additive objective.  This development embeds

    - the solver engine's model interface ([NewIntVar], [Add],
      [AddMaxEquality], ...) as a record of declarations together with the
      meaning of each constraint under an assignment,
    - [phase_assignment.py]: [Primitive], [parse_specs] and the body of
      [__main__] (allocation of [Sigma], the per-gate constraint loop, the
      objective, solving and reporting),
    - the parser and the gate loop of [decomposed_ilp_max.py], the parser
      and the model of [Gradual_ILP.py], the parser of
      [decomposed_ilp_FA.py] and the report of [config_solver.py],

    then the predicates the properties are stated in, together with the
    inputs they are worked on, and last the properties themselves, proved
    of every model these scripts can build. *)

From Stdlib Require Import ZArith List String Ascii Lia Bool.
From stdpp Require Import base tactics option list gmap strings pretty.

Local Open Scope string_scope.
Local Open Scope list_scope.
Local Open Scope Z_scope.

(** ** Python exceptions and results *)

Inductive exn : Type :=
| KeyError
| ValueError
| AssertionError
| StopIteration.

Inductive result (A : Type) : Type :=
| Ok (a : A)
| Raise (e : exn).
Arguments Ok {A} a.
Arguments Raise {A} e.

Definition is_ok {A} (r : result A) : bool :=
  match r with Ok _ => true | Raise _ => false end.

(** ** Insertion-ordered dictionaries

    A Python [dict] iterates in insertion order; assigning to a key that is
    already present replaces the value and keeps the key's position. *)

Section odict.
Context {K V : Type} `{EqDecision K}.

Fixpoint od_get (d : list (K * V)) (k : K) : option V :=
  match d with
  | [] => None
  | (k', v) :: d' => if decide (k' = k) then Some v else od_get d' k
  end.

Fixpoint od_set (d : list (K * V)) (k : K) (v : V) : list (K * V) :=
  match d with
  | [] => [(k, v)]
  | (k', v') :: d' =>
      if decide (k' = k) then (k, v) :: d' else (k', v') :: od_set d' k v
  end.

Definition od_keys (d : list (K * V)) : list K := map fst d.
Definition od_values (d : list (K * V)) : list V := map snd d.

(** [d[k]]: a missing key raises [KeyError]. *)
Definition od_index (d : list (K * V)) (k : K) : result V :=
  match od_get d k with
  | Some v => Ok v
  | None => Raise KeyError
  end.
End odict.

(** ** The solver engine's model (ortools [cp_model.CpModel])

    Variables are identified by their index of creation; a name is a label
    only (the scripts reuse names). *)

Record IntVar : Type := mkIntVar {
  v_lb : Z;
  v_ub : Z;
  v_name : string
}.

(** Linear expressions over variables. *)
Inductive expr : Type :=
| EVar (v : nat)
| EConst (c : Z)
| EAdd (a b : expr)
| ESub (a b : expr)
| EMul (c : Z) (a : expr).

Inductive rel : Type := Le | Lt | Ge | Gt | Eq.

(** A Boolean variable or its negation ([b.Not()]). *)
Inductive literal : Type :=
| Lit (v : nat)
| NotLit (v : nat).

Inductive constraint : Type :=
| Linear (lhs : expr) (r : rel) (rhs : expr) (enforce : list literal)
| BoolAnd (ls : list literal) (enforce : list literal)
| BoolOr (ls : list literal) (enforce : list literal)
| MaxEquality (target : expr) (es : list expr)
| MinEquality (target : expr) (es : list expr)
| DivisionEquality (target num denom : expr)
| ModuloEquality (target e m : expr).

Record CpModel : Type := mkCpModel {
  variables : list IntVar;
  constraints : list constraint;
  objective : option expr
}.

Definition empty_model : CpModel := mkCpModel [] [] None.

(** *** Meaning of a model under an assignment *)

Definition assignment : Type := nat -> Z.

(** The assignment that gives variable [i] the [i]-th value of a list. *)
Definition assign (vals : list Z) : assignment := fun i => nth i vals 0.

Fixpoint eval (s : assignment) (e : expr) : Z :=
  match e with
  | EVar v => s v
  | EConst c => c
  | EAdd a b => eval s a + eval s b
  | ESub a b => eval s a - eval s b
  | EMul c a => c * eval s a
  end.

Definition rel_holds (r : rel) (x y : Z) : Prop :=
  match r with
  | Le => x <= y
  | Lt => x < y
  | Ge => x >= y
  | Gt => x > y
  | Eq => x = y
  end.

Definition lit_holds (s : assignment) (l : literal) : Prop :=
  match l with
  | Lit v => s v = 1
  | NotLit v => s v = 0
  end.

Definition max_list (x : Z) (xs : list Z) : Z := fold_left Z.max xs x.
Definition min_list (x : Z) (xs : list Z) : Z := fold_left Z.min xs x.

(** Division and modulo are the engine's: the quotient rounded towards zero
    and the remainder with the sign of the dividend; a zero divisor or a
    modulus that is not positive makes the model invalid, so no assignment
    satisfies the constraint.  On operands that are not negative these are
    the floor division and the modulo of the spec. *)
Definition holds (s : assignment) (c : constraint) : Prop :=
  match c with
  | Linear lhs r rhs enf =>
      Forall (lit_holds s) enf -> rel_holds r (eval s lhs) (eval s rhs)
  | BoolAnd ls enf =>
      Forall (lit_holds s) enf -> Forall (lit_holds s) ls
  | BoolOr ls enf =>
      Forall (lit_holds s) enf -> Exists (lit_holds s) ls
  | MaxEquality t es =>
      match map (eval s) es with
      | [] => False
      | x :: xs => eval s t = max_list x xs
      end
  | MinEquality t es =>
      match map (eval s) es with
      | [] => False
      | x :: xs => eval s t = min_list x xs
      end
  | DivisionEquality t num denom =>
      eval s denom <> 0 /\ eval s t = Z.quot (eval s num) (eval s denom)
  | ModuloEquality t e m =>
      0 < eval s m /\ eval s t = Z.rem (eval s e) (eval s m)
  end.

Fixpoint in_bounds (s : assignment) (i : nat) (vs : list IntVar) : Prop :=
  match vs with
  | [] => True
  | d :: vs' => (v_lb d <= s i <= v_ub d) /\ in_bounds s (S i) vs'
  end.

(** [s] is a solution of [m]: every variable is inside its bounds and every
    constraint holds. *)
Definition feasible (s : assignment) (m : CpModel) : Prop :=
  in_bounds s 0 (variables m) /\ Forall (holds s) (constraints m).

Definition objective_value (s : assignment) (m : CpModel) : Z :=
  match objective m with
  | Some e => eval s e
  | None => 0
  end.


#[global] Instance rel_holds_dec r x y : Decision (rel_holds r x y).
Proof. destruct r; simpl; apply _. Defined.

#[global] Instance lit_holds_dec s l : Decision (lit_holds s l).
Proof. destruct l; simpl; apply _. Defined.

#[global] Instance holds_dec s c : Decision (holds s c).
Proof.
  destruct c; simpl; try apply _.
  - destruct (map (eval s) es); apply _.
  - destruct (map (eval s) es); apply _.
Defined.

#[global] Instance in_bounds_dec s vs : forall i, Decision (in_bounds s i vs).
Proof. induction vs; simpl; intros; apply _. Defined.

#[global] Instance feasible_dec s m : Decision (feasible s m).
Proof. unfold feasible. apply _. Defined.

(** *** Building a model: state (the model under construction) and
    exceptions *)

#[global] Instance result_ret : MRet result := fun _ a => Ok a.
#[global] Instance result_bind : MBind result := fun _ _ f r =>
  match r with Ok a => f a | Raise e => Raise e end.

Definition M (A : Type) : Type := CpModel -> result (A * CpModel).

#[global] Instance M_ret : MRet M := fun _ a m => Ok (a, m).
#[global] Instance M_bind : MBind M := fun _ _ f c m =>
  match c m with
  | Ok (a, m') => f a m'
  | Raise e => Raise e
  end.

Definition lift {A} (r : result A) : M A := fun m =>
  match r with Ok a => Ok (a, m) | Raise e => Raise e end.

Definition raise {A} (e : exn) : M A := fun _ => Raise e.

Definition py_assert (b : bool) : M unit :=
  if b then mret tt else raise AssertionError.

(** [model.NewIntVar(lb, ub, name)]: the new variable's index.  The
    engine holds signed 64-bit bounds and refuses a larger Python
    integer with a [TypeError]; the scripts pass the constants 0, 1,
    1000 and -1000 and [NPH - 1], and the refusal is not modelled: a
    theorem that concludes that a construction returns assumes a phase
    count in that range ([phase_count_ok] below). *)
Definition NewIntVar (lb ub : Z) (name : string) : M nat := fun m =>
  Ok (length (variables m),
      mkCpModel (variables m ++ [mkIntVar lb ub name]) (constraints m)
                (objective m)).

Definition NewBoolVar (name : string) : M nat := NewIntVar 0 1 name.

(** [model.Add(...)], [model.AddMaxEquality(...)], ...: one more
    constraint. *)
Definition Add (c : constraint) : M unit := fun m =>
  Ok (tt, mkCpModel (variables m) (constraints m ++ [c]) (objective m)).

Definition Minimize (e : expr) : M unit := fun m =>
  Ok (tt, mkCpModel (variables m) (constraints m) (Some e)).

(** [for x in l: s = body(s, x)] *)
Fixpoint for_each {A S : Type} (l : list A) (body : S -> A -> M S) (s : S)
  : M S :=
  match l with
  | [] => mret s
  | x :: l' => s' ← body s x; for_each l' body s'
  end.

(** Python's [sum(expr)]: the terms added one by one to [0]. *)
Definition py_sum (es : list expr) : expr := fold_left EAdd es (EConst 0).

(** The gate classes of the scripts' [TYPES] tables. *)
Inductive gate_type : Type := PI | AA | AS | SA | FA.

#[global] Instance gate_type_eq_dec : EqDecision gate_type.
Proof. solve_decision. Defined.

Definition type_name (t : gate_type) : string :=
  match t with
  | PI => "PI" | AA => "AA" | AS => "AS" | SA => "SA" | FA => "FA"
  end.

(** The bounds every script gives to a timing variable of a gate. *)
Definition sigma_bounds : Z * Z := (0, 1000).

(** ** The engine's answer *)

Inductive status : Type :=
| UNKNOWN | MODEL_INVALID | FEASIBLE | INFEASIBLE | OPTIMAL.

Definition StatusName (st : status) : string :=
  match st with
  | UNKNOWN => "UNKNOWN"
  | MODEL_INVALID => "MODEL_INVALID"
  | FEASIBLE => "FEASIBLE"
  | INFEASIBLE => "INFEASIBLE"
  | OPTIMAL => "OPTIMAL"
  end.

(** What [solver.Solve(model)] leaves in the solver object: the status, the
    objective field of the response (present whatever the status) and the
    values [solver.Value] reads (those of the solution, when the status
    is OPTIMAL or FEASIBLE). *)
Record response : Type := mkResponse {
  r_status : status;
  r_objective : Z;
  r_values : assignment
}.

(** A line the scripts print. *)
Inductive out_line : Type :=
| StatusLine (name : string)
| ObjectiveLine (v : Z)
| ValueLine (name : string) (v : Z)
| NameLine (name : string).

(** ** Python string operations used by the parsers *)

(** [s.split(sep)] for a one-character separator. *)
Fixpoint py_split_go (sep : ascii) (s : string) (cur : string)
  : list string :=
  match s with
  | EmptyString => [String.rev cur]
  | String c s' =>
      if Ascii.eqb c sep then String.rev cur :: py_split_go sep s' EmptyString
      else py_split_go sep s' (String c cur)
  end.

Definition py_split (sep : ascii) (s : string) : list string :=
  py_split_go sep s EmptyString.

(** [c in s] for a character. *)
Fixpoint py_contains (c : ascii) (s : string) : bool :=
  match s with
  | EmptyString => false
  | String c' s' => Ascii.eqb c' c || py_contains c s'
  end.

(** The ASCII characters [str.isspace] accepts. *)
Definition is_space (c : ascii) : bool :=
  let n := nat_of_ascii c in
  ((9 <=? n)%nat && (n <=? 13)%nat) || ((28 <=? n)%nat && (n <=? 32)%nat).

Fixpoint lstrip (s : string) : string :=
  match s with
  | EmptyString => EmptyString
  | String c s' => if is_space c then lstrip s' else s
  end.

(** [s.strip()] *)
Definition py_strip (s : string) : string :=
  String.rev (lstrip (String.rev (lstrip s))).

(** [s.split()]: the fields between runs of blanks. *)
Fixpoint py_split_ws_go (s : string) (cur : string) : list string :=
  match s with
  | EmptyString =>
      match cur with EmptyString => [] | _ => [String.rev cur] end
  | String c s' =>
      if is_space c then
        match cur with
        | EmptyString => py_split_ws_go s' EmptyString
        | _ => String.rev cur :: py_split_ws_go s' EmptyString
        end
      else py_split_ws_go s' (String c cur)
  end.

Definition py_split_ws (s : string) : list string :=
  py_split_ws_go s EmptyString.

(** A reader of decimal integers, one possible [int]: blanks around,
    an optional sign, then digits.  Python's [int] reads more (an
    underscore between digits, the other decimal digits of Unicode):
    the parsers and their theorems take the reader as a parameter, and
    this one serves the worked inputs, which are plain digits. *)
Fixpoint digits_value (s : string) (acc : Z) : option Z :=
  match s with
  | EmptyString => Some acc
  | String c s' =>
      let n := nat_of_ascii c in
      if (48 <=? n)%nat && (n <=? 57)%nat
      then digits_value s' (10 * acc + Z.of_nat (n - 48))
      else None
  end.

Definition dec_int (s : string) : result Z :=
  let body (t : string) : option Z :=
    match t with
    | EmptyString => None
    | _ => digits_value t 0
    end in
  let r :=
    match py_strip s with
    | String "-" t => Z.opp <$> body t
    | String "+" t => body t
    | t => body t
    end in
  match r with Some z => Ok z | None => Raise ValueError end.

(** ** The timing variables and the AA, AS and SA cases

    [decomposed_ilp_max.py], [decomposed_ilp_FA.py] and [phase_assignment.py]
    allocate [Sigma] and encode the AA, AS and SA gates with the same
    statements; each script has a [Primitive] class of its own, read
    through the attributes [sig], [type] and [fanins]. *)

Class Gate (P : Type) : Type := {
  sig_of : P -> Z;
  type_of : P -> gate_type;
  fanins_of : P -> list Z
}.

Definition count_fanout (fanout : gmap Z Z) (p_sig : Z) : gmap Z Z :=
  <[p_sig := default 0 (fanout !! p_sig) + 1]> fanout.

Definition pair_name (prefix : string) (x y : Z) : string :=
  prefix +:+ pretty x +:+ "_" +:+ pretty y.

Definition tag_name (prefix : string) (x : Z) : string :=
  prefix +:+ pretty x.

Definition new_sigma_var (name : string) : M nat :=
  NewIntVar (fst sigma_bounds) (snd sigma_bounds) name.

Section sigma_model.
Context {P : Type} `{Gate P}.
Variable NPH : Z.

(** The first loop: a PI is bound to one clock cycle, a gate gets the
    full range and counts once for each of its fanins. *)
Definition alloc_body (st : list (Z * nat) * gmap Z Z) (g : P)
  : M (list (Z * nat) * gmap Z Z) :=
  let '(Sigma, fanout) := st in
  match type_of g with
  | PI =>
      v ← NewIntVar 0 (NPH - 1) (tag_name "SIGMA_" (sig_of g));
      mret (od_set Sigma (sig_of g) v, fanout)
  | _ =>
      v ← new_sigma_var (tag_name "SIGMA_" (sig_of g));
      mret (od_set Sigma (sig_of g) v,
            foldl count_fanout fanout (fanins_of g))
  end.

Definition alloc (all_signals : list (Z * P))
  : M (list (Z * nat) * gmap Z Z) :=
  for_each (od_values all_signals) alloc_body ([], ∅).

Variable all_signals : list (Z * P).
Variable Sigma : list (Z * nat).
Variable fanout : gmap Z Z.

Definition sigma_of (k : Z) : M nat := lift (od_index Sigma k).

Definition encode_AA (g : P) (ex : list expr) : M (list expr) :=
  match fanins_of g with
  | [a_sig; b_sig] =>
      a ← lift (od_index all_signals a_sig);
      b ← lift (od_index all_signals b_sig);
      max_diff ← new_sigma_var (pair_name "max_" (sig_of a) (sig_of b));
      sg ← sigma_of (sig_of g);
      sa ← sigma_of (sig_of a);
      sb ← sigma_of (sig_of b);
      Add (MaxEquality (EVar max_diff)
             [ESub (EVar sg) (EVar sa); ESub (EVar sg) (EVar sb)]);;
      div_val ← new_sigma_var (pair_name "div_" (sig_of a) (sig_of b));
      Add (DivisionEquality (EVar div_val) (EVar max_diff) (EConst NPH));;
      Add (Linear (EVar sa) Le (EVar sg) []);;
      Add (Linear (EVar sb) Le (EVar sg) []);;
      mret (ex ++ [EVar div_val])
  | _ => raise AssertionError
  end.

Definition encode_AS_edge (g : P) (ex : list expr) (p_sig : Z)
  : M (list expr) :=
  sp ← sigma_of p_sig;
  sg ← sigma_of (sig_of g);
  Add (Linear (EVar sp) Lt (EVar sg) []);;
  delta ← new_sigma_var (pair_name "delta_" p_sig (sig_of g));
  Add (Linear (EVar delta) Eq (ESub (EVar sg) (EVar sp)) []);;
  div_val ← new_sigma_var (pair_name "div_" p_sig (sig_of g));
  Add (DivisionEquality (EVar div_val) (EVar delta) (EConst NPH));;
  mret (ex ++ [EVar div_val]).

Definition encode_AS (g : P) (ex : list expr) : M (list expr) :=
  for_each (fanins_of g) (encode_AS_edge g) ex.

(** The test of the SA case: the fanin is an AS gate that one gate
    reads. *)
Definition is_true_AS (p : P) : bool :=
  bool_decide (type_of p = AS) &&
  bool_decide (default 0 (fanout !! sig_of p) = 1).

Definition encode_SA_edge (g : P) (ex : list expr) (p_sig : Z)
  : M (list expr) :=
  p ← lift (od_index all_signals p_sig);
  sp ← sigma_of p_sig;
  sg ← sigma_of (sig_of g);
  (if is_true_AS p
   then Add (Linear (EVar sp) Le (EVar sg) [])
   else Add (Linear (EVar sp) Lt (EVar sg) []));;
  delta ← new_sigma_var (pair_name "delta_sa_" p_sig (sig_of g));
  Add (Linear (EVar delta) Eq
         (ESub (EAdd (ESub (EVar sg) (EVar sp)) (EConst NPH)) (EConst 1))
         []);;
  div_val ← new_sigma_var (pair_name "div_" p_sig (sig_of g));
  Add (DivisionEquality (EVar div_val) (EVar delta) (EConst NPH));;
  mret (ex ++ [EVar div_val]).

Definition encode_SA (g : P) (ex : list expr) : M (list expr) :=
  for_each (fanins_of g) (encode_SA_edge g) ex.
End sigma_model.

(** What a script holds when it calls the solver. *)
Record built : Type := mkBuilt {
  b_Sigma : list (Z * nat);
  b_fanout : gmap Z Z;
  b_expr : list expr
}.

(** [s[n:]] *)
Fixpoint py_drop (n : nat) (s : string) : string :=
  match n, s with
  | O, _ => s
  | S n', String _ s' => py_drop n' s'
  | S _, EmptyString => EmptyString
  end.

Definition var_name (m : CpModel) (v : nat) : string :=
  match variables m !! v with
  | Some d => v_name d
  | None => EmptyString
  end.

Definition has_solution (name : string) : bool :=
  String.eqb name "OPTIMAL" || String.eqb name "FEASIBLE".

(** The lines these scripts print after [solver.Solve]: the status always,
    the objective and one line per signal under OPTIMAL or FEASIBLE. *)
Definition report (m : CpModel) (Sigma : list (Z * nat)) (r : response)
  : list out_line :=
  StatusLine (StatusName (r_status r)) ::
  (if has_solution (StatusName (r_status r))
   then ObjectiveLine (r_objective r) ::
        map (fun '(_, sigma) =>
               ValueLine (py_drop 6 (var_name m sigma)) (r_values r sigma))
            Sigma
   else []).

(** The engine's side of the contract: under OPTIMAL or FEASIBLE the
    values it returns are a solution of the model and the objective it
    returns is the objective of that solution. *)
Definition answers (m : CpModel) (r : response) : Prop :=
  has_solution (StatusName (r_status r)) = true ->
  feasible (r_values r) m /\
  r_objective r = objective_value (r_values r) m.

Fixpoint parse_ints (py_int : string -> result Z) (toks : list string)
  : result (list Z) :=
  match toks with
  | [] => Ok []
  | tok :: toks' =>
      z ← py_int tok; zs ← parse_ints py_int toks'; mret (z :: zs)
  end.

Definition nonempty (s : string) : bool :=
  match s with EmptyString => false | _ => true end.

(** ** [phase_assignment.py] *)

Module PhaseAssignment.

Definition TYPES (code : string) : result gate_type :=
  if String.eqb code "0" then Ok PI
  else if String.eqb code "1" then Ok AA
  else if String.eqb code "2" then Ok AS
  else if String.eqb code "3" then Ok SA
  else if String.eqb code "4" then Ok FA
  else Raise KeyError.

Record Primitive : Type := mkPrimitive {
  sig : Z;
  type : gate_type;
  fanins : list Z;
  in_neg : list bool
}.

(** [Primitive.__init__]: a signal without fanins is a PI whatever type
    it is given. *)
Definition Primitive_init (_sig : Z) (_type : gate_type) (_fanins : list Z)
    (_in_neg : list bool) : Primitive :=
  {| sig := _sig;
     type := match _fanins with [] => PI | _ => _type end;
     fanins := _fanins;
     in_neg := _in_neg |}.

(** A T1 cell: the signals of its outputs by role, in the order
    XOR, MAJ, MIN, OR, NOR. *)
Definition t1_cell : Type := list (string * Z).

Definition ROLES : list string := ["XOR"; "MAJ"; "MIN"; "OR"; "NOR"].

Section parse.
(** Python's [int] on strings is the interpreter's; the parser is
    written over any such reader. *)
Variable py_int : string -> result Z.

(** The fanins of a T1 line, each optionally marked with [~]. *)
Fixpoint parse_t1_fanins (toks : list string)
  : result (list Z * list bool) :=
  match toks with
  | [] => Ok ([], [])
  | tok :: toks' =>
      '(p, neg) ← match tok with
                   | String "~" rest => z ← py_int rest; mret (z, true)
                   | _ => z ← py_int tok; mret (z, false)
                   end;
      '(ps, negs) ← parse_t1_fanins toks';
      mret (p :: ps, neg :: negs)
  end.

(** The loop over [zip(ROLES, sigs)] of a T1 line. *)
Fixpoint parse_t1_outputs (_type : gate_type) (_fanins : list Z)
    (_in_neg : list bool) (pairs : list (string * string))
    (items : list (Z * Primitive)) (_siblings : t1_cell)
  : result (list (Z * Primitive) * t1_cell) :=
  match pairs with
  | [] => Ok (items, _siblings)
  | (_key, _sig_str) :: pairs' =>
      if String.eqb _sig_str "0"
      then parse_t1_outputs _type _fanins _in_neg pairs' items _siblings
      else
        _sig ← py_int _sig_str;
        parse_t1_outputs _type _fanins _in_neg pairs'
          (od_set items _sig (Primitive_init _sig _type _fanins _in_neg))
          (od_set _siblings _key _sig)
  end.

(** One gate line: [sigs,type,fanins]. *)
Definition parse_line (st : list (Z * Primitive) * list t1_cell)
    (line : string) : result (list (Z * Primitive) * list t1_cell) :=
  let '(items, t1_cells) := st in
  let line := py_strip line in
  match py_split "," line with
  | [_all_sig_str; _type_str; _fanin_str] =>
      _type ← TYPES _type_str;
      if py_contains "|" _all_sig_str then
        if negb (String.eqb _type_str "4") then Raise AssertionError else
        '(_fanins, _in_neg) ← parse_t1_fanins (py_split "|" _fanin_str);
        '(items', _siblings) ←
          parse_t1_outputs _type _fanins _in_neg
            (zip ROLES (py_split "|" _all_sig_str)) items [];
        if negb (bool_decide (is_Some (od_get _siblings "XOR")))
        then Raise AssertionError
        else Ok (items', t1_cells ++ [_siblings])
      else
        if String.eqb _type_str "4" then Raise AssertionError else
        _fanins ← parse_ints py_int (filter nonempty (py_split "|" _fanin_str));
        _sig ← py_int _all_sig_str;
        _type' ← TYPES _type_str;
        Ok (od_set items _sig (Primitive_init _sig _type' _fanins []),
            t1_cells)
  | _ => Raise ValueError
  end.

Fixpoint parse_lines (lines : list string)
    (st : list (Z * Primitive) * list t1_cell)
  : result (list (Z * Primitive) * list t1_cell) :=
  match lines with
  | [] => Ok st
  | line :: lines' => st' ← parse_line st line; parse_lines lines' st'
  end.

(** The first line lists the PIs after a leading field. *)
Fixpoint parse_pis (toks : list string) (items : list (Z * Primitive))
  : result (list (Z * Primitive)) :=
  match toks with
  | [] => Ok items
  | _sig_str :: toks' =>
      _sig ← py_int _sig_str;
      parse_pis toks' (od_set items _sig (Primitive_init _sig PI [] []))
  end.

(** [parse_specs], on the lines of the file. *)
Definition parse_specs (lines : list string)
  : result (list (Z * Primitive) * list t1_cell) :=
  match lines with
  | [] => Raise StopIteration
  | pi_line :: rest =>
      items ← parse_pis (tail (py_split "," pi_line)) [];
      parse_lines rest (items, [])
  end.
End parse.

(** *** [__main__]: the T1 cells *)

#[global] Instance Primitive_Gate : Gate Primitive :=
  {| sig_of := sig; type_of := type; fanins_of := fanins |}.

Section encode.
Variable NPH : Z.
Variable all_signals : list (Z * Primitive).
Variable all_t1_cells : list t1_cell.
Variable Sigma : list (Z * nat).
Variable fanout : gmap Z Z.

(** The first cell of [all_t1_cells] that lists the signal. *)
Definition find_cell (s : Z) : result t1_cell :=
  match find (fun c : t1_cell => bool_decide (s ∈ od_values c))
             all_t1_cells with
  | Some c => Ok c
  | None => Raise ValueError
  end.

(** A fanin of a T1 cell counts one unit later when it is an AA gate, or
    an AS/SA gate read negated. *)
Definition t1_delayed (p : Primitive) (p_neg : bool) : bool :=
  bool_decide (type p = AA) ||
  ((bool_decide (type p = AS) || bool_decide (type p = SA)) && p_neg).

Fixpoint incr_loop (i : nat) (pairs : list (Z * bool)) (incr_Sigma : list Z)
  : result (list Z) :=
  match pairs with
  | [] => Ok incr_Sigma
  | (p_sig, p_neg) :: pairs' =>
      p ← od_index all_signals p_sig;
      incr_loop (S i) pairs'
        (if t1_delayed p p_neg then alter (Z.add 1) i incr_Sigma
         else incr_Sigma)
  end.

Definition place_sibling (T1_XOR_SIGMA : nat) (_ : unit) (g_sig : Z)
  : M unit :=
  sg ← sigma_of Sigma g_sig;
  Add (Linear (EVar sg) Eq (EVar T1_XOR_SIGMA) []).

Definition encode_FA (g : Primitive) (st : list expr * list Z)
  : M (list expr * list Z) :=
  let '(ex, already_processed) := st in
  if bool_decide (sig g ∈ already_processed) then mret st else
  sibling_list ← lift (find_cell (sig g));
  match fanins g with
  | [f0; f1; f2] =>
      incr_Sigma ← lift (incr_loop 0 (zip (fanins g) (in_neg g)) [0; 0; 0]);
      let incr (i : nat) : Z := default 0 (incr_Sigma !! i) in
      ABS_MIN ← new_sigma_var (tag_name "absmin_" (sig g));
      s0 ← sigma_of Sigma f0;
      s1 ← sigma_of Sigma f1;
      s2 ← sigma_of Sigma f2;
      let e0 := EAdd (EVar s0) (EConst (incr 0%nat)) in
      let e1 := EAdd (EVar s1) (EConst (incr 1%nat)) in
      let e2 := EAdd (EVar s2) (EConst (incr 2%nat)) in
      Add (MinEquality (EVar ABS_MIN) [e0; e1; e2]);;
      ABS_MAX ← new_sigma_var (tag_name "absmax_" (sig g));
      Add (MaxEquality (EVar ABS_MAX) [e0; e1; e2]);;
      ABS_MED ← new_sigma_var (tag_name "absmed_" (sig g));
      Add (Linear (EVar ABS_MED) Eq
             (ESub (ESub (EAdd (EAdd e0 e1) e2) (EVar ABS_MIN))
                   (EVar ABS_MAX)) []);;
      T1_XOR_SIGMA ← new_sigma_var (tag_name "sigma_xor_" (sig g));
      Add (Linear (EVar T1_XOR_SIGMA) Gt
             (EAdd (EVar ABS_MIN) (EConst 2)) []);;
      Add (Linear (EVar T1_XOR_SIGMA) Gt
             (EAdd (EVar ABS_MED) (EConst 1)) []);;
      Add (Linear (EVar T1_XOR_SIGMA) Gt (EVar ABS_MAX) []);;
      MED_MIN_diff_TMP ←
        new_sigma_var (tag_name "mod_med_min_diff_tmp_" (sig g));
      Add (Linear (EVar MED_MIN_diff_TMP) Eq
             (ESub (EVar ABS_MED) (EVar ABS_MIN)) []);;
      MED_MIN_diff ← new_sigma_var (tag_name "mod_med_min_diff_" (sig g));
      Add (ModuloEquality (EVar MED_MIN_diff) (EVar MED_MIN_diff_TMP)
             (EConst NPH));;
      MAX_MED_diff_TMP ←
        new_sigma_var (tag_name "mod_max_med_diff_tmp_" (sig g));
      Add (Linear (EVar MAX_MED_diff_TMP) Eq
             (ESub (EVar ABS_MAX) (EVar ABS_MED)) []);;
      MAX_MED_diff ← new_sigma_var (tag_name "mod_max_med_diff_" (sig g));
      Add (ModuloEquality (EVar MAX_MED_diff) (EVar MAX_MED_diff_TMP)
             (EConst NPH));;
      MAX_MIN_diff_TMP ←
        new_sigma_var (tag_name "mod_max_min_diff_tmp_" (sig g));
      Add (Linear (EVar MAX_MIN_diff_TMP) Eq
             (ESub (EVar ABS_MAX) (EVar ABS_MIN)) []);;
      MAX_MIN_diff ← new_sigma_var (tag_name "mod_max_min_diff_" (sig g));
      Add (ModuloEquality (EVar MAX_MIN_diff) (EVar MAX_MIN_diff_TMP)
             (EConst NPH));;
      FLOOR_DIFF_MIN_TMP ←
        NewIntVar (-1000) 1000 (tag_name "floor_diff_min_tmp_" (sig g));
      Add (Linear (EVar FLOOR_DIFF_MIN_TMP) Eq
             (ESub (ESub (EVar T1_XOR_SIGMA) (EVar ABS_MIN)) (EConst 1))
             []);;
      FLOOR_DIFF_MIN ← new_sigma_var (tag_name "floor_diff_min_" (sig g));
      Add (DivisionEquality (EVar FLOOR_DIFF_MIN) (EVar FLOOR_DIFF_MIN_TMP)
             (EConst NPH));;
      FLOOR_DIFF_MED_TMP ←
        new_sigma_var (tag_name "floor_diff_med_tmp_" (sig g));
      Add (Linear (EVar FLOOR_DIFF_MED_TMP) Eq
             (ESub (ESub (EVar T1_XOR_SIGMA) (EVar ABS_MED)) (EConst 1))
             []);;
      FLOOR_DIFF_MED ← new_sigma_var (tag_name "floor_diff_med_" (sig g));
      Add (DivisionEquality (EVar FLOOR_DIFF_MED) (EVar FLOOR_DIFF_MED_TMP)
             (EConst NPH));;
      FLOOR_DIFF_MAX_TMP ←
        new_sigma_var (tag_name "floor_diff_max_tmp_" (sig g));
      Add (Linear (EVar FLOOR_DIFF_MAX_TMP) Eq
             (ESub (ESub (EVar T1_XOR_SIGMA) (EVar ABS_MAX)) (EConst 1))
             []);;
      FLOOR_DIFF_MAX ← new_sigma_var (tag_name "floor_diff_max_" (sig g));
      Add (DivisionEquality (EVar FLOOR_DIFF_MAX) (EVar FLOOR_DIFF_MAX_TMP)
             (EConst NPH));;
      MIN_FLAG ← NewBoolVar (tag_name "min_flag_" (sig g));
      Add (Linear (EVar MED_MIN_diff) Eq (EConst 0) [Lit MIN_FLAG]);;
      Add (Linear (EVar FLOOR_DIFF_MIN) Eq (EConst 0) [Lit MIN_FLAG]);;
      MED_FLAG ← NewBoolVar (tag_name "med_flag_" (sig g));
      Add (Linear (EVar MAX_MED_diff) Eq (EConst 0) [Lit MED_FLAG]);;
      Add (Linear (EVar FLOOR_DIFF_MED) Eq (EConst 0) [Lit MED_FLAG]);;
      for_each (od_values sibling_list) (place_sibling T1_XOR_SIGMA) tt;;
      mret (ex ++ [EVar FLOOR_DIFF_MIN; EVar FLOOR_DIFF_MED;
                   EVar FLOOR_DIFF_MAX; EVar MIN_FLAG; EVar MED_FLAG],
            already_processed ++ od_values sibling_list)
  | _ => raise AssertionError
  end.

(** One turn of the loop over [all_signals.values()].  The loop's last
    branch (an unsupported type raises [ValueError]) has no case here:
    [TYPES] and [Primitive_init] give one of the five types only. *)
Definition encode_gate (st : list expr * list Z) (g : Primitive)
  : M (list expr * list Z) :=
  let '(ex, already_processed) := st in
  match type g with
  | PI => mret st
  | AA => ex' ← encode_AA NPH all_signals Sigma g ex; mret (ex', already_processed)
  | AS => ex' ← encode_AS NPH Sigma g ex; mret (ex', already_processed)
  | SA => ex' ← encode_SA NPH all_signals Sigma fanout g ex; mret (ex', already_processed)
  | FA => encode_FA g st
  end.
End encode.

Definition build (NPH : Z) (all_signals : list (Z * Primitive))
    (all_t1_cells : list t1_cell) : M built :=
  '(Sigma, fanout) ← alloc NPH all_signals;
  '(ex, _) ← for_each (od_values all_signals)
                (encode_gate NPH all_signals all_t1_cells Sigma fanout)
                ([], []);
  Minimize (py_sum ex);;
  mret (mkBuilt Sigma fanout ex).

(** The model handed to [solver.Solve], from the parsed signals. *)
Definition construct (NPH : Z) (all_signals : list (Z * Primitive))
    (all_t1_cells : list t1_cell) : result (built * CpModel) :=
  build NPH all_signals all_t1_cells empty_model.

(** *** [__main__]: solving and reporting *)

Section main.
Variable py_int : string -> result Z.
(** The external engine. *)
Variable Solve : CpModel -> response.

(** The run of the script: the lines written to the log after the solve
    and those written to the terminal, or the exception that ends it
    before the solver is called. *)
Definition main (NPH : Z) (lines : list string)
  : result (list out_line * list out_line) :=
  '(all_signals, all_t1_cells) ← parse_specs py_int lines;
  '(b, model) ← construct NPH all_signals all_t1_cells;
  let r := Solve model in
  mret (report model (b_Sigma b) r, report model (b_Sigma b) r).
End main.

End PhaseAssignment.

(** ** [decomposed_ilp_max.py] *)

Module DecomposedMax.

Definition TYPES (code : string) : result gate_type :=
  if String.eqb code "0" then Ok PI
  else if String.eqb code "1" then Ok AA
  else if String.eqb code "2" then Ok AS
  else if String.eqb code "3" then Ok SA
  else Raise KeyError.

Record Primitive : Type := mkPrimitive {
  sig : Z;
  type : gate_type;
  fanins : list Z;
  fanouts : list Z
}.

#[global] Instance Primitive_Gate : Gate Primitive :=
  {| sig_of := sig; type_of := type; fanins_of := fanins |}.

Section parse.
Variable py_int : string -> result Z.

(** One line: [sig,type,fanins,fanouts]. *)
Definition parse_line (items : list (Z * Primitive)) (line : string)
  : result (list (Z * Primitive)) :=
  let line := py_strip line in
  match py_split "," line with
  | [_sig_str; _type_str; _fanin_str; _fanout_str] =>
      _sig ← py_int _sig_str;
      _fanins ← parse_ints py_int (filter nonempty (py_split "|" _fanin_str));
      _fanouts ←
        parse_ints py_int (filter nonempty (py_split "|" _fanout_str));
      _type ← TYPES _type_str;
      Ok (od_set items _sig (mkPrimitive _sig _type _fanins _fanouts))
  | _ => Raise ValueError
  end.

Fixpoint parse_lines (lines : list string) (items : list (Z * Primitive))
  : result (list (Z * Primitive)) :=
  match lines with
  | [] => Ok items
  | line :: lines' =>
      items' ← parse_line items line; parse_lines lines' items'
  end.

Definition parse_specs (lines : list string)
  : result (list (Z * Primitive)) :=
  parse_lines lines [].
End parse.

(** One turn of the gate loop; a signal of another type (a PI) adds
    nothing. *)
Definition encode_gate (NPH : Z) (all_signals : list (Z * Primitive))
    (Sigma : list (Z * nat)) (fanout : gmap Z Z) (ex : list expr)
    (g : Primitive) : M (list expr) :=
  match type g with
  | AA => encode_AA NPH all_signals Sigma g ex
  | AS => encode_AS NPH Sigma g ex
  | SA => encode_SA NPH all_signals Sigma fanout g ex
  | _ => mret ex
  end.

Definition build (NPH : Z) (all_signals : list (Z * Primitive)) : M built :=
  '(Sigma, fanout) ← alloc NPH all_signals;
  ex ← for_each (od_values all_signals)
         (encode_gate NPH all_signals Sigma fanout) [];
  Minimize (py_sum ex);;
  mret (mkBuilt Sigma fanout ex).

Definition construct (NPH : Z) (all_signals : list (Z * Primitive))
  : result (built * CpModel) :=
  build NPH all_signals empty_model.

Section main.
Variable py_int : string -> result Z.
Variable Solve : CpModel -> response.

Definition main (NPH : Z) (lines : list string)
  : result (list out_line * list out_line) :=
  all_signals ← parse_specs py_int lines;
  '(b, model) ← construct NPH all_signals;
  let r := Solve model in
  mret (report model (b_Sigma b) r, report model (b_Sigma b) r).
End main.

End DecomposedMax.

(** ** [Gradual_ILP.py]

    The script works on a clock stage [S] and a phase [Phi] per signal,
    with [NPH] fixed to 2; the timing of a signal is [NPH * S + Phi].  The
    dictionary [S] is written [S_] here ([S] is the successor of [nat]),
    and the functions [𝜑_le] and [𝜑_lt] of the script are [varphi_le]
    and [varphi_lt]. *)

Module GradualILP.

Definition TYPES (code : string) : result gate_type :=
  if String.eqb code "0" then Ok AA
  else if String.eqb code "1" then Ok AS
  else if String.eqb code "2" then Ok SA
  else Raise KeyError.

Record Primitive : Type := mkPrimitive {
  sig : Z;
  func : Z;
  type : gate_type;
  fanins : list Z
}.

#[global] Instance Primitive_Gate : Gate Primitive :=
  {| sig_of := sig; type_of := type; fanins_of := fanins |}.

Section parse.
Variable py_int : string -> result Z.

(** One line of the file, with its end of line: [PI sig], or
    [sig,func,type,fanins]. *)
Definition parse_line (items : list (Z * Primitive)) (line : string)
  : result (list (Z * Primitive)) :=
  if String.prefix "PI" line then
    match py_split_ws line with
    | [_; _sig_str] =>
        _sig ← py_int _sig_str;
        Ok (od_set items _sig (mkPrimitive _sig 43690 PI []))
    | _ => Raise ValueError
    end
  else
    match py_split "," line with
    | [_sig_str; _func_str; _type_str; _fanin_str] =>
        _sig ← py_int _sig_str;
        _func ← py_int _func_str;
        _fanins ← parse_ints py_int (py_split "|" _fanin_str);
        _type ← TYPES _type_str;
        Ok (od_set items _sig (mkPrimitive _sig _func _type _fanins))
    | _ => Raise ValueError
    end.

Fixpoint parse_lines (lines : list string) (items : list (Z * Primitive))
  : result (list (Z * Primitive)) :=
  match lines with
  | [] => Ok items
  | line :: lines' =>
      items' ← parse_line items line; parse_lines lines' items'
  end.

Definition parse_specs (lines : list string)
  : result (list (Z * Primitive)) :=
  parse_lines lines [].
End parse.

Definition NPH : Z := 2.
Definition S_bounds : Z * Z := (0, 1000).
Definition phi_bounds : Z * Z := (0, NPH - 1).

(** [NPH * S[x] + Phi[x]] over the two variables of a signal. *)
Definition timing (s phi : nat) : expr := EAdd (EMul NPH (EVar s)) (EVar phi).

(** [f'{x}_lt_{y}'] and [f'{x}_lt_{y}_p1'] *)
Definition lt_name (x y : Z) (suffix : string) : string :=
  pretty x +:+ "_lt_" +:+ pretty y +:+ suffix.

(** The first loop: a phase and a stage variable for every signal, the
    stage of a PI being 0; a gate counts once for each of its fanins. *)
Definition alloc_body (st : list (Z * nat) * list (Z * nat) * gmap Z Z)
    (g : Primitive) : M (list (Z * nat) * list (Z * nat) * gmap Z Z) :=
  let '(S_, Phi, fanout) := st in
  phi ← NewIntVar (fst phi_bounds) (snd phi_bounds) (tag_name "phi_" (sig g));
  match type g with
  | PI =>
      s ← NewIntVar 0 0 (tag_name "S_" (sig g));
      mret (od_set S_ (sig g) s, od_set Phi (sig g) phi, fanout)
  | _ =>
      s ← NewIntVar (fst S_bounds) (snd S_bounds) (tag_name "S_" (sig g));
      mret (od_set S_ (sig g) s, od_set Phi (sig g) phi,
            foldl count_fanout fanout (fanins g))
  end.

Definition alloc (all_signals : list (Z * Primitive))
  : M (list (Z * nat) * list (Z * nat) * gmap Z Z) :=
  for_each (od_values all_signals) alloc_body ([], [], ∅).

Section encode.
Variable all_signals : list (Z * Primitive).
Variable S_ : list (Z * nat).
Variable Phi : list (Z * nat).
Variable fanout : gmap Z Z.

Definition S_at (k : Z) : M nat := lift (od_index S_ k).
Definition Phi_at (k : Z) : M nat := lift (od_index Phi k).

Definition add_fanin_constraints (p g : Primitive) (clocked : bool)
  : M nat :=
  S_eq ← NewBoolVar (pair_name "Same_S_" (sig p) (sig g));
  sg ← S_at (sig g);
  sp ← S_at (sig p);
  Add (Linear (EVar sg) Eq (EVar sp) [Lit S_eq]);;
  Add (Linear (EVar sg) Gt (EVar sp) [NotLit S_eq]);;
  pg ← Phi_at (sig g);
  pp ← Phi_at (sig p);
  (if clocked
   then Add (Linear (EVar pg) Gt (EVar pp) [Lit S_eq])
   else Add (Linear (EVar pg) Ge (EVar pp) [Lit S_eq]));;
  mret S_eq.

(** [𝜑_le(model, a, b)] *)
Definition varphi_le (a b : Primitive) : M nat :=
  Phi_cond ← NewBoolVar (pair_name "Phi_cond_" (sig a) (sig b));
  pa ← Phi_at (sig a);
  pb ← Phi_at (sig b);
  Add (Linear (EVar pa) Le (EVar pb) [Lit Phi_cond]);;
  Add (Linear (EVar pa) Gt (EVar pb) [NotLit Phi_cond]);;
  mret Phi_cond.

(** [𝜑_lt(model, a, b)] *)
Definition varphi_lt (a b : Primitive) : M nat :=
  Phi_cond ← NewBoolVar (pair_name "Phi_cond_" (sig a) (sig b));
  pa ← Phi_at (sig a);
  pb ← Phi_at (sig b);
  Add (Linear (EVar pa) Lt (EVar pb) [Lit Phi_cond]);;
  Add (Linear (EVar pa) Ge (EVar pb) [NotLit Phi_cond]);;
  mret Phi_cond.

Definition phi_lt (p g : Primitive) : M nat :=
  Phi_cond ← NewBoolVar (pair_name "Phi_cond_" (sig p) (sig g));
  pg ← Phi_at (sig g);
  pp ← Phi_at (sig p);
  Add (Linear (EVar pg) Le (EVar pp) [Lit Phi_cond]);;
  Add (Linear (EVar pg) Gt (EVar pp) [NotLit Phi_cond]);;
  mret Phi_cond.

Definition encode_AA (g : Primitive) (ex : list expr) : M (list expr) :=
  match fanins g with
  | [a_sig; b_sig] =>
      a ← lift (od_index all_signals a_sig);
      b ← lift (od_index all_signals b_sig);
      Delta ← NewIntVar (fst S_bounds) (snd S_bounds)
                (pair_name "D_" (sig a) (sig b));
      sa ← S_at (sig a);
      sb ← S_at (sig b);
      Add (Linear (ESub (EVar sa) (EVar sb)) Le (EVar Delta) []);;
      Add (Linear (ESub (EVar sb) (EVar sa)) Le (EVar Delta) []);;
      sg ← S_at (sig g);
      pg ← Phi_at (sig g);
      pa ← Phi_at (sig a);
      pb ← Phi_at (sig b);
      Add (Linear (timing sg pg) Ge (timing sa pa) []);;
      Add (Linear (timing sg pg) Ge (timing sb pb) []);;
      a_is_later ← NewBoolVar (pair_name "fanin_diff_" a_sig b_sig);
      Add (Linear (timing sa pa) Ge (timing sb pb) [Lit a_is_later]);;
      Add (Linear (timing sa pa) Lt (timing sb pb) [NotLit a_is_later]);;
      Add (Linear (EVar sg) Eq (EVar sa) [Lit a_is_later]);;
      Add (Linear (EVar pg) Eq (EVar pa) [Lit a_is_later]);;
      Add (Linear (EVar sg) Eq (EVar sb) [NotLit a_is_later]);;
      Add (Linear (EVar pg) Eq (EVar pb) [NotLit a_is_later]);;
      mret (ex ++ [EVar Delta])
  | _ => raise AssertionError
  end.

Definition encode_AS_edge (g : Primitive) (ex : list expr) (p_sig : Z)
  : M (list expr) :=
  p ← lift (od_index all_signals p_sig);
  Phi_cond ← varphi_le g p;
  _ ← add_fanin_constraints p g true;
  sg ← S_at (sig g);
  if bool_decide (type p = PI)
  then mret (ex ++ [ESub (EVar sg) (EVar Phi_cond)])
  else
    sp ← S_at (sig p);
    mret (ex ++ [ESub (ESub (EVar sg) (EVar sp)) (EVar Phi_cond)]).

Definition encode_AS (g : Primitive) (ex : list expr) : M (list expr) :=
  for_each (fanins g) (encode_AS_edge g) ex.

(** The SA gate [g] on two true AS sources: it stands at the later of
    the two. *)
Definition encode_SA_both (g a b : Primitive) (ex : list expr)
  : M (list expr) :=
  a_lt_b ← NewBoolVar (lt_name (sig a) (sig b) "");
  sa ← S_at (sig a);
  pa ← Phi_at (sig a);
  sb ← S_at (sig b);
  pb ← Phi_at (sig b);
  Add (Linear (timing sa pa) Lt (timing sb pb) [Lit a_lt_b]);;
  sg ← S_at (sig g);
  pg ← Phi_at (sig g);
  Add (Linear (EVar sg) Eq (EVar sb) [Lit a_lt_b]);;
  Add (Linear (EVar pg) Eq (EVar pb) [Lit a_lt_b]);;
  b_le_a ← varphi_le b a;
  Add (Linear (timing sa pa) Ge (timing sb pb) [NotLit a_lt_b]);;
  Add (Linear (EVar sg) Eq (EVar sa) [NotLit a_lt_b]);;
  Add (Linear (EVar pg) Eq (EVar pa) [NotLit a_lt_b]);;
  a_le_b ← varphi_le a b;
  Delta ← NewIntVar (fst S_bounds) (snd S_bounds)
            (pair_name "D_" (sig a) (sig b));
  Add (Linear (ESub (EVar sa) (EVar sb)) Le (EVar Delta) []);;
  Add (Linear (ESub (EVar sb) (EVar sa)) Le (EVar Delta) []);;
  cond_a ← NewBoolVar (pair_name "cond_a_" (sig a) (sig b));
  Add (BoolAnd [Lit b_le_a; Lit a_lt_b] [Lit cond_a]);;
  cond_b ← NewBoolVar (pair_name "cond_b_" (sig a) (sig b));
  Add (BoolAnd [Lit a_le_b; NotLit a_lt_b] [Lit cond_b]);;
  mret (ex ++ [ESub (ESub (EAdd (EVar Delta) (EConst 1)) (EVar cond_b))
                    (EVar cond_a)]).

(** On two fanins of which none is a true AS source: one unit after the
    later of the two. *)
Definition encode_SA_none (g a b : Primitive) (ex : list expr)
  : M (list expr) :=
  a_lt_b ← NewBoolVar (lt_name (sig a) (sig b) "");
  sa ← S_at (sig a);
  pa ← Phi_at (sig a);
  sb ← S_at (sig b);
  pb ← Phi_at (sig b);
  Add (Linear (timing sa pa) Lt (timing sb pb) [Lit a_lt_b]);;
  sg ← S_at (sig g);
  pg ← Phi_at (sig g);
  Add (Linear (timing sg pg) Eq (EAdd (timing sb pb) (EConst 1))
         [Lit a_lt_b]);;
  b_lt_a ← varphi_lt b a;
  Add (Linear (timing sa pa) Ge (timing sb pb) [NotLit a_lt_b]);;
  Add (Linear (timing sg pg) Eq (EAdd (timing sa pa) (EConst 1))
         [NotLit a_lt_b]);;
  a_lt_b_phi ← varphi_lt a b;
  Delta ← NewIntVar (fst S_bounds) (snd S_bounds)
            (pair_name "D_" (sig a) (sig b));
  Add (Linear (ESub (EVar sa) (EVar sb)) Le (EVar Delta) []);;
  Add (Linear (ESub (EVar sb) (EVar sa)) Le (EVar Delta) []);;
  cond_a ← NewBoolVar (pair_name "cond_a_" (sig a) (sig b));
  Add (BoolAnd [Lit b_lt_a; Lit a_lt_b] [Lit cond_a]);;
  Add (BoolOr [NotLit b_lt_a; NotLit a_lt_b] [NotLit cond_a]);;
  cond_b ← NewBoolVar (pair_name "cond_b_" (sig a) (sig b));
  Add (BoolAnd [Lit a_lt_b_phi; NotLit a_lt_b] [Lit cond_b]);;
  Add (BoolOr [NotLit a_lt_b_phi; Lit a_lt_b] [NotLit cond_b]);;
  mret (ex ++ [ESub (ESub (EAdd (EVar Delta) (EConst 2)) (EVar cond_a))
                    (EVar cond_b)]).

(** On a true AS source [a] and a fanin [b] that is not one: one unit
    after [b], or at [a] when [a] is later than that. *)
Definition encode_SA_one (g a b : Primitive) (ex : list expr)
  : M (list expr) :=
  a_lt_b_p1 ← NewBoolVar (lt_name (sig a) (sig b) "_p1");
  sa ← S_at (sig a);
  pa ← Phi_at (sig a);
  sb ← S_at (sig b);
  pb ← Phi_at (sig b);
  Add (Linear (timing sa pa) Lt (EAdd (timing sb pb) (EConst 1))
         [Lit a_lt_b_p1]);;
  Add (Linear (timing sa pa) Ge (EAdd (timing sb pb) (EConst 1))
         [NotLit a_lt_b_p1]);;
  sg ← S_at (sig g);
  pg ← Phi_at (sig g);
  Add (Linear (timing sg pg) Eq (EAdd (timing sb pb) (EConst 1))
         [Lit a_lt_b_p1]);;
  Add (Linear (EVar sg) Eq (EVar sa) [NotLit a_lt_b_p1]);;
  Add (Linear (EVar pg) Eq (EVar pa) [NotLit a_lt_b_p1]);;
  Phi_cond_a ← phi_lt a b;
  Phi_cond_b ← phi_lt b a;
  Delta ← NewIntVar (fst S_bounds) (snd S_bounds)
            (pair_name "D_" (sig a) (sig b));
  Add (Linear (ESub (EVar sa) (EVar sb)) Le (EVar Delta) []);;
  Add (Linear (ESub (EVar sb) (EVar sa)) Le (EVar Delta) []);;
  cond_a ← NewBoolVar (pair_name "cond_a_" (sig a) (sig b));
  Add (BoolAnd [Lit Phi_cond_a; NotLit a_lt_b_p1] [Lit cond_a]);;
  cond_b ← NewBoolVar (pair_name "cond_b_" (sig a) (sig b));
  Add (BoolAnd [Lit Phi_cond_b; Lit a_lt_b_p1] [Lit cond_b]);;
  mret (ex ++ [EAdd (EAdd (ESub (ESub (EVar Delta) (EVar cond_a))
                                (EVar cond_b))
                          (EVar a_lt_b_p1))
                    (EConst 1)]).

(** The SA case: of its four [if] statements one runs, after the two
    fanins are exchanged when only the second is a true AS source. *)
Definition encode_SA (g : Primitive) (ex : list expr) : M (list expr) :=
  match fanins g with
  | [a_sig; b_sig] =>
      a ← lift (od_index all_signals a_sig);
      b ← lift (od_index all_signals b_sig);
      let a_is_true_AS := is_true_AS fanout a in
      let b_is_true_AS := is_true_AS fanout b in
      match a_is_true_AS, b_is_true_AS with
      | true, true => encode_SA_both g a b ex
      | false, false => encode_SA_none g a b ex
      | false, true => encode_SA_one g b a ex
      | true, false => encode_SA_one g a b ex
      end
  | _ => raise AssertionError
  end.

(** One turn of the gate loop; a PI adds nothing. *)
Definition encode_gate (ex : list expr) (g : Primitive) : M (list expr) :=
  match type g with
  | AA => encode_AA g ex
  | AS => encode_AS g ex
  | SA => encode_SA g ex
  | _ => mret ex
  end.
End encode.

(** What the script holds when it calls the solver. *)
Record tables : Type := mkTables {
  t_S : list (Z * nat);
  t_Phi : list (Z * nat);
  t_fanout : gmap Z Z;
  t_expr : list expr
}.

Definition build (all_signals : list (Z * Primitive)) : M tables :=
  '(S_, Phi, fanout) ← alloc all_signals;
  ex ← for_each (od_values all_signals)
         (encode_gate all_signals S_ Phi fanout) [];
  Minimize (py_sum ex);;
  mret (mkTables S_ Phi fanout ex).

(** The model handed to [solver.Solve], from the parsed signals. *)
Definition construct (all_signals : list (Z * Primitive))
  : result (tables * CpModel) :=
  build all_signals empty_model.

End GradualILP.

(** ** [decomposed_ilp_FA.py]: the parser and the first statements of
    [__main__] *)

Module DecomposedFA.

(** The exceptions of this script: those of the other scripts, and the
    [NameError] of a name that is bound nowhere. *)
Inductive exn_FA : Type :=
| Py (e : exn)
| NameError.

Inductive outcome (A : Type) : Type :=
| Returns (a : A)
| Raises (e : exn_FA).
Arguments Returns {A} a.
Arguments Raises {A} e.

#[global] Instance outcome_ret : MRet outcome := fun _ a => Returns a.
#[global] Instance outcome_bind : MBind outcome := fun _ _ f r =>
  match r with Returns a => f a | Raises e => Raises e end.
#[global] Instance outcome_fmap : FMap outcome := fun _ _ f r =>
  match r with Returns a => Returns (f a) | Raises e => Raises e end.

(** The result of a function that the other scripts share. *)
Definition of_result {A} (r : result A) : outcome A :=
  match r with Ok a => Returns a | Raise e => Raises (Py e) end.

Definition TYPES (code : string) : result gate_type :=
  if String.eqb code "0" then Ok PI
  else if String.eqb code "1" then Ok AA
  else if String.eqb code "2" then Ok AS
  else if String.eqb code "3" then Ok SA
  else if String.eqb code "4" then Ok FA
  else Raise KeyError.

Record Primitive : Type := mkPrimitive {
  sig : Z;
  other_sigs : list Z;
  func : Z;
  type : gate_type;
  fanins : list Z;
  fanouts : list Z;
  phase : option Z;
  negated : bool
}.

(** [Primitive.__init__]: its first statement tests [type(sig)], and
    [sig] is no parameter of the constructor (they are [_sig], [_func],
    ...) and no global at the time [parse_specs] runs: the name is only
    bound by the loops at the end of [__main__]. *)
Definition Primitive_init (_sig : Z + list Z) (_func : Z)
    (_type : gate_type) (_fanins _fanouts : list Z) (_phase : option Z)
  : outcome Primitive :=
  Raises NameError.

Section parse.
Variable py_int : string -> result Z.

(** One line: [sig,func,type,fanins,phase,fanouts]. *)
Definition parse_line (items : list (Z * Primitive)) (line : string)
  : outcome (list (Z * Primitive)) :=
  let line := py_strip line in
  match py_split "," line with
  | [_sig_str; _func_str; _type_str; _fanin_str; _gphase_str;
     _fanout_str] =>
      _sig ← (if py_contains "|" _sig_str then
                if negb (String.eqb _type_str "4")
                then Raises (Py AssertionError)
                else inr <$> of_result
                               (parse_ints py_int (py_split_ws _sig_str))
              else
                if String.eqb _type_str "4"
                then Raises (Py AssertionError)
                else inl <$> of_result (py_int _sig_str));
      _func ← of_result (py_int _func_str);
      _gphase ← of_result (py_int _gphase_str);
      _fanins ← of_result
                  (parse_ints py_int
                     (filter nonempty (py_split "|" _fanin_str)));
      _fanouts ← of_result
                   (parse_ints py_int
                      (filter nonempty (py_split "|" _fanout_str)));
      _type ← of_result (TYPES _type_str);
      g ← Primitive_init _sig _func _type _fanins _fanouts (Some _gphase);
      mret (od_set items (sig g) g)
  | _ => Raises (Py ValueError)
  end.

Fixpoint parse_lines (lines : list string) (items : list (Z * Primitive))
  : outcome (list (Z * Primitive)) :=
  match lines with
  | [] => Returns items
  | line :: lines' =>
      items' ← parse_line items line; parse_lines lines' items'
  end.

Definition parse_specs (lines : list string)
  : outcome (list (Z * Primitive)) :=
  parse_lines lines [].

(** [max(...)] of the phases that are not [None]. *)
Definition py_max (xs : list Z) : outcome Z :=
  match xs with
  | [] => Raises (Py ValueError)
  | x :: xs' => Returns (max_list x xs')
  end.

(** [__main__] up to [max_phase], the first statement after the call of
    [parse_specs] that can raise. *)
Definition main_start (lines : list string)
  : outcome (list (Z * Primitive) * Z) :=
  all_signals ← parse_specs lines;
  max_phase ← py_max (omap phase (od_values all_signals));
  mret (all_signals, max_phase).
End parse.

End DecomposedFA.

(** ** [config_solver.py]: what is printed after the solve *)

Module ConfigSolver.

(** The status, then the objective (the test on the status is commented
    out in the script), then the name of every variable whose value is 1;
    [all_vars] is read in the order of [sorted(all_vars.items())]. *)
Definition report (sorted_vars : list (string * nat)) (r : response)
  : list out_line :=
  StatusLine (StatusName (r_status r)) ::
  ObjectiveLine (r_objective r) ::
  omap (fun '(varname, varobj) =>
          if bool_decide (r_values r varobj = 1)
          then Some (NameLine varname) else None)
       sorted_vars.

End ConfigSolver.

(** * Specification *)

(** The predicates in which the properties of the scripts are stated, and
    the inputs they are worked on. *)

(** ** Models that grow *)

(** The model only grows: a variable keeps its index, a constraint stays. *)
Definition extends (m m' : CpModel) : Prop :=
  variables m `prefix_of` variables m' /\
  constraints m `prefix_of` constraints m'.

(** Every successful run of [c] extends the model it starts from. *)
Definition mono {A} (c : M A) : Prop :=
  forall m a m', c m = Ok (a, m') -> extends m m'.

(** The terms of the objective and the model grow together. *)
Definition grows (st st' : list expr * CpModel) : Prop :=
  st.1 `prefix_of` st'.1 /\ extends st.2 st'.2.

(** A builder that raises nothing, from any model. *)
Definition total {A} (c : M A) : Prop :=
  forall m, exists a m', c m = Ok (a, m').

(** ** The allocation of [Sigma] *)

Section alloc_spec.
Context {P : Type} `{Gate P}.
Variable NPH : Z.

(** The variable the first loop creates for a signal. *)
Definition sigma_decl (g : P) : IntVar :=
  match type_of g with
  | PI => mkIntVar 0 (NPH - 1) (tag_name "SIGMA_" (sig_of g))
  | _ => mkIntVar 0 1000 (tag_name "SIGMA_" (sig_of g))
  end.

(** [Sigma] after the loop, the first variable having index [n]. *)
Fixpoint alloc_Sigma (l : list P) (n : nat) (Sigma : list (Z * nat))
  : list (Z * nat) :=
  match l with
  | [] => Sigma
  | g :: l' => alloc_Sigma l' (S n) (od_set Sigma (sig_of g) n)
  end.

Fixpoint alloc_fanout (l : list P) (fanout : gmap Z Z) : gmap Z Z :=
  match l with
  | [] => fanout
  | g :: l' =>
      alloc_fanout l'
        (match type_of g with
         | PI => fanout
         | _ => foldl count_fanout fanout (fanins_of g)
         end)
  end.
End alloc_spec.

(** ** T1 cells *)

Definition min3 (a b c : Z) : Z := Z.min (Z.min a b) c.
Definition max3 (a b c : Z) : Z := Z.max (Z.max a b) c.
(** The script's [ABS_MED]: the sum less the least and the greatest. *)
Definition med3 (a b c : Z) : Z := a + b + c - min3 a b c - max3 a b c.
(** The median of three values, as the middle one. *)
Definition median3 (a b c : Z) : Z := Z.max (Z.min a b) (Z.min (Z.max a b) c).

(** The variables of an encoded T1 cell: the timing variables of the three
    fanins, the cell's timing, the three floor terms and the two flags. *)
Record t1_vars : Type := mkT1 {
  t1_in0 : nat; t1_in1 : nat; t1_in2 : nat;
  t1_T : nat;
  t1_floor_min : nat; t1_floor_med : nat; t1_floor_max : nat;
  t1_min_flag : nat; t1_med_flag : nat
}.

Definition t1_terms (w : t1_vars) : list expr :=
  [EVar (t1_floor_min w); EVar (t1_floor_med w); EVar (t1_floor_max w);
   EVar (t1_min_flag w); EVar (t1_med_flag w)].

(** ** Terms of the objective *)

(** A term of the objective that is a variable whose lower bound is not
    negative. *)
Definition cost_var (m : CpModel) (t : expr) : Prop :=
  exists v d, t = EVar v /\ variables m !! v = Some d /\ 0 <= v_lb d.

(** ** The rules of the AA, AS and SA cases, as statements about the
    model handed to the solver *)

Section rules.
Context {P : Type} `{Gate P}.
Variable NPH : Z.
Variable all_signals : list (Z * P).
Variable b : built.
Variable m : CpModel.

(** The AA gate [g]: in every solution its timing is not before that of
    either fanin, and a term of the objective is the floor division by
    [NPH] of the distance from [ref ta tb] to the output, [ta] and [tb]
    being the timings of the fanins. *)
Definition AA_rule (ref : Z -> Z -> Z) (g : P) : Prop :=
  exists a_sig b_sig a b' vg va vb t,
    fanins_of g = [a_sig; b_sig] /\
    od_get all_signals a_sig = Some a /\
    od_get all_signals b_sig = Some b' /\
    od_get (b_Sigma b) (sig_of g) = Some vg /\
    od_get (b_Sigma b) (sig_of a) = Some va /\
    od_get (b_Sigma b) (sig_of b') = Some vb /\
    t ∈ b_expr b /\
    forall s, feasible s m ->
      s va <= s vg /\ s vb <= s vg /\
      eval s t = (s vg - ref (s va) (s vb)) `div` NPH.

(** The edge from [p_sig] into the AS gate [g]: the fanin is strictly
    earlier, and a term of the objective is the floor division of the
    distance by [NPH]. *)
Definition AS_edge_rule (g : P) (p_sig : Z) : Prop :=
  exists vp vg t,
    od_get (b_Sigma b) p_sig = Some vp /\
    od_get (b_Sigma b) (sig_of g) = Some vg /\
    t ∈ b_expr b /\
    forall s, feasible s m ->
      s vp < s vg /\ eval s t = (s vg - s vp) `div` NPH.

(** The edge from [p_sig] costs a term that the phases of its two ends
    determine. *)
Definition edge_cost_by_phase_only (g : P) (p_sig : Z) : Prop :=
  exists vp vg t,
    od_get (b_Sigma b) p_sig = Some vp /\
    od_get (b_Sigma b) (sig_of g) = Some vg /\
    t ∈ b_expr b /\
    forall s s', feasible s m -> feasible s' m ->
      s vp `mod` NPH = s' vp `mod` NPH ->
      s vg `mod` NPH = s' vg `mod` NPH ->
      eval s t = eval s' t.

(** The number of times [k] is listed as a fanin by the gates. *)
Definition fanout_count (k : Z) : Z :=
  Z.of_nat
    (length
       (filter (fun p => p = k)
          (concat (map fanins_of
             (filter (fun g => type_of g <> PI)
                     (od_values all_signals)))))).

(** The edge from [p_sig] into the SA gate [g]: the fanin is a true AS
    source exactly when it is an AS gate of fanout 1; the constraint
    added for the edge is [<=] for a true AS source and [<] otherwise. *)
Definition SA_edge_rule (g : P) (p_sig : Z) : Prop :=
  exists p vp vg,
    od_get all_signals p_sig = Some p /\
    od_get (b_Sigma b) p_sig = Some vp /\
    od_get (b_Sigma b) (sig_of g) = Some vg /\
    (is_true_AS (b_fanout b) p = true <->
       type_of p = AS /\ fanout_count (sig_of p) = 1) /\
    Linear (EVar vp) (if is_true_AS (b_fanout b) p then Le else Lt)
           (EVar vg) [] ∈ constraints m /\
    forall s, feasible s m ->
      if is_true_AS (b_fanout b) p then s vp <= s vg else s vp < s vg.
End rules.

(** ** The report after the solve call *)

(** A solution exists for the engine's answer: its status is OPTIMAL or
    FEASIBLE. *)
Definition solution_exists (r : response) : Prop :=
  r_status r = OPTIMAL \/ r_status r = FEASIBLE.

(** A line that carries the objective value or a part of the
    assignment. *)
Definition solution_line (l : out_line) : bool :=
  match l with
  | StatusLine _ => false
  | ObjectiveLine _ | ValueLine _ _ | NameLine _ => true
  end.

(** The printed lines tell the statuses apart. *)
Definition status_distinguished (rep : response -> list out_line) : Prop :=
  forall r1 r2, rep r1 = rep r2 -> r_status r1 = r_status r2.

(** The objective and the assignment are printed only for an answer that
    has a solution. *)
Definition solution_only_if_exists (rep : response -> list out_line)
  : Prop :=
  forall r l, l ∈ rep r -> solution_line l = true -> solution_exists r.

Definition report_rule (rep : response -> list out_line) : Prop :=
  status_distinguished rep /\ solution_only_if_exists rep.

(** An answer without a solution, as the engine leaves it. *)
Definition infeasible_response : response :=
  mkResponse INFEASIBLE 0 (assign []).

(** ** [phase_assignment.py] *)

Module PhaseAssignmentSpec.
Import PhaseAssignment.

Section t1_spec.
Variable NPH : Z.
Variable all_signals : list (Z * Primitive).
Variable all_t1_cells : list t1_cell.
Variable Sigma : list (Z * nat).

(** The unit added to the timing of a fanin of a T1 cell. *)
Definition eff_incr (p_sig : Z) (neg : option bool) : Z :=
  match neg, od_get all_signals p_sig with
  | Some n, Some p => if t1_delayed p n then 1 else 0
  | _, _ => 0
  end.

(** What a solution satisfies once a cell is encoded, in terms of the
    fanins' timings [a0 a1 a2] with their units added. *)
Definition t1_solution (s : assignment) (w : t1_vars) (a0 a1 a2 : Z)
  : Prop :=
  let T := s (t1_T w) in
  let MIN := min3 a0 a1 a2 in
  let MED := med3 a0 a1 a2 in
  let MAX := max3 a0 a1 a2 in
  0 < NPH /\
  T > MIN + 2 /\ T > MED + 1 /\ T > MAX /\
  s (t1_floor_min w) = (T - MIN - 1) `div` NPH /\
  s (t1_floor_med w) = (T - MED - 1) `div` NPH /\
  s (t1_floor_max w) = (T - MAX - 1) `div` NPH /\
  (s (t1_min_flag w) = 1 ->
     (MED - MIN) `mod` NPH = 0 /\ (T - MIN - 1) `div` NPH = 0) /\
  (s (t1_med_flag w) = 1 ->
     (MAX - MED) `mod` NPH = 0 /\ (T - MED - 1) `div` NPH = 0).

Definition grows2 (st st' : (list expr * list Z) * CpModel) : Prop :=
  st.1.1 `prefix_of` st'.1.1 /\ st.1.2 `prefix_of` st'.1.2 /\
  extends st.2 st'.2.

(** The cell [cell] was encoded at its member [g0], with the variables
    [w]: the facts the model [m] and the terms [ex] then hold. *)
Definition t1_encoded (g0 : Primitive) (cell : t1_cell) (w : t1_vars)
    (ex : list expr) (m : CpModel) : Prop :=
  g0 ∈ od_values all_signals /\ type g0 = FA /\
  cell ∈ all_t1_cells /\ sig g0 ∈ od_values cell /\
  (exists f0 f1 f2,
     fanins g0 = [f0; f1; f2] /\
     od_get Sigma f0 = Some (t1_in0 w) /\
     od_get Sigma f1 = Some (t1_in1 w) /\
     od_get Sigma f2 = Some (t1_in2 w) /\
     forall s M, extends m M -> feasible s M ->
       t1_solution s w
         (s (t1_in0 w) + eff_incr f0 (in_neg g0 !! 0%nat))
         (s (t1_in1 w) + eff_incr f1 (in_neg g0 !! 1%nat))
         (s (t1_in2 w) + eff_incr f2 (in_neg g0 !! 2%nat))) /\
  (forall k, k ∈ od_values cell ->
     exists v, od_get Sigma k = Some v /\
               Linear (EVar v) Eq (EVar (t1_T w)) [] ∈ constraints m) /\
  (forall t, t ∈ t1_terms w -> t ∈ ex) /\
  Forall (cost_var m) (t1_terms w).

(** Every signal recorded as processed belongs to an encoded cell. *)
Definition processed_inv (st : list expr * list Z) (m : CpModel) : Prop :=
  forall k, k ∈ st.2 ->
    exists g0 cell w, k ∈ od_values cell /\ t1_encoded g0 cell w st.1 m.
End t1_spec.

(** The tables and the model after the first loop. *)
Section construct_spec.
Variable NPH : Z.
Variable all_signals : list (Z * Primitive).

Definition Sigma0 : list (Z * nat) :=
  alloc_Sigma (od_values all_signals) 0 [].
Definition fanout0 : gmap Z Z := alloc_fanout (od_values all_signals) ∅.
Definition model0 : CpModel :=
  mkCpModel (map (sigma_decl NPH) (od_values all_signals)) [] None.
End construct_spec.

(** The data model's conditions on the parsed tables: the ids of the
    signals are distinct and each signal is stored under its id; a cell
    has an XOR output; the outputs of a cell are FA signals with the
    cell's fanins and negation marks; no id is an output of two cells. *)
Definition t1_groups_wf (all_signals : list (Z * Primitive))
    (all_t1_cells : list t1_cell) : Prop :=
  NoDup (od_keys all_signals) /\
  (forall k g, (k, g) ∈ all_signals -> sig g = k) /\
  (forall c, c ∈ all_t1_cells ->
     is_Some (od_get c "XOR") /\
     exists F N, forall k, k ∈ od_values c ->
       exists g, od_get all_signals k = Some g /\ type g = FA /\
                 fanins g = F /\ in_neg g = N) /\
  (forall c1 c2 k, c1 ∈ all_t1_cells -> c2 ∈ all_t1_cells ->
     k ∈ od_values c1 -> k ∈ od_values c2 -> c1 = c2).

(** The variables that the turn of the gate loop on [g] declares, a T1
    output apart: [max_] and [div_] for an AA gate, [delta_] and [div_]
    for every fanin of an AS or SA gate, none for a PI. *)
Definition gate_variables (g : Primitive) : nat :=
  match type g with
  | AA => 2
  | AS | SA => 2 * length (fanins g)
  | PI | FA => 0
  end.

(** The number of variables of the model of a signal graph, read off the
    graph (the phase count plays no part): a timing variable for every
    signal, the variables of the gates, and the 18 variables of every T1
    cell. *)
Definition variable_count (all_signals : list (Z * Primitive))
    (all_t1_cells : list t1_cell) : nat :=
  length all_signals +
  sum_list (map gate_variables (od_values all_signals)) +
  18 * length (remove_dups all_t1_cells).


(** A phase count the engine takes.  The script hands [NPH] and
    [NPH - 1] to the engine, as a bound of the timing variable of a PI
    and as a constant of the constraints; the engine holds signed 64-bit
    integers and ends a call with a larger Python integer by a
    [TypeError], which [NewIntVar] and [Add] here do not model. *)
Definition phase_count_ok (NPH : Z) : Prop := 0 < NPH < 2 ^ 63.

(** The timing rule of a cell whose XOR output is the signal [x], with
    fanins [F] read with the negation marks [N]. *)
Definition t1_timing_rule (all_signals : list (Z * Primitive))
    (b : built) (m : CpModel) (cell : t1_cell) (x : Z)
    (F : list Z) (N : list bool) : Prop :=
  exists f0 f1 f2 v0 v1 v2 vx,
    F = [f0; f1; f2] /\
    od_get (b_Sigma b) f0 = Some v0 /\
    od_get (b_Sigma b) f1 = Some v1 /\
    od_get (b_Sigma b) f2 = Some v2 /\
    od_get (b_Sigma b) x = Some vx /\
    forall s, feasible s m ->
      let a0 := s v0 + eff_incr all_signals f0 (N !! 0%nat) in
      let a1 := s v1 + eff_incr all_signals f1 (N !! 1%nat) in
      let a2 := s v2 + eff_incr all_signals f2 (N !! 2%nat) in
      (forall k, k ∈ od_values cell ->
         exists v, od_get (b_Sigma b) k = Some v /\ s v = s vx) /\
      s vx > min3 a0 a1 a2 + 2 /\
      s vx > median3 a0 a1 a2 + 1 /\
      s vx > max3 a0 a1 a2.


(** What the parser keeps true of [items]: distinct ids, each signal
    stored under its id, and no typed gate without fanins. *)
Definition items_wf (items : list (Z * Primitive)) : Prop :=
  NoDup (od_keys items) /\
  forall k g, (k, g) ∈ items ->
    sig g = k /\ (fanins g = [] -> type g = PI).

(** A signal with no fanins, whatever type its line declares, comes out
    of the parser as a PI: [phase_assignment.py] gives it a timing
    variable with bounds [0, NPH - 1], and the gate loop passes over it
    instead of rejecting it. *)
Definition treated_as_PI (NPH : Z) (all_signals : list (Z * Primitive))
    (g : Primitive) : Prop :=
  type g = PI /\
  (exists Sigma fanout m0 v d,
     alloc NPH all_signals empty_model = Ok ((Sigma, fanout), m0) /\
     od_get Sigma (sig g) = Some v /\
     variables m0 !! v = Some d /\ v_lb d = 0 /\ v_ub d = NPH - 1) /\
  (forall all_t1_cells Sigma fanout st m,
     encode_gate NPH all_signals all_t1_cells Sigma fanout st g m
     = Ok (st, m)).

(** *** The parsed tables and the timing variables *)

(** Every cell the parser keeps has an XOR output, and every output of a
    cell is an id of the signal table. *)
Definition cells_wf (items : list (Z * Primitive)) (cells : list t1_cell)
  : Prop :=
  forall c, c ∈ cells ->
    is_Some (od_get c "XOR") /\
    forall k, k ∈ od_values c -> k ∈ od_keys items.

(** The signal [g] has a timing variable, named after its id, with the
    bounds of its type. *)
Definition sigma_declared (NPH : Z) (b : built) (m : CpModel)
    (g : Primitive) : Prop :=
  exists v d,
    od_get (b_Sigma b) (sig g) = Some v /\
    variables m !! v = Some d /\
    v_name d = tag_name "SIGMA_" (sig g) /\
    v_lb d = 0 /\
    v_ub d = match type g with PI => NPH - 1 | _ => 1000 end.

(** The lines of the report of an answer with a solution: the status,
    the objective, and for every id of [Sigma], in its order, the id and
    the value of its timing variable. *)
Definition report_lines (b : built) (r : response) : list out_line :=
  StatusLine (StatusName (r_status r)) ::
  ObjectiveLine (r_objective r) ::
  map (fun '(k, v) => ValueLine (pretty k) (r_values r v)) (b_Sigma b).

(** The order the AA, AS and SA gates force on the timings of two ids,
    strict or not: a fanin of an AA gate and a true AS source of an SA
    gate may share the timing of the gate, every other fanin is strictly
    earlier. *)
Inductive precedes (all_signals : list (Z * Primitive)) (fanout : gmap Z Z)
  : bool -> Z -> Z -> Prop :=
| precedes_AA g a_sig a :
    g ∈ od_values all_signals -> type g = AA -> a_sig ∈ fanins g ->
    od_get all_signals a_sig = Some a ->
    precedes all_signals fanout false (sig a) (sig g)
| precedes_AS g p_sig :
    g ∈ od_values all_signals -> type g = AS -> p_sig ∈ fanins g ->
    precedes all_signals fanout true p_sig (sig g)
| precedes_SA g p_sig p :
    g ∈ od_values all_signals -> type g = SA -> p_sig ∈ fanins g ->
    od_get all_signals p_sig = Some p ->
    precedes all_signals fanout (negb (is_true_AS fanout p)) p_sig (sig g)
| precedes_trans st1 st2 k1 k2 k3 :
    precedes all_signals fanout st1 k1 k2 ->
    precedes all_signals fanout st2 k2 k3 ->
    precedes all_signals fanout (st1 || st2) k1 k3.

(** The edge from [p_sig] into the SA gate [g] costs the timing
    difference divided by [NPH] and rounded up. *)
Definition SA_edge_cost_rule (NPH : Z) (b : built) (m : CpModel)
    (g : Primitive) (p_sig : Z) : Prop :=
  exists vp vg t,
    od_get (b_Sigma b) p_sig = Some vp /\
    od_get (b_Sigma b) (sig g) = Some vg /\
    t ∈ b_expr b /\
    forall s, feasible s m ->
      eval s t = (s vg - s vp + NPH - 1) `div` NPH /\
      NPH * (eval s t - 1) < s vg - s vp <= NPH * eval s t.

(** The T1 output [g] has a timing variable that no solution puts before
    timing 3. *)
Definition T1_output_late (b : built) (m : CpModel) (g : Primitive)
  : Prop :=
  exists v,
    od_get (b_Sigma b) (sig g) = Some v /\
    forall s, feasible s m -> 3 <= s v.

(** What a gate of a table must satisfy for the construction to pass it:
    the ids it names resolve, and a T1 output is listed in a cell. *)
Definition gate_checked (all_signals : list (Z * Primitive))
    (all_t1_cells : list t1_cell) (g : Primitive) : Prop :=
  match type g with
  | PI => True
  | AA => exists a_sig b_sig,
            fanins g = [a_sig; b_sig] /\
            a_sig ∈ od_keys all_signals /\ b_sig ∈ od_keys all_signals
  | AS | SA => forall p, p ∈ fanins g -> p ∈ od_keys all_signals
  | FA => exists cell, cell ∈ all_t1_cells /\ sig g ∈ od_values cell
  end.

(** *** Tables the construction accepts *)

Section resolved.
Variable all_signals : list (Z * Primitive).
Variable all_t1_cells : list t1_cell.

(** A gate whose references resolve. *)
Definition gate_resolved (g : Primitive) : Prop :=
  match type g with
  | PI => True
  | AA => exists a_sig b_sig,
            fanins g = [a_sig; b_sig] /\
            a_sig ∈ od_keys all_signals /\ b_sig ∈ od_keys all_signals
  | AS | SA => forall p, p ∈ fanins g -> p ∈ od_keys all_signals
  | FA => (exists cell, cell ∈ all_t1_cells /\ sig g ∈ od_values cell) /\
          (exists f0 f1 f2, fanins g = [f0; f1; f2]) /\
          (forall p, p ∈ fanins g -> p ∈ od_keys all_signals) /\
          (forall c k, c ∈ all_t1_cells -> k ∈ od_values c ->
                       k ∈ od_keys all_signals)
  end.
End resolved.

(** The references of a signal table resolve: every signal is stored
    under its id, an AA gate has two fanins and a T1 output three, a T1
    output is listed in a cell, and every id named as a fanin or as an
    output of a cell is an id of the table. *)
Definition references_resolve (all_signals : list (Z * Primitive))
    (all_t1_cells : list t1_cell) : Prop :=
  (forall k g, (k, g) ∈ all_signals -> sig g = k) /\
  forall g, g ∈ od_values all_signals ->
    gate_resolved all_signals all_t1_cells g.

(** The same, as a check that runs. *)
Definition gate_resolvedb (all_signals : list (Z * Primitive))
    (all_t1_cells : list t1_cell) (g : Primitive) : bool :=
  let known p := bool_decide (p ∈ od_keys all_signals) in
  match type g with
  | PI => true
  | AA => match fanins g with
          | [a_sig; b_sig] => known a_sig && known b_sig
          | _ => false
          end
  | AS | SA => forallb known (fanins g)
  | FA => existsb (fun cell => bool_decide (sig g ∈ od_values cell))
            all_t1_cells &&
          match fanins g with [_; _; _] => true | _ => false end &&
          forallb known (fanins g) &&
          forallb (fun c => forallb known (od_values c)) all_t1_cells
  end.

Definition references_resolveb (all_signals : list (Z * Primitive))
    (all_t1_cells : list t1_cell) : bool :=
  forallb (fun '(k, g) => bool_decide (sig g = k) &&
                          gate_resolvedb all_signals all_t1_cells g)
          all_signals.

(** A signal reaches another through one or more fanin references. *)
Inductive reaches (all_signals : list (Z * Primitive)) : Z -> Z -> Prop :=
| reaches_fanin k g p :
    od_get all_signals k = Some g -> p ∈ fanins g ->
    reaches all_signals k p
| reaches_trans k p q :
    reaches all_signals k p -> reaches all_signals p q ->
    reaches all_signals k q.

Definition cyclic (all_signals : list (Z * Primitive)) : Prop :=
  exists k, reaches all_signals k k.

(** The construction ends with an exception on a cyclic table. *)
Definition cycle_rejected (NPH : Z) (all_signals : list (Z * Primitive))
    (all_t1_cells : list t1_cell) : Prop :=
  cyclic all_signals ->
  exists e, construct NPH all_signals all_t1_cells = Raise e.

(** *** Worked inputs *)

(** The model and the script's tables for the lines of a file, when the
    script reaches the solver. *)
Definition run_lines (NPH : Z) (lines : list string)
  : option (list (Z * Primitive) * list t1_cell * built * CpModel) :=
  match parse_specs dec_int lines with
  | Ok (sigs, cells) =>
      match construct NPH sigs cells with
      | Ok (b, m) => Some (sigs, cells, b, m)
      | Raise _ => None
      end
  | Raise _ => None
  end.

(** Two PIs and an AA gate that joins them. *)
Definition aa_lines : list string := ["PI,1,2"; "3,1,1|2"].
Definition aa_sigs : list (Z * Primitive) :=
  [(1, mkPrimitive 1 PI [] []); (2, mkPrimitive 2 PI [] []);
   (3, mkPrimitive 3 AA [1; 2] [])].
Definition aa_gate : Primitive := mkPrimitive 3 AA [1; 2] [].
Definition aa_built : built :=
  Eval vm_compute in
    match construct 2 aa_sigs [] with
    | Ok (b, _) => b
    | Raise _ => mkBuilt [] ∅ []
    end.
Definition aa_model : CpModel :=
  Eval vm_compute in
    match construct 2 aa_sigs [] with
    | Ok (_, m) => m
    | Raise _ => empty_model
    end.

(** The PIs at 0 and 1, the gate at 2. *)
Definition aa_solution : assignment := assign [0; 1; 2; 2; 1].

(** A PI, and an AS gate that reads it. *)
Definition as_sigs : list (Z * Primitive) :=
  [(1, mkPrimitive 1 PI [] []); (2, mkPrimitive 2 AS [1] [])].
Definition as_gate : Primitive := mkPrimitive 2 AS [1] [].
Definition as_built : built :=
  Eval vm_compute in
    match construct 2 as_sigs [] with
    | Ok (b, _) => b
    | Raise _ => mkBuilt [] ∅ []
    end.
Definition as_model : CpModel :=
  Eval vm_compute in
    match construct 2 as_sigs [] with
    | Ok (_, m) => m
    | Raise _ => empty_model
    end.

(** The PI at 0 and the gate at 2, then at 4: the same phases, one
    clock cycle apart. *)
Definition as_solution_2 : assignment := assign [0; 2; 2; 1].
Definition as_solution_4 : assignment := assign [0; 4; 4; 2].

(** Two PIs, an AS gate on each, and an SA gate that reads the two AS
    gates (the scenario of the specification, with two phases). *)
Definition sa_sigs : list (Z * Primitive) :=
  [(1, mkPrimitive 1 PI [] []); (2, mkPrimitive 2 PI [] []);
   (3, mkPrimitive 3 AS [1] []); (4, mkPrimitive 4 AS [2] []);
   (5, mkPrimitive 5 SA [3; 4] [])].
Definition sa_gate : Primitive := mkPrimitive 5 SA [3; 4] [].
Definition sa_built : built :=
  Eval vm_compute in
    match construct 2 sa_sigs [] with
    | Ok (b, _) => b
    | Raise _ => mkBuilt [] ∅ []
    end.
Definition sa_model : CpModel :=
  Eval vm_compute in
    match construct 2 sa_sigs [] with
    | Ok (_, m) => m
    | Raise _ => empty_model
    end.

(** Both AS gates of the example are true AS sources, and the SA gate can
    stand at their timing: the solution below puts the three at 1 and
    costs nothing. *)
Definition sa_solution : assignment :=
  assign [0; 0; 1; 1; 1; 1; 0; 1; 0; 1; 0; 1; 0].


(** Two PIs, an AA gate that joins them, and a T1 cell with outputs 4 (XOR)
    and 5 (MAJ) reading the first PI negated, the AA gate and the second
    PI; four phases. *)
Definition t1_sigs : list (Z * Primitive) :=
  [(1, mkPrimitive 1 PI [] []); (2, mkPrimitive 2 PI [] []);
   (3, mkPrimitive 3 AA [1; 2] []);
   (4, mkPrimitive 4 FA [1; 3; 2] [true; false; false]);
   (5, mkPrimitive 5 FA [1; 3; 2] [true; false; false])].
Definition t1_example_cell : t1_cell := [("XOR", 4); ("MAJ", 5)].
Definition t1_xor : Primitive :=
  mkPrimitive 4 FA [1; 3; 2] [true; false; false].
Definition t1_built : built :=
  Eval vm_compute in
    match construct 4 t1_sigs [t1_example_cell] with
    | Ok (b, _) => b
    | Raise _ => mkBuilt [] ∅ []
    end.
Definition t1_model : CpModel :=
  Eval vm_compute in
    match construct 4 t1_sigs [t1_example_cell] with
    | Ok (_, m) => m
    | Raise _ => empty_model
    end.


(** A PI, and a line that declares an AS gate with no fanin. *)
Definition bare_gate_lines : list string := ["PI,1"; "2,2,"].

(** Two AS gates that read each other, after a PI. *)
Definition cyc_lines : list string := ["PI,1"; "2,2,3"; "3,2,2"].
Definition cyc_sigs : list (Z * Primitive) :=
  [(1, mkPrimitive 1 PI [] []); (2, mkPrimitive 2 AS [3] []);
   (3, mkPrimitive 3 AS [2] [])].
Definition cyc_built : built :=
  Eval vm_compute in
    match construct 2 cyc_sigs [] with
    | Ok (b, _) => b
    | Raise _ => mkBuilt [] ∅ []
    end.
Definition cyc_model : CpModel :=
  Eval vm_compute in
    match construct 2 cyc_sigs [] with
    | Ok (_, m) => m
    | Raise _ => empty_model
    end.

End PhaseAssignmentSpec.

(** ** [decomposed_ilp_max.py] *)

Module DecomposedMaxSpec.
Import DecomposedMax.

(** The table and the model for the lines of a file, when the script
    reaches the solver. *)
Definition run_lines (NPH : Z) (lines : list string)
  : option (list (Z * Primitive) * built * CpModel) :=
  match parse_specs dec_int lines with
  | Ok sigs =>
      match construct NPH sigs with
      | Ok (b, m) => Some (sigs, b, m)
      | Raise _ => None
      end
  | Raise _ => None
  end.

(** Two PIs and an AA gate that joins them. *)
Definition aa_lines : list string := ["1,0,,3"; "2,0,,3"; "3,1,1|2,"].
Definition aa_sigs : list (Z * Primitive) :=
  [(1, mkPrimitive 1 PI [] [3]); (2, mkPrimitive 2 PI [] [3]);
   (3, mkPrimitive 3 AA [1; 2] [])].
Definition aa_gate : Primitive := mkPrimitive 3 AA [1; 2] [].
Definition aa_built : built :=
  Eval vm_compute in
    match construct 2 aa_sigs with
    | Ok (b, _) => b
    | Raise _ => mkBuilt [] ∅ []
    end.
Definition aa_model : CpModel :=
  Eval vm_compute in
    match construct 2 aa_sigs with
    | Ok (_, m) => m
    | Raise _ => empty_model
    end.

(** A PI, and an AS gate that reads it. *)
Definition as_lines : list string := ["1,0,,2"; "2,2,1,"].
Definition as_sigs : list (Z * Primitive) :=
  [(1, mkPrimitive 1 PI [] [2]); (2, mkPrimitive 2 AS [1] [])].
Definition as_gate : Primitive := mkPrimitive 2 AS [1] [].
Definition as_built : built :=
  Eval vm_compute in
    match construct 2 as_sigs with
    | Ok (b, _) => b
    | Raise _ => mkBuilt [] ∅ []
    end.
Definition as_model : CpModel :=
  Eval vm_compute in
    match construct 2 as_sigs with
    | Ok (_, m) => m
    | Raise _ => empty_model
    end.

(** The PI at 0 and the gate at 2, then at 4: the same phases, one
    clock cycle apart. *)
Definition as_solution_2 : assignment := assign [0; 2; 2; 1].
Definition as_solution_4 : assignment := assign [0; 4; 4; 2].

(** Two PIs, an AS gate on each, and an SA gate that reads the two AS
    gates. *)
Definition sa_lines : list string :=
  ["1,0,,3"; "2,0,,4"; "3,2,1,5"; "4,2,2,5"; "5,3,3|4,"].
Definition sa_sigs : list (Z * Primitive) :=
  [(1, mkPrimitive 1 PI [] [3]); (2, mkPrimitive 2 PI [] [4]);
   (3, mkPrimitive 3 AS [1] [5]); (4, mkPrimitive 4 AS [2] [5]);
   (5, mkPrimitive 5 SA [3; 4] [])].
Definition sa_gate : Primitive := mkPrimitive 5 SA [3; 4] [].
Definition sa_built : built :=
  Eval vm_compute in
    match construct 2 sa_sigs with
    | Ok (b, _) => b
    | Raise _ => mkBuilt [] ∅ []
    end.
Definition sa_model : CpModel :=
  Eval vm_compute in
    match construct 2 sa_sigs with
    | Ok (_, m) => m
    | Raise _ => empty_model
    end.

(** The table of signals has distinct ids, and each signal is stored
    under its id. *)
Definition table_wf (items : list (Z * Primitive)) : Prop :=
  NoDup (od_keys items) /\
  forall k g, (k, g) ∈ items -> sig g = k.

End DecomposedMaxSpec.

(** ** [Gradual_ILP.py] *)

Module GradualILPSpec.
Import GradualILP.

(** The timing of a signal in a solution, from its stage and its phase
    variable. *)
Definition timing_at (s : assignment) (vS vPhi : nat) : Z :=
  NPH * s vS + s vPhi.

(** Every variable that a dictionary holds is declared within
    [[lb, ub]]. *)
Definition dict_bounded (d : list (Z * nat)) (m : CpModel) (lb ub : Z)
  : Prop :=
  forall k v, od_get d k = Some v ->
    exists dcl, variables m !! v = Some dcl /\ lb <= v_lb dcl /\ v_ub dcl <= ub.

(** A term of the objective that is not negative in any solution. *)
Definition term_nonneg (m : CpModel) (t : expr) : Prop :=
  forall s M, extends m M -> feasible s M -> 0 <= eval s t.

(** The edge from [p_sig] into the AS gate [g]: the fanin is strictly
    earlier, and a term of the objective is the stage of the gate, less
    the stage of the fanin unless it is a PI, less one when the phase of
    the gate is not after that of the fanin; for a fanin that is not a PI
    this is the floor division by [NPH] of the timing difference less
    one. *)
Definition AS_edge_rule (all_signals : list (Z * Primitive)) (b : tables)
    (m : CpModel) (g : Primitive) (p_sig : Z) : Prop :=
  exists p sg pg sp pp t,
    od_get all_signals p_sig = Some p /\
    od_get (t_S b) (sig g) = Some sg /\
    od_get (t_Phi b) (sig g) = Some pg /\
    od_get (t_S b) (sig p) = Some sp /\
    od_get (t_Phi b) (sig p) = Some pp /\
    t ∈ t_expr b /\
    forall s, feasible s m ->
      timing_at s sp pp < timing_at s sg pg /\
      eval s t =
        (if bool_decide (type p = PI) then s sg else s sg - s sp) -
        (if bool_decide (s pg <= s pp) then 1 else 0) /\
      (type p <> PI ->
       eval s t = (timing_at s sg pg - timing_at s sp pp - 1) `div` NPH).

(** The AA gate [g]: it stands at the later of its two fanins, and a
    term of the objective is at least the distance between the stages of
    the two. *)
Definition AA_rule (all_signals : list (Z * Primitive)) (b : tables)
    (m : CpModel) (g : Primitive) : Prop :=
  exists a_sig b_sig a b' sg pg sa pa sb pb t,
    fanins g = [a_sig; b_sig] /\
    od_get all_signals a_sig = Some a /\
    od_get all_signals b_sig = Some b' /\
    od_get (t_S b) (sig g) = Some sg /\
    od_get (t_Phi b) (sig g) = Some pg /\
    od_get (t_S b) (sig a) = Some sa /\
    od_get (t_Phi b) (sig a) = Some pa /\
    od_get (t_S b) (sig b') = Some sb /\
    od_get (t_Phi b) (sig b') = Some pb /\
    t ∈ t_expr b /\
    forall s, feasible s m ->
      timing_at s sg pg = Z.max (timing_at s sa pa) (timing_at s sb pb) /\
      Z.abs (s sa - s sb) <= eval s t.

(** The SA gate [g] and its two fanins: a fanin is a true AS source
    exactly when it is an AS gate of fanout 1; a true AS source is not
    later than the gate, any other fanin is strictly earlier. *)
Definition SA_rule (all_signals : list (Z * Primitive)) (b : tables)
    (m : CpModel) (g : Primitive) : Prop :=
  exists a_sig b_sig a b' sg pg sa pa sb pb,
    fanins g = [a_sig; b_sig] /\
    od_get all_signals a_sig = Some a /\
    od_get all_signals b_sig = Some b' /\
    od_get (t_S b) (sig g) = Some sg /\
    od_get (t_Phi b) (sig g) = Some pg /\
    od_get (t_S b) (sig a) = Some sa /\
    od_get (t_Phi b) (sig a) = Some pa /\
    od_get (t_S b) (sig b') = Some sb /\
    od_get (t_Phi b) (sig b') = Some pb /\
    (is_true_AS (t_fanout b) a = true <->
       type a = AS /\ fanout_count all_signals (sig a) = 1) /\
    (is_true_AS (t_fanout b) b' = true <->
       type b' = AS /\ fanout_count all_signals (sig b') = 1) /\
    forall s, feasible s m ->
      (if is_true_AS (t_fanout b) a
       then timing_at s sa pa <= timing_at s sg pg
       else timing_at s sa pa < timing_at s sg pg) /\
      (if is_true_AS (t_fanout b) b'
       then timing_at s sb pb <= timing_at s sg pg
       else timing_at s sb pb < timing_at s sg pg) /\
      timing_at s sg pg =
        Z.max
          (timing_at s sa pa + (if is_true_AS (t_fanout b) a then 0 else 1))
          (timing_at s sb pb + (if is_true_AS (t_fanout b) b' then 0 else 1)).

(** A table as the dict of [parse_specs] holds it: the ids are distinct,
    and a signal is stored under its own id. *)
Definition table_wf (items : list (Z * Primitive)) : Prop :=
  NoDup (od_keys items) /\
  forall k g, (k, g) ∈ items -> sig g = k.

(** [S] and [Phi] hold for [g] two variables of the model, declared
    as the first loop declares them. *)
Definition declared (S_ Phi : list (Z * nat)) (m : CpModel) (g : Primitive)
  : Prop :=
  exists vS vPhi dS dPhi,
    od_get S_ (sig g) = Some vS /\
    od_get Phi (sig g) = Some vPhi /\
    variables m !! vS = Some dS /\
    variables m !! vPhi = Some dPhi /\
    v_lb dS = 0 /\
    v_ub dS = match type g with PI => 0 | _ => 1000 end /\
    v_lb dPhi = 0 /\ v_ub dPhi = NPH - 1.

(** The stage and the phase of [g] in a solution: the phase is one of
    the [NPH] phases, the stage lies in [[0, 1000]], and a PI is at
    stage 0. *)
Definition stage_phase_rule (b : tables) (m : CpModel) (g : Primitive)
  : Prop :=
  exists vS vPhi,
    od_get (t_S b) (sig g) = Some vS /\
    od_get (t_Phi b) (sig g) = Some vPhi /\
    forall s, feasible s m ->
      0 <= s vPhi < NPH /\ 0 <= s vS <= 1000 /\
      (type g = PI -> s vS = 0).

(** *** Worked inputs *)

Definition run_lines (lines : list string)
  : option (list (Z * Primitive) * tables * CpModel) :=
  match parse_specs dec_int lines with
  | Ok sigs =>
      match construct sigs with
      | Ok (b, m) => Some (sigs, b, m)
      | Raise _ => None
      end
  | Raise _ => None
  end.

Definition LF : string := String (ascii_of_nat 10) EmptyString.

(** A PI, and an AS gate that reads it. *)
Definition as_lines : list string := ["PI 1" +:+ LF; "2,0,1,1" +:+ LF].
Definition as_sigs : list (Z * Primitive) :=
  [(1, mkPrimitive 1 43690 PI []); (2, mkPrimitive 2 0 AS [1])].
Definition as_gate : Primitive := mkPrimitive 2 0 AS [1].
Definition as_tables : tables :=
  Eval vm_compute in
    match construct as_sigs with
    | Ok (b, _) => b
    | Raise _ => mkTables [] [] ∅ []
    end.
Definition as_model : CpModel :=
  Eval vm_compute in
    match construct as_sigs with
    | Ok (_, m) => m
    | Raise _ => empty_model
    end.

(** The PI at stage 0 and phase 0, the gate one clock cycle later at the
    same phase: the timing difference is [NPH], [Phi_cond] is raised and
    the edge costs nothing. *)
Definition as_solution : assignment := assign [0; 0; 0; 1; 1; 0].

(** Two PIs and an AA gate that joins them. *)
Definition aa_lines : list string :=
  ["PI 1" +:+ LF; "PI 2" +:+ LF; "3,0,0,1|2" +:+ LF].
Definition aa_sigs : list (Z * Primitive) :=
  [(1, mkPrimitive 1 43690 PI []); (2, mkPrimitive 2 43690 PI []);
   (3, mkPrimitive 3 0 AA [1; 2])].
Definition aa_gate : Primitive := mkPrimitive 3 0 AA [1; 2].
Definition aa_tables : tables :=
  Eval vm_compute in
    match construct aa_sigs with
    | Ok (b, _) => b
    | Raise _ => mkTables [] [] ∅ []
    end.
Definition aa_model : CpModel :=
  Eval vm_compute in
    match construct aa_sigs with
    | Ok (_, m) => m
    | Raise _ => empty_model
    end.

(** Two PIs, an AS gate on each, and an SA gate that reads the two AS
    gates. *)
Definition sa_lines : list string :=
  ["PI 1" +:+ LF; "PI 2" +:+ LF; "3,0,1,1" +:+ LF; "4,0,1,2" +:+ LF;
   "5,0,2,3|4" +:+ LF].
Definition sa_sigs : list (Z * Primitive) :=
  [(1, mkPrimitive 1 43690 PI []); (2, mkPrimitive 2 43690 PI []);
   (3, mkPrimitive 3 0 AS [1]); (4, mkPrimitive 4 0 AS [2]);
   (5, mkPrimitive 5 0 SA [3; 4])].
Definition sa_gate : Primitive := mkPrimitive 5 0 SA [3; 4].
Definition sa_tables : tables :=
  Eval vm_compute in
    match construct sa_sigs with
    | Ok (b, _) => b
    | Raise _ => mkTables [] [] ∅ []
    end.
Definition sa_model : CpModel :=
  Eval vm_compute in
    match construct sa_sigs with
    | Ok (_, m) => m
    | Raise _ => empty_model
    end.

(** The PIs at phase 0, the two AS gates at phase 1 of the same stage,
    and the SA gate with them. *)
Definition sa_solution : assignment :=
  assign [0; 0; 0; 0; 1; 0; 1; 0; 1; 0; 0; 1; 0; 1; 0; 1; 1; 0; 0; 1].

End GradualILPSpec.

(** * Properties *)

(** ** Dictionaries *)

Section odict_facts.
Context {K V : Type} `{EqDecision K}.
Implicit Types (d : list (K * V)) (k : K) (v : V).

Lemma od_get_set_eq d k v : od_get (od_set d k v) k = Some v.
Proof.
  induction d as [|[k' v'] d IH]; simpl.
  - by rewrite decide_True.
  - destruct (decide (k' = k)) as [->|Hne]; simpl.
    + by rewrite decide_True.
    + by rewrite decide_False.
Qed.

Lemma od_get_set_ne d k k' v :
  k <> k' -> od_get (od_set d k v) k' = od_get d k'.
Proof.
  intros Hne. induction d as [|[k0 v0] d IH]; simpl.
  - by rewrite decide_False.
  - destruct (decide (k0 = k)) as [->|Hne0]; simpl.
    + by rewrite !decide_False.
    + destruct (decide (k0 = k')); auto.
Qed.

Lemma od_keys_set d k v :
  od_keys (od_set d k v) =
  if bool_decide (k ∈ od_keys d) then od_keys d else od_keys d ++ [k].
Proof.
  unfold od_keys. induction d as [|[k0 v0] d IH].
  - case_bool_decide as Hin; [by apply elem_of_nil in Hin|done].
  - cbn [od_set]. destruct (decide (k0 = k)) as [->|Hne].
    + rewrite bool_decide_eq_true_2; [reflexivity|]. cbn. left.
    + cbn [map fst]. rewrite IH.
      destruct (decide (k ∈ map fst d)) as [Hin|Hin].
      * rewrite !bool_decide_eq_true_2; [done|by right|done].
      * rewrite !bool_decide_eq_false_2; [done| |done].
        intros [?|?]%elem_of_cons; congruence.
Qed.

Lemma od_get_Some_keys d k v : od_get d k = Some v -> k ∈ od_keys d.
Proof.
  unfold od_keys. induction d as [|[k0 v0] d IH]; simpl; [done|].
  destruct (decide (k0 = k)) as [->|Hne]; intros.
  - left.
  - right. auto.
Qed.

Lemma od_keys_get d k : k ∈ od_keys d -> is_Some (od_get d k).
Proof.
  unfold od_keys. induction d as [|[k0 v0] d IH]; simpl.
  - intros Hin. by apply elem_of_nil in Hin.
  - intros Hin. destruct (decide (k0 = k)) as [->|Hne]; [by eexists|].
    apply elem_of_cons in Hin as [?|?]; [congruence|auto].
Qed.

Lemma od_get_In d k v : od_get d k = Some v -> (k, v) ∈ d.
Proof.
  induction d as [|[k0 v0] d IH]; simpl; [done|].
  destruct (decide (k0 = k)) as [->|Hne]; intros Hg.
  - injection Hg as ->. left.
  - right. auto.
Qed.

Lemma od_In_get d k v : NoDup (od_keys d) -> (k, v) ∈ d -> od_get d k = Some v.
Proof.
  unfold od_keys. induction d as [|[k0 v0] d IH]; simpl; intros Hnd Hin.
  - by apply elem_of_nil in Hin.
  - apply NoDup_cons in Hnd as [Hni Hnd].
    apply elem_of_cons in Hin as [Heq|Hin].
    + injection Heq as -> ->. by rewrite decide_True.
    + destruct (decide (k0 = k)) as [->|Hne]; [|auto].
      exfalso. apply Hni. apply (list_elem_of_fmap_2 fst) in Hin. done.
Qed.

Lemma od_set_NoDup d k v : NoDup (od_keys d) -> NoDup (od_keys (od_set d k v)).
Proof.
  intros Hnd. rewrite od_keys_set.
  destruct (bool_decide (k ∈ od_keys d)) eqn:E; [done|].
  apply bool_decide_eq_false in E.
  apply NoDup_app. split; [done|]. split.
  - intros x Hx Hx'. apply list_elem_of_singleton in Hx'. congruence.
  - apply NoDup_singleton.
Qed.

Lemma od_index_Ok d k v : od_index d k = Ok v <-> od_get d k = Some v.
Proof.
  unfold od_index. destruct (od_get d k); split; intros; congruence.
Qed.
End odict_facts.

(** ** The builder: a run only adds variables and constraints *)

#[global] Instance extends_refl : Reflexive extends.
Proof. intros m. split; reflexivity. Qed.

#[global] Instance extends_trans : Transitive extends.
Proof. intros a b c [? ?] [? ?]. split; etrans; eauto. Qed.

Lemma bind_Ok {A B} (c : M A) (f : A -> M B) m b m' :
  (c ≫= f) m = Ok (b, m') ->
  exists a m1, c m = Ok (a, m1) /\ f a m1 = Ok (b, m').
Proof.
  unfold mbind, M_bind. destruct (c m) as [[a m1]|e]; [eauto|discriminate].
Qed.

Lemma lift_Ok {A} (r : result A) m a m' :
  lift r m = Ok (a, m') -> r = Ok a /\ m' = m.
Proof. unfold lift. destruct r; intros; simplify_eq; auto. Qed.

Lemma ret_Ok {A} (x : A) m a m' :
  (mret x : M A) m = Ok (a, m') -> a = x /\ m' = m.
Proof. unfold mret, M_ret. intros; simplify_eq; auto. Qed.

Lemma NewIntVar_Ok lb ub name m v m' :
  NewIntVar lb ub name m = Ok (v, m') ->
  v = length (variables m) /\
  variables m' = variables m ++ [mkIntVar lb ub name] /\
  constraints m' = constraints m /\ objective m' = objective m.
Proof. unfold NewIntVar. intros; simplify_eq; auto. Qed.

Lemma Add_Ok c m u m' :
  Add c m = Ok (u, m') ->
  variables m' = variables m /\
  constraints m' = constraints m ++ [c] /\ objective m' = objective m.
Proof. unfold Add. intros; simplify_eq; auto. Qed.

Lemma mono_ret {A} (x : A) : mono (mret x).
Proof. intros m a m' [_ ->]%ret_Ok. reflexivity. Qed.

Lemma mono_raise {A} e : mono (@raise A e).
Proof. intros m a m'. discriminate. Qed.

Lemma mono_lift {A} (r : result A) : mono (lift r).
Proof. intros m a m' [_ ->]%lift_Ok. reflexivity. Qed.

Lemma mono_bind {A B} (c : M A) (f : A -> M B) :
  mono c -> (forall a, mono (f a)) -> mono (c ≫= f).
Proof.
  intros Hc Hf m b m' (a & m1 & H1 & H2)%bind_Ok.
  etrans; [eapply Hc|eapply Hf]; eauto.
Qed.

Lemma mono_NewIntVar lb ub name : mono (NewIntVar lb ub name).
Proof.
  intros m v m' (_ & Hv & Hc & _)%NewIntVar_Ok. split.
  - rewrite Hv. by apply prefix_app_r.
  - by rewrite Hc.
Qed.

Lemma mono_Add c : mono (Add c).
Proof.
  intros m v m' (Hv & Hc & _)%Add_Ok. split.
  - by rewrite Hv.
  - rewrite Hc. by apply prefix_app_r.
Qed.

Lemma mono_Minimize e : mono (Minimize e).
Proof. intros m v m' H. unfold Minimize in H. simplify_eq. by split. Qed.

Lemma mono_py_assert b : mono (py_assert b).
Proof. destruct b; [apply mono_ret|apply mono_raise]. Qed.

Lemma mono_for_each {A S} (l : list A) (body : S -> A -> M S) s :
  (forall s x, mono (body s x)) -> mono (for_each l body s).
Proof.
  intros Hb. revert s. induction l as [|x l IH]; intros s; simpl.
  - apply mono_ret.
  - apply mono_bind; auto.
Qed.

Lemma mono_new_sigma_var name : mono (new_sigma_var name).
Proof. apply mono_NewIntVar. Qed.

Lemma mono_NewBoolVar name : mono (NewBoolVar name).
Proof. apply mono_NewIntVar. Qed.

Lemma mono_sigma_of Sigma k : mono (sigma_of Sigma k).
Proof. apply mono_lift. Qed.

Create HintDb mono discriminated.
#[global] Hint Resolve mono_ret mono_raise mono_lift mono_NewIntVar mono_Add
  mono_Minimize mono_py_assert mono_new_sigma_var mono_NewBoolVar
  mono_sigma_of : mono.

(** Splits the goal along the structure of a builder. *)
Ltac mono_step :=
  match goal with
  | |- mono (_ ≫= _) => apply mono_bind; [|intros ?]
  | |- mono (for_each _ _ _) => apply mono_for_each; intros ? ?
  | |- mono (match ?x with _ => _ end) => destruct x
  | |- mono _ => solve [auto with mono]
  end.

Ltac solve_mono := repeat mono_step.

(** A loop that ran to its end ran its body on each element, from a state
    reached by the elements before it. *)
Lemma for_each_app_Ok {A S} (l1 l2 : list A) (body : S -> A -> M S) s m s' m' :
  for_each (l1 ++ l2) body s m = Ok (s', m') ->
  exists s1 m1, for_each l1 body s m = Ok (s1, m1) /\
                for_each l2 body s1 m1 = Ok (s', m').
Proof.
  revert s m. induction l1 as [|x l1 IH]; intros s m; simpl.
  - eauto.
  - intros (s0 & m0 & Hx & Hrest)%bind_Ok.
    destruct (IH _ _ Hrest) as (s1 & m1 & H1 & H2).
    exists s1, m1. split; [|done].
    unfold mbind, M_bind. by rewrite Hx.
Qed.

Lemma for_each_elem_Ok {A S} (l : list A) (body : S -> A -> M S) s m s' m' x :
  for_each l body s m = Ok (s', m') -> x ∈ l ->
  exists l1 l2 s1 m1 s2 m2,
    l = l1 ++ x :: l2 /\
    for_each l1 body s m = Ok (s1, m1) /\
    body s1 x m1 = Ok (s2, m2) /\
    for_each l2 body s2 m2 = Ok (s', m').
Proof.
  intros Hrun (l1 & l2 & ->)%list_elem_of_split.
  apply for_each_app_Ok in Hrun as (s1 & m1 & H1 & H2).
  simpl in H2. apply bind_Ok in H2 as (s2 & m2 & Hx & H2).
  exists l1, l2, s1, m1, s2, m2. auto.
Qed.

(** A relation that every turn of the body respects holds between the
    start and the end of the loop. *)
Lemma for_each_rel {A S} (R : relation (S * CpModel)) `{!PreOrder R}
    (l : list A) (body : S -> A -> M S) :
  (forall s x m s' m', body s x m = Ok (s', m') -> R (s, m) (s', m')) ->
  forall s m s' m', for_each l body s m = Ok (s', m') -> R (s, m) (s', m').
Proof.
  intros Hb. induction l as [|x l IH]; intros s m s' m'; simpl.
  - intros [-> ->]%ret_Ok. reflexivity.
  - intros (s1 & m1 & Hx & Hrest)%bind_Ok. etrans; eauto.
Qed.

Lemma for_each_elem_rel {A S} (R : relation (S * CpModel)) `{!PreOrder R}
    (l : list A) (body : S -> A -> M S) s m s' m' x :
  (forall s x m s' m', body s x m = Ok (s', m') -> R (s, m) (s', m')) ->
  for_each l body s m = Ok (s', m') -> x ∈ l ->
  exists s1 m1 s2 m2,
    R (s, m) (s1, m1) /\ body s1 x m1 = Ok (s2, m2) /\ R (s2, m2) (s', m').
Proof.
  intros Hb Hrun Hin.
  destruct (for_each_elem_Ok _ _ _ _ _ _ _ Hrun Hin)
    as (l1 & l2 & s1 & m1 & s2 & m2 & _ & H1 & Hx & H2).
  exists s1, m1, s2, m2. split; [|split; [done|]].
  - eapply (for_each_rel R); eauto.
  - eapply (for_each_rel R); eauto.
Qed.

(** A property of the loop state that every turn keeps holds at the end. *)
Lemma for_each_inv {A S} (I : S -> CpModel -> Prop)
    (l : list A) (body : S -> A -> M S) :
  (forall s x m s' m', x ∈ l -> I s m -> body s x m = Ok (s', m') -> I s' m') ->
  forall s m s' m', I s m -> for_each l body s m = Ok (s', m') -> I s' m'.
Proof.
  induction l as [|x l IH]; intros Hb s m s' m' Hi; simpl.
  - intros [-> ->]%ret_Ok. done.
  - intros (s1 & m1 & Hx & Hrest)%bind_Ok.
    eapply IH; [| |exact Hrest].
    + intros. eapply Hb; eauto. by right.
    + eapply Hb; eauto. left.
Qed.

#[global] Instance grows_preorder : PreOrder grows.
Proof.
  split.
  - intros [ex m]. split; reflexivity.
  - intros a b c [? ?] [? ?]. split; etrans; eauto.
Qed.

(** ** Solutions of an extended model *)

Lemma in_bounds_lookup s vs : forall i j d,
  in_bounds s i vs -> vs !! j = Some d ->
  v_lb d <= s (i + j)%nat <= v_ub d.
Proof.
  induction vs as [|d0 vs IH]; intros i j d Hb Hl; [done|].
  destruct Hb as [H0 Hb]. destruct j as [|j]; simpl in Hl.
  - simplify_eq. by rewrite Nat.add_0_r.
  - replace (i + S j)%nat with (S i + j)%nat by lia. eauto.
Qed.

Lemma feasible_bounds s m v d :
  feasible s m -> variables m !! v = Some d -> v_lb d <= s v <= v_ub d.
Proof. intros [Hb _] Hl. apply (in_bounds_lookup s _ 0%nat v d Hb Hl). Qed.

Lemma feasible_holds s m c :
  feasible s m -> c ∈ constraints m -> holds s c.
Proof. intros [_ Hc] Hin. rewrite Forall_forall in Hc. auto. Qed.

Lemma extends_lookup m m' v d :
  extends m m' -> variables m !! v = Some d -> variables m' !! v = Some d.
Proof. intros [Hv _] Hl. by eapply prefix_lookup_Some. Qed.

Lemma extends_constraint m m' c :
  extends m m' -> c ∈ constraints m -> c ∈ constraints m'.
Proof. intros [_ [cs ->]] Hin. apply elem_of_app. by left. Qed.

Lemma lookup_app_plus {A} (l1 l2 : list A) (k i : nat) (d : A) :
  i = (length l1 + k)%nat -> l2 !! k = Some d -> (l1 ++ l2) !! i = Some d.
Proof.
  intros -> Hl. rewrite lookup_app_r by lia.
  by replace (length l1 + k - length l1)%nat with k by lia.
Qed.

Lemma feasible_added s M m cs0 cs :
  extends m M -> feasible s M -> constraints m = cs0 ++ cs ->
  Forall (holds s) cs.
Proof.
  intros [_ [rest Hrest]] [_ Hall] Hm.
  rewrite Hrest, Hm, !Forall_app in Hall. tauto.
Qed.

Lemma holds_Linear s lhs r rhs :
  holds s (Linear lhs r rhs []) <-> rel_holds r (eval s lhs) (eval s rhs).
Proof. simpl. split; [intros Hh; apply Hh; constructor|auto]. Qed.

Lemma holds_Linear_if s lhs r rhs v :
  holds s (Linear lhs r rhs [Lit v]) <->
  (s v = 1 -> rel_holds r (eval s lhs) (eval s rhs)).
Proof.
  simpl. split.
  - intros Hh Hv. apply Hh. by repeat constructor.
  - intros Hh [Hv _]%Forall_cons. auto.
Qed.

Lemma in_bounds_app s vs1 : forall vs2 i,
  in_bounds s i (vs1 ++ vs2) <->
  in_bounds s i vs1 /\ in_bounds s (i + length vs1) vs2.
Proof.
  induction vs1 as [|d vs1 IH]; intros vs2 i; simpl.
  - rewrite Nat.add_0_r. tauto.
  - rewrite IH. replace (S i + length vs1)%nat with (i + S (length vs1))%nat
      by lia. tauto.
Qed.

(** A solution of a model is one of every model it extends. *)
Lemma feasible_extends s m M : extends m M -> feasible s M -> feasible s m.
Proof.
  intros [[vs Hv] [cs Hc]] [Hb Hall]. split.
  - rewrite Hv in Hb. by apply in_bounds_app in Hb as [Hb _].
  - rewrite Hc in Hall. by apply Forall_app in Hall as [Hall _].
Qed.

(** ** Runs of the builder, taken apart *)

Lemma NewIntVar_inv lb ub name m v m' :
  NewIntVar lb ub name m = Ok (v, m') ->
  v = length (variables m) /\
  m' = mkCpModel (variables m ++ [mkIntVar lb ub name]) (constraints m)
                 (objective m).
Proof. unfold NewIntVar. intros; simplify_eq; auto. Qed.

Lemma Add_inv c m u m' :
  Add c m = Ok (u, m') ->
  m' = mkCpModel (variables m) (constraints m ++ [c]) (objective m).
Proof. unfold Add. intros; simplify_eq; auto. Qed.

Ltac inv_new H :=
  unfold new_sigma_var, NewBoolVar in H;
  cbn [fst snd sigma_bounds] in H;
  let Hv := fresh "Hv" in
  let Hm := fresh "Hm" in
  apply NewIntVar_inv in H as [Hv Hm];
  cbn [variables constraints objective] in Hv, Hm;
  rewrite ?length_app in Hv; cbn [length] in Hv; subst.

Ltac inv_prim H :=
  lazymatch type of H with
  | sigma_of _ _ _ = Ok _ =>
      unfold sigma_of in H; apply lift_Ok in H as [H ->];
      apply od_index_Ok in H
  | lift _ _ = Ok _ => apply lift_Ok in H as [H ->]
  | mret _ _ = Ok _ => apply ret_Ok in H as [? ?]; subst
  | new_sigma_var _ _ = Ok _ => inv_new H
  | NewBoolVar _ _ = Ok _ => inv_new H
  | NewIntVar _ _ _ _ = Ok _ => inv_new H
  | Add _ _ = Ok _ =>
      apply Add_inv in H;
      cbn [variables constraints objective] in H; subst
  | raise _ _ = Ok _ => discriminate H
  | _ => idtac
  end.

Ltac inv_M_step :=
  match goal with
  | H : (_ ≫= _) _ = Ok _ |- _ =>
      let H1 := fresh "Hstep" in
      apply bind_Ok in H as (? & ? & H1 & H); inv_prim H1
  | H : (let _ := _ in _) _ = Ok _ |- _ => cbv zeta in H
  | H : sigma_of _ _ _ = Ok _ |- _ => inv_prim H
  | H : lift _ _ = Ok _ |- _ => inv_prim H
  | H : mret _ _ = Ok _ |- _ => inv_prim H
  | H : new_sigma_var _ _ = Ok _ |- _ => inv_prim H
  | H : NewBoolVar _ _ = Ok _ |- _ => inv_prim H
  | H : NewIntVar _ _ _ _ = Ok _ |- _ => inv_prim H
  | H : Add _ _ = Ok _ |- _ => inv_prim H
  | H : raise _ _ = Ok _ |- _ => inv_prim H
  | H : od_index _ _ = Ok _ |- _ => apply od_index_Ok in H
  end.

Ltac inv_M :=
  repeat inv_M_step;
  cbn [variables constraints objective] in *.

Lemma quot_floor a b : 0 <= a -> 0 < b -> Z.quot a b = a `div` b.
Proof. intros. apply Z.quot_div_nonneg; lia. Qed.

Lemma rem_mod a b : 0 <= a -> 0 < b -> Z.rem a b = a `mod` b.
Proof. intros. apply Z.rem_mod_nonneg; lia. Qed.

(** Reads the constraints a step added as facts about the solution. *)
Ltac holds_facts Hall :=
  repeat (apply Forall_cons in Hall as [? Hall]); clear Hall;
  cbn [holds eval map max_list min_list fold_left rel_holds lit_holds] in *;
  repeat match goal with
         | Hh : Forall (lit_holds _) [] -> _ |- _ =>
             specialize (Hh (Forall_nil_2 _))
         end.

Section sigma_facts.
Context {P : Type} `{Gate P}.
Variable NPH : Z.
Variable all_signals : list (Z * P).
Variable Sigma : list (Z * nat).
Variable fanout : gmap Z Z.

Lemma encode_AA_Ok g ex m ex' m' :
  encode_AA NPH all_signals Sigma g ex m = Ok (ex', m') ->
  exists a_sig b_sig a b sg sa sb,
    fanins_of g = [a_sig; b_sig] /\
    od_get all_signals a_sig = Some a /\
    od_get all_signals b_sig = Some b /\
    od_get Sigma (sig_of g) = Some sg /\
    od_get Sigma (sig_of a) = Some sa /\
    od_get Sigma (sig_of b) = Some sb /\
    let max_diff := length (variables m) in
    let div_val := S max_diff in
    ex' = ex ++ [EVar div_val] /\
    variables m' = variables m ++
      [mkIntVar 0 1000 (pair_name "max_" (sig_of a) (sig_of b));
       mkIntVar 0 1000 (pair_name "div_" (sig_of a) (sig_of b))] /\
    constraints m' = constraints m ++
      [MaxEquality (EVar max_diff)
         [ESub (EVar sg) (EVar sa); ESub (EVar sg) (EVar sb)];
       DivisionEquality (EVar div_val) (EVar max_diff) (EConst NPH);
       Linear (EVar sa) Le (EVar sg) [];
       Linear (EVar sb) Le (EVar sg) []].
Proof.
  unfold encode_AA. intros Hrun.
  destruct (fanins_of g) as [|a_sig [|b_sig [|? ?]]]; try discriminate.
  inv_M.
  eexists _, _, _, _, _, _, _. repeat split; eauto.
  all: rewrite ?Nat.add_1_r, <- ?app_assoc; done.
Qed.

Lemma encode_AS_edge_Ok g ex p_sig m ex' m' :
  encode_AS_edge NPH Sigma g ex p_sig m = Ok (ex', m') ->
  exists sp sg,
    od_get Sigma p_sig = Some sp /\
    od_get Sigma (sig_of g) = Some sg /\
    let delta := length (variables m) in
    let div_val := S delta in
    ex' = ex ++ [EVar div_val] /\
    variables m' = variables m ++
      [mkIntVar 0 1000 (pair_name "delta_" p_sig (sig_of g));
       mkIntVar 0 1000 (pair_name "div_" p_sig (sig_of g))] /\
    constraints m' = constraints m ++
      [Linear (EVar sp) Lt (EVar sg) [];
       Linear (EVar delta) Eq (ESub (EVar sg) (EVar sp)) [];
       DivisionEquality (EVar div_val) (EVar delta) (EConst NPH)].
Proof.
  unfold encode_AS_edge. intros Hrun. inv_M.
  eexists _, _. repeat split; eauto.
  all: rewrite ?Nat.add_1_r, <- ?app_assoc; done.
Qed.

Lemma encode_SA_edge_Ok g ex p_sig m ex' m' :
  encode_SA_edge NPH all_signals Sigma fanout g ex p_sig m = Ok (ex', m') ->
  exists p sp sg,
    od_get all_signals p_sig = Some p /\
    od_get Sigma p_sig = Some sp /\
    od_get Sigma (sig_of g) = Some sg /\
    let delta := length (variables m) in
    let div_val := S delta in
    ex' = ex ++ [EVar div_val] /\
    variables m' = variables m ++
      [mkIntVar 0 1000 (pair_name "delta_sa_" p_sig (sig_of g));
       mkIntVar 0 1000 (pair_name "div_" p_sig (sig_of g))] /\
    constraints m' = constraints m ++
      [Linear (EVar sp) (if is_true_AS fanout p then Le else Lt)
         (EVar sg) [];
       Linear (EVar delta) Eq
         (ESub (EAdd (ESub (EVar sg) (EVar sp)) (EConst NPH)) (EConst 1))
         [];
       DivisionEquality (EVar div_val) (EVar delta) (EConst NPH)].
Proof.
  unfold encode_SA_edge. intros Hrun. inv_M.
  match goal with
  | Hc : (if is_true_AS _ ?p then _ else _) _ = Ok _ |- _ =>
      destruct (is_true_AS fanout p) eqn:Etrue; inv_M
  end.
  all: eexists _, _, _; repeat split; eauto.
  all: rewrite ?Etrue, ?Nat.add_1_r, <- ?app_assoc; done.
Qed.
(** *** Each case adds terms and constraints only *)

Lemma encode_AA_grows g ex m ex' m' :
  encode_AA NPH all_signals Sigma g ex m = Ok (ex', m') ->
  grows (ex, m) (ex', m').
Proof.
  intros (?&?&?&?&?&?&?&_&_&_&_&_&_& -> & Hv & Hc)%encode_AA_Ok.
  split; [by apply prefix_app_r|]. split; simpl.
  - rewrite Hv. by apply prefix_app_r.
  - rewrite Hc. by apply prefix_app_r.
Qed.

Lemma encode_AS_edge_grows g ex p_sig m ex' m' :
  encode_AS_edge NPH Sigma g ex p_sig m = Ok (ex', m') ->
  grows (ex, m) (ex', m').
Proof.
  intros (?&?&_&_& -> & Hv & Hc)%encode_AS_edge_Ok.
  split; [by apply prefix_app_r|]. split; simpl.
  - rewrite Hv. by apply prefix_app_r.
  - rewrite Hc. by apply prefix_app_r.
Qed.

Lemma encode_SA_edge_grows g ex p_sig m ex' m' :
  encode_SA_edge NPH all_signals Sigma fanout g ex p_sig m = Ok (ex', m') ->
  grows (ex, m) (ex', m').
Proof.
  intros (?&?&?&_&_&_& -> & Hv & Hc)%encode_SA_edge_Ok.
  split; [by apply prefix_app_r|]. split; simpl.
  - rewrite Hv. by apply prefix_app_r.
  - rewrite Hc. by apply prefix_app_r.
Qed.

Lemma encode_AS_grows g ex m ex' m' :
  encode_AS NPH Sigma g ex m = Ok (ex', m') -> grows (ex, m) (ex', m').
Proof.
  apply (for_each_rel grows). intros ? ? ? ? ?.
  apply encode_AS_edge_grows.
Qed.

Lemma encode_SA_grows g ex m ex' m' :
  encode_SA NPH all_signals Sigma fanout g ex m = Ok (ex', m') ->
  grows (ex, m) (ex', m').
Proof.
  apply (for_each_rel grows). intros ? ? ? ? ?.
  apply encode_SA_edge_grows.
Qed.

(** *** What the constraints of each case mean for a solution *)

Lemma encode_AA_sound g ex m ex' m' :
  encode_AA NPH all_signals Sigma g ex m = Ok (ex', m') ->
  exists a_sig b_sig a b sg sa sb t,
    fanins_of g = [a_sig; b_sig] /\
    od_get all_signals a_sig = Some a /\
    od_get all_signals b_sig = Some b /\
    od_get Sigma (sig_of g) = Some sg /\
    od_get Sigma (sig_of a) = Some sa /\
    od_get Sigma (sig_of b) = Some sb /\
    ex' = ex ++ [t] /\
    forall s M, extends m' M -> feasible s M ->
      s sa <= s sg /\ s sb <= s sg /\
      (0 < NPH -> eval s t = (s sg - Z.min (s sa) (s sb)) `div` NPH).
Proof.
  intros (a_sig&b_sig&a&b&sg&sa&sb&Hf&Ha&Hb&Hg&Hsa&Hsb&He&_&Hc)
    %encode_AA_Ok.
  exists a_sig, b_sig, a, b, sg, sa, sb. eexists.
  repeat (split; [eassumption|]).
  intros s M Hext Hfeas.
  pose proof (feasible_added _ _ _ _ _ Hext Hfeas Hc) as Hall.
  holds_facts Hall.
  match goal with Hh : _ /\ _ = Z.quot _ _ |- _ =>
    destruct Hh as [_ Hdiv] end.
  repeat split; try done.
  intros Hpos. simpl. rewrite Hdiv.
  rewrite quot_floor by lia. f_equal. lia.
Qed.

Lemma encode_AS_edge_sound g ex p_sig m ex' m' :
  encode_AS_edge NPH Sigma g ex p_sig m = Ok (ex', m') ->
  exists sp sg t,
    od_get Sigma p_sig = Some sp /\
    od_get Sigma (sig_of g) = Some sg /\
    ex' = ex ++ [t] /\
    forall s M, extends m' M -> feasible s M ->
      s sp < s sg /\
      (0 < NPH -> eval s t = (s sg - s sp) `div` NPH).
Proof.
  intros (sp&sg&Hp&Hg&He&_&Hc)%encode_AS_edge_Ok.
  exists sp, sg. eexists.
  repeat (split; [eassumption|]).
  intros s M Hext Hfeas.
  pose proof (feasible_added _ _ _ _ _ Hext Hfeas Hc) as Hall.
  holds_facts Hall.
  match goal with Hh : _ /\ _ = Z.quot _ _ |- _ =>
    destruct Hh as [_ Hdiv] end.
  split; [done|]. intros Hpos. simpl. rewrite Hdiv.
  rewrite quot_floor by lia. f_equal. lia.
Qed.

Lemma encode_SA_edge_sound g ex p_sig m ex' m' :
  encode_SA_edge NPH all_signals Sigma fanout g ex p_sig m = Ok (ex', m') ->
  exists p sp sg t,
    od_get all_signals p_sig = Some p /\
    od_get Sigma p_sig = Some sp /\
    od_get Sigma (sig_of g) = Some sg /\
    ex' = ex ++ [t] /\
    Linear (EVar sp) (if is_true_AS fanout p then Le else Lt) (EVar sg) []
      ∈ constraints m' /\
    forall s M, extends m' M -> feasible s M ->
      (if is_true_AS fanout p then s sp <= s sg else s sp < s sg) /\
      (0 < NPH -> eval s t = (s sg - s sp + NPH - 1) `div` NPH).
Proof.
  intros (p&sp&sg&Hp&Hsp&Hg&He&_&Hc)%encode_SA_edge_Ok.
  exists p, sp, sg. eexists.
  repeat (split; [eassumption|]).
  split.
  { rewrite Hc. apply elem_of_app. right. left. }
  intros s M Hext Hfeas.
  pose proof (feasible_added _ _ _ _ _ Hext Hfeas Hc) as Hall.
  holds_facts Hall.
  match goal with Hh : _ /\ _ = Z.quot _ _ |- _ =>
    destruct Hh as [_ Hdiv] end.
  split; [by destruct (is_true_AS fanout p)|].
  intros Hpos. simpl. rewrite Hdiv.
  rewrite quot_floor; [f_equal; lia| |lia].
  destruct (is_true_AS fanout p); simpl in *; lia.
Qed.

(** An edge of a gate: the loop over the fanins ran its body on it. *)
Lemma encode_AS_sound g ex m ex' m' p_sig :
  encode_AS NPH Sigma g ex m = Ok (ex', m') -> p_sig ∈ fanins_of g ->
  exists sp sg t,
    od_get Sigma p_sig = Some sp /\
    od_get Sigma (sig_of g) = Some sg /\
    t ∈ ex' /\
    forall s M, extends m' M -> feasible s M ->
      s sp < s sg /\
      (0 < NPH -> eval s t = (s sg - s sp) `div` NPH).
Proof.
  intros Hrun Hin.
  destruct (for_each_elem_rel grows _ _ _ _ _ _ _
              (fun _ _ _ _ _ => encode_AS_edge_grows _ _ _ _ _ _)
              Hrun Hin)
    as (ex1 & m1 & ex2 & m2 & _ & Hedge & [Hpre Hext]).
  apply encode_AS_edge_sound in Hedge as (sp&sg&t&Hp&Hg&He&Hsem).
  exists sp, sg, t. repeat (split; [eassumption|]). split.
  - simpl in Hpre. destruct Hpre as [rest ->]. rewrite He.
    apply elem_of_app. left. apply elem_of_app. right. left.
  - intros s M HM. apply Hsem. etrans; eauto.
Qed.

Lemma encode_SA_sound g ex m ex' m' p_sig :
  encode_SA NPH all_signals Sigma fanout g ex m = Ok (ex', m') ->
  p_sig ∈ fanins_of g ->
  exists p sp sg t,
    od_get all_signals p_sig = Some p /\
    od_get Sigma p_sig = Some sp /\
    od_get Sigma (sig_of g) = Some sg /\
    t ∈ ex' /\
    Linear (EVar sp) (if is_true_AS fanout p then Le else Lt) (EVar sg) []
      ∈ constraints m' /\
    forall s M, extends m' M -> feasible s M ->
      (if is_true_AS fanout p then s sp <= s sg else s sp < s sg) /\
      (0 < NPH -> eval s t = (s sg - s sp + NPH - 1) `div` NPH).
Proof.
  intros Hrun Hin.
  destruct (for_each_elem_rel grows _ _ _ _ _ _ _
              (fun _ _ _ _ _ => encode_SA_edge_grows _ _ _ _ _ _)
              Hrun Hin)
    as (ex1 & m1 & ex2 & m2 & _ & Hedge & [Hpre Hext]).
  apply encode_SA_edge_sound in Hedge as (p&sp&sg&t&Hp&Hsp&Hg&He&Hc&Hsem).
  exists p, sp, sg, t. repeat (split; [eassumption|]). split; [|split].
  - simpl in Hpre. destruct Hpre as [rest ->]. rewrite He.
    apply elem_of_app. left. apply elem_of_app. right. left.
  - eapply extends_constraint; eauto.
  - intros s M HM. apply Hsem. etrans; eauto.
Qed.
End sigma_facts.

(** ** The allocation of [Sigma] *)

Section alloc_facts.
Context {P : Type} `{Gate P}.
Variable NPH : Z.

Local Abbreviation sigma_decl := (sigma_decl NPH).

Lemma alloc_loop_run l : forall Sigma fanout m,
  for_each l (alloc_body NPH) (Sigma, fanout) m =
  Ok ((alloc_Sigma l (length (variables m)) Sigma, alloc_fanout l fanout),
      mkCpModel (variables m ++ map sigma_decl l) (constraints m)
                (objective m)).
Proof.
  induction l as [|g l IH]; intros Sigma fanout m; simpl.
  - unfold mret, M_ret. rewrite app_nil_r. by destruct m.
  - unfold mbind, M_bind, alloc_body, sigma_decl, new_sigma_var.
    destruct (type_of g); simpl; rewrite IH; simpl;
      rewrite length_app, <- app_assoc; simpl;
      replace (length (variables m) + 1)%nat
        with (S (length (variables m))) by lia; done.
Qed.

Lemma alloc_run (all_signals : list (Z * P)) :
  alloc NPH all_signals empty_model =
  Ok ((alloc_Sigma (od_values all_signals) 0 [],
       alloc_fanout (od_values all_signals) ∅),
      mkCpModel (map sigma_decl (od_values all_signals)) [] None).
Proof. unfold alloc. by rewrite alloc_loop_run. Qed.

Lemma alloc_Sigma_notin l : forall n Sigma k,
  k ∉ map sig_of l -> od_get (alloc_Sigma l n Sigma) k = od_get Sigma k.
Proof.
  induction l as [|g l IH]; intros n Sigma k Hk; simpl; [done|].
  simpl in Hk. apply not_elem_of_cons in Hk as [Hne Hk].
  rewrite IH by done. by apply od_get_set_ne.
Qed.

(** Every signal has a variable, created for a signal of that id. *)
Lemma alloc_Sigma_in l : forall n Sigma k,
  k ∈ map sig_of l ->
  exists i g, od_get (alloc_Sigma l n Sigma) k = Some (n + i)%nat /\
              l !! i = Some g /\ sig_of g = k.
Proof.
  induction l as [|g l IH]; intros n Sigma k Hk; simpl in *.
  - by apply elem_of_nil in Hk.
  - destruct (decide (k ∈ map sig_of l)) as [Hin|Hnin].
    + destruct (IH (S n) (od_set Sigma (sig_of g) n) k Hin)
        as (i & g' & Hget & Hl & Hs).
      exists (S i), g'. split; [|done].
      rewrite Hget. f_equal. lia.
    + apply elem_of_cons in Hk as [->|?]; [|done].
      exists 0%nat, g. split; [|done].
      rewrite alloc_Sigma_notin by done.
      rewrite od_get_set_eq. f_equal. lia.
Qed.

(** When the ids are distinct, it is the signal's own variable. *)
Lemma alloc_Sigma_own l : forall n Sigma i g,
  NoDup (map sig_of l) -> l !! i = Some g ->
  od_get (alloc_Sigma l n Sigma) (sig_of g) = Some (n + i)%nat.
Proof.
  induction l as [|g0 l IH]; intros n Sigma i g Hnd Hl; [done|].
  simpl in Hnd. apply NoDup_cons in Hnd as [Hni Hnd].
  destruct i as [|i]; simpl in *.
  - simplify_eq. rewrite alloc_Sigma_notin by done.
    rewrite od_get_set_eq. f_equal. lia.
  - rewrite (IH _ _ i g) by done. f_equal. lia.
Qed.

Lemma alloc_Sigma_keys l : forall n Sigma k v,
  od_get (alloc_Sigma l n Sigma) k = Some v ->
  k ∈ map sig_of l \/ od_get Sigma k = Some v.
Proof.
  intros n Sigma k v Hget.
  destruct (decide (k ∈ map sig_of l)) as [?|Hnin]; [by left|right].
  by rewrite alloc_Sigma_notin in Hget.
Qed.
Lemma count_fanout_fold ps : forall (fanout : gmap Z Z) k,
  default 0 (foldl count_fanout fanout ps !! k) =
  default 0 (fanout !! k) + Z.of_nat (length (filter (fun p => p = k) ps)).
Proof.
  induction ps as [|p ps IH]; intros fanout k; simpl; [lia|].
  rewrite IH. unfold count_fanout.
  destruct (decide (p = k)) as [->|Hne].
  - rewrite lookup_insert_eq, filter_cons_True by done. simpl. lia.
  - rewrite lookup_insert_ne, filter_cons_False by done. lia.
Qed.

Lemma alloc_fanout_count l : forall (fanout : gmap Z Z) k,
  default 0 (alloc_fanout l fanout !! k) =
  default 0 (fanout !! k) +
  Z.of_nat (length (filter (fun p => p = k)
              (concat (map fanins_of
                 (filter (fun g => type_of g <> PI) l))))).
Proof.
  induction l as [|g l IH]; intros fanout k; simpl; [lia|].
  rewrite IH. destruct (decide (type_of g = PI)) as [Hpi|Hpi].
  - rewrite Hpi, filter_cons_False by auto. done.
  - rewrite filter_cons_True by done. simpl.
    rewrite filter_app, length_app.
    assert (Hf : default 0
              (match type_of g with
               | PI => fanout
               | _ => foldl count_fanout fanout (fanins_of g)
               end !! k) =
            default 0 (foldl count_fanout fanout (fanins_of g) !! k)).
    { by destruct (type_of g). }
    rewrite Hf, count_fanout_fold. lia.
Qed.
End alloc_facts.

(** ** [phase_assignment.py]: the T1 cells *)

Lemma med3_median a b c : med3 a b c = median3 a b c.
Proof. unfold med3, median3, min3, max3. lia. Qed.

Lemma med3_between a b c : min3 a b c <= med3 a b c <= max3 a b c.
Proof. unfold med3, min3, max3. lia. Qed.

Lemma cost_var_extends m m' t : extends m m' -> cost_var m t -> cost_var m' t.
Proof.
  intros Hext (v & d & -> & Hl & Hlb). exists v, d.
  split; [done|]. split; [|done]. by eapply extends_lookup.
Qed.

Lemma cost_var_nonneg s m t : feasible s m -> cost_var m t -> 0 <= eval s t.
Proof.
  intros Hf (v & d & -> & Hl & Hlb). simpl.
  pose proof (feasible_bounds _ _ _ _ Hf Hl). lia.
Qed.

Section sigma_cost.
Context {P : Type} `{Gate P}.
Variable NPH : Z.
Variable all_signals : list (Z * P).
Variable Sigma : list (Z * nat).
Variable fanout : gmap Z Z.

Lemma cost_var_snoc (m m' : CpModel) (ex : list expr) (d1 d2 : IntVar) :
  variables m' = variables m ++ [d1; d2] -> 0 <= v_lb d2 ->
  Forall (cost_var m) ex ->
  Forall (cost_var m') (ex ++ [EVar (S (length (variables m)))]).
Proof.
  intros Hv Hlb Hex. apply Forall_app. split.
  - eapply Forall_impl; [exact Hex|]. intros t (v & d & -> & Hl & ?).
    exists v, d. split; [done|]. split; [|done].
    rewrite Hv. by apply lookup_app_l_Some.
  - apply Forall_singleton. exists (S (length (variables m))), d2.
    split; [done|]. split; [|done]. rewrite Hv.
    by apply (lookup_app_plus _ _ 1%nat); [lia|].
Qed.

Lemma encode_AA_cost g ex m ex' m' :
  Forall (cost_var m) ex ->
  encode_AA NPH all_signals Sigma g ex m = Ok (ex', m') ->
  Forall (cost_var m') ex'.
Proof.
  intros Hex (?&?&?&?&?&?&?&_&_&_&_&_&_& -> & Hv & _)%encode_AA_Ok.
  by eapply cost_var_snoc.
Qed.

Lemma encode_AS_cost g ex m ex' m' :
  Forall (cost_var m) ex ->
  encode_AS NPH Sigma g ex m = Ok (ex', m') ->
  Forall (cost_var m') ex'.
Proof.
  apply (for_each_inv (fun ex m => Forall (cost_var m) ex)).
  intros ex0 p m0 ex1 m1 _ Hex (?&?&_&_& -> & Hv & _)%encode_AS_edge_Ok.
  by eapply cost_var_snoc.
Qed.

Lemma encode_SA_cost g ex m ex' m' :
  Forall (cost_var m) ex ->
  encode_SA NPH all_signals Sigma fanout g ex m = Ok (ex', m') ->
  Forall (cost_var m') ex'.
Proof.
  apply (for_each_inv (fun ex m => Forall (cost_var m) ex)).
  intros ex0 p m0 ex1 m1 _ Hex (?&?&?&_&_&_& -> & Hv & _)%encode_SA_edge_Ok.
  by eapply cost_var_snoc.
Qed.
End sigma_cost.

(** The value of Python's [sum] is the sum of the values of the terms. *)
Lemma eval_py_sum s es : eval s (py_sum es) = foldr Z.add 0 (map (eval s) es).
Proof.
  unfold py_sum.
  assert (Hgen : forall acc,
             eval s (fold_left EAdd es acc) =
             eval s acc + foldr Z.add 0 (map (eval s) es)).
  { induction es as [|e es IH]; intros acc; simpl; [lia|].
    rewrite IH. simpl. lia. }
  rewrite Hgen. simpl. lia.
Qed.

Module PhaseAssignmentProofs.
Import PhaseAssignment PhaseAssignmentSpec.

Section t1.
Variable NPH : Z.
Variable all_signals : list (Z * Primitive).
Variable all_t1_cells : list t1_cell.
Variable Sigma : list (Z * nat).
Variable fanout : gmap Z Z.

Local Abbreviation eff_incr := (eff_incr all_signals).
Local Abbreviation t1_solution := (t1_solution NPH).
Local Abbreviation t1_encoded :=
  (t1_encoded NPH all_signals all_t1_cells Sigma).
Local Abbreviation processed_inv :=
  (processed_inv NPH all_signals all_t1_cells Sigma).

Lemma incr_loop_three f0 f1 f2 negs incr :
  incr_loop all_signals 0 (zip [f0; f1; f2] negs) [0; 0; 0] = Ok incr ->
  incr = [eff_incr f0 (negs !! 0%nat); eff_incr f1 (negs !! 1%nat);
          eff_incr f2 (negs !! 2%nat)].
Proof.
  unfold eff_incr.
  destruct negs as [|n0 [|n1 [|n2 negs]]]; simpl;
    unfold od_index, mbind, result_bind;
    repeat match goal with
           | |- context [od_get all_signals ?k] =>
               destruct (od_get all_signals k); simpl
           | |- context [t1_delayed ?p ?n] =>
               destruct (t1_delayed p n); simpl
           end;
    intros; simplify_eq; done.
Qed.

Lemma place_loop_Ok T vals : forall m u m',
  for_each vals (place_sibling Sigma T) tt m = Ok (u, m') ->
  variables m' = variables m /\
  exists svs,
    Forall2 (fun k v => od_get Sigma k = Some v) vals svs /\
    constraints m' = constraints m ++
      map (fun v => Linear (EVar v) Eq (EVar T) []) svs.
Proof.
  induction vals as [|k vals IH]; intros m u m' Hrun; simpl in Hrun.
  - apply ret_Ok in Hrun as [_ ->]. split; [done|].
    exists []. split; [constructor|]. by rewrite app_nil_r.
  - apply bind_Ok in Hrun as ([] & m1 & Hk & Hrest).
    unfold place_sibling in Hk. inv_M.
    apply IH in Hrest as (Hv & svs & HF & Hc). simpl in *.
    split; [done|]. eexists (_ :: svs). split; [by constructor|].
    rewrite Hc, <- app_assoc. done.
Qed.

Lemma place_loop_mono T vals u : mono (for_each vals (place_sibling Sigma T) u).
Proof.
  apply mono_for_each. intros [] k. unfold place_sibling, sigma_of.
  solve_mono.
Qed.
Lemma encode_FA_skip g ex ap m :
  sig g ∈ ap ->
  encode_FA NPH all_signals all_t1_cells Sigma g (ex, ap) m =
  Ok ((ex, ap), m).
Proof. intros Hin. unfold encode_FA. by rewrite bool_decide_eq_true_2. Qed.

Lemma encode_FA_sound g ex ap m st' m' :
  encode_FA NPH all_signals all_t1_cells Sigma g (ex, ap) m = Ok (st', m') ->
  sig g ∉ ap ->
  exists cell f0 f1 f2 w,
    find_cell all_t1_cells (sig g) = Ok cell /\
    fanins g = [f0; f1; f2] /\
    od_get Sigma f0 = Some (t1_in0 w) /\
    od_get Sigma f1 = Some (t1_in1 w) /\
    od_get Sigma f2 = Some (t1_in2 w) /\
    st' = (ex ++ t1_terms w, ap ++ od_values cell) /\
    Forall (cost_var m') (t1_terms w) /\
    (forall k, k ∈ od_values cell ->
       exists v, od_get Sigma k = Some v /\
                 Linear (EVar v) Eq (EVar (t1_T w)) [] ∈ constraints m') /\
    forall s M, extends m' M -> feasible s M ->
      t1_solution s w
        (s (t1_in0 w) + eff_incr f0 (in_neg g !! 0%nat))
        (s (t1_in1 w) + eff_incr f1 (in_neg g !! 1%nat))
        (s (t1_in2 w) + eff_incr f2 (in_neg g !! 2%nat)).
Proof.
  unfold encode_FA. intros Hrun Hnin.
  rewrite bool_decide_eq_false_2 in Hrun by done.
  apply bind_Ok in Hrun as (cell & m0 & Hcell & Hrun).
  apply lift_Ok in Hcell as [Hcell ->].
  destruct (fanins g) as [|f0 [|f1 [|f2 [|? ?]]]] eqn:Hfan;
    try discriminate.
  apply bind_Ok in Hrun as (incr & m0 & Hincr & Hrun).
  apply lift_Ok in Hincr as [Hincr ->].
  apply incr_loop_three in Hincr. subst incr.
  cbn [lookup list_lookup default from_option id] in Hrun.
  cbv zeta in Hrun. inv_M.
  match goal with Hp : for_each _ (place_sibling _ _) _ _ = Ok _ |- _ =>
    apply place_loop_Ok in Hp as (Hv & svs & HF & Hc) end.
  cbn [variables constraints] in Hv, Hc.
  rewrite <- !app_assoc in Hv. rewrite <- !app_assoc in Hc.
  cbn [app] in Hv, Hc.
  set (n := length (variables m)) in *.
  exists cell, f0, f1, f2.
  exists (mkT1 x x0 x1 (n + 1 + 1 + 1)%nat
            (n + 1 + 1 + 1 + 1 + 1 + 1 + 1 + 1 + 1 + 1 + 1)%nat
            (n + 1 + 1 + 1 + 1 + 1 + 1 + 1 + 1 + 1 + 1 + 1 + 1 + 1)%nat
            (n + 1 + 1 + 1 + 1 + 1 + 1 + 1 + 1 + 1 + 1 + 1 + 1 + 1 + 1 +
             1)%nat
            (n + 1 + 1 + 1 + 1 + 1 + 1 + 1 + 1 + 1 + 1 + 1 + 1 + 1 + 1 +
             1 + 1)%nat
            (n + 1 + 1 + 1 + 1 + 1 + 1 + 1 + 1 + 1 + 1 + 1 + 1 + 1 + 1 +
             1 + 1 + 1)%nat).
  cbn [t1_in0 t1_in1 t1_in2 t1_T t1_floor_min t1_floor_med t1_floor_max
       t1_min_flag t1_med_flag t1_terms].
  do 6 (split; [done|]). split; [|split].
  - unfold t1_terms, cost_var.
    cbn [t1_floor_min t1_floor_med t1_floor_max t1_min_flag t1_med_flag].
    rewrite !Forall_cons. rewrite Hv.
    repeat split; try done; eexists _, _; (split; [reflexivity|]).
    + split; [by eapply (lookup_app_plus _ _ 11%nat); [lia|]|]. done.
    + split; [by eapply (lookup_app_plus _ _ 13%nat); [lia|]|]. done.
    + split; [by eapply (lookup_app_plus _ _ 15%nat); [lia|]|]. done.
    + split; [by eapply (lookup_app_plus _ _ 16%nat); [lia|]|]. done.
    + split; [by eapply (lookup_app_plus _ _ 17%nat); [lia|]|]. done.
  - intros k [i Hi]%list_elem_of_lookup.
    destruct (Forall2_lookup_l _ _ _ _ _ HF Hi) as (v & Hsv & Hget).
    exists v. split; [done|]. rewrite Hc.
    apply elem_of_app. right. do 22 right.
    apply list_elem_of_fmap. exists v. split; [done|].
    by eapply list_elem_of_lookup_2.
  - intros s M Hext Hfeas.
    pose proof (feasible_added _ _ _ _ _ Hext Hfeas Hc) as Hall.
    do 22 (apply Forall_cons in Hall as [? Hall]). clear Hall.
    cbn [holds eval map max_list min_list fold_left rel_holds lit_holds]
      in *.
    repeat match goal with
           | Hh : Forall (lit_holds _) [] -> _ |- _ =>
               specialize (Hh (Forall_nil_2 _))
           | Hh : Forall _ [Lit _] -> _ |- _ =>
               rewrite Forall_singleton in Hh; cbn [lit_holds] in Hh
           | Hh : _ /\ _ |- _ => destruct Hh
           end.
    unfold t1_solution.
    cbn [t1_in0 t1_in1 t1_in2 t1_T t1_floor_min t1_floor_med t1_floor_max
         t1_min_flag t1_med_flag].
    set (a0 := s x + _) in *. set (a1 := s x0 + _) in *.
    set (a2 := s x1 + _) in *.
    pose proof (med3_between a0 a1 a2) as Hmed.
    assert (Hmin : s n = min3 a0 a1 a2) by (unfold min3; lia).
    assert (Hmax : s (n + 1)%nat = max3 a0 a1 a2) by (unfold max3; lia).
    assert (Hmd : s (n + 1 + 1)%nat = med3 a0 a1 a2)
      by (unfold med3; lia).
    rewrite Hmin, Hmax, Hmd in *.
    repeat match goal with
           | Hq : _ = Z.quot ?a NPH |- _ =>
               rewrite (quot_floor a NPH) in Hq by lia
           | Hr : _ = Z.rem ?a NPH |- _ =>
               rewrite (rem_mod a NPH) in Hr by lia
           end.
    repeat match goal with
           | Hx : s _ = _ - _ - 1 |- _ => rewrite Hx in *; clear Hx
           | Hx : s _ = _ - _ |- _ => rewrite Hx in *; clear Hx
           end.
    repeat split; lia.
Qed.
Lemma encode_FA_mono g st : mono (encode_FA NPH all_signals all_t1_cells Sigma g st).
Proof.
  unfold encode_FA. destruct st as [ex ap].
  destruct (bool_decide (sig g ∈ ap)); [apply mono_ret|].
  apply mono_bind; [apply mono_lift|intros cell].
  destruct (fanins g) as [|f0 [|f1 [|f2 [|? ?]]]]; try apply mono_raise.
  cbv zeta.
  repeat (apply mono_bind; [solve [auto with mono]|intros ?]).
  apply mono_bind; [apply place_loop_mono|intros ?]. apply mono_ret.
Qed.

Lemma find_cell_Ok k cell :
  find_cell all_t1_cells k = Ok cell ->
  cell ∈ all_t1_cells /\ k ∈ od_values cell.
Proof.
  unfold find_cell.
  destruct (find _ all_t1_cells) as [c|] eqn:Hfind; [|discriminate].
  intros [= <-]. apply find_some in Hfind as [Hin Hk].
  split; [by apply list_elem_of_In|].
  by apply bool_decide_eq_true in Hk.
Qed.

(** *** The gate loop *)

#[global] Instance grows2_preorder : PreOrder grows2.
Proof.
  split.
  - intros [[ex ap] m]. repeat split; reflexivity.
  - intros a b c (?&?&?) (?&?&?). split; [|split]; etrans; eauto.
Qed.

Lemma grows_grows2 ex ap m ex' m' :
  grows (ex, m) (ex', m') -> grows2 ((ex, ap), m) ((ex', ap), m').
Proof. intros [? ?]. split; [done|]. split; [reflexivity|done]. Qed.

Lemma encode_gate_grows st g m st' m' :
  encode_gate NPH all_signals all_t1_cells Sigma fanout st g m
    = Ok (st', m') ->
  grows2 (st, m) (st', m').
Proof.
  unfold encode_gate. destruct st as [ex ap].
  destruct (type g) eqn:Ht.
  - intros [-> ->]%ret_Ok. reflexivity.
  - intros (ex' & m1 & Hrun & [-> ->]%ret_Ok)%bind_Ok.
    apply (encode_AA_grows (P:=Primitive)) in Hrun.
    by apply grows_grows2.
  - intros (ex' & m1 & Hrun & [-> ->]%ret_Ok)%bind_Ok.
    apply (encode_AS_grows (P:=Primitive)) in Hrun.
    by apply grows_grows2.
  - intros (ex' & m1 & Hrun & [-> ->]%ret_Ok)%bind_Ok.
    apply (encode_SA_grows (P:=Primitive)) in Hrun.
    by apply grows_grows2.
  - intros Hrun.
    pose proof (encode_FA_mono _ _ _ _ _ Hrun) as Hext.
    destruct (decide (sig g ∈ ap)) as [Hin|Hnin].
    + rewrite encode_FA_skip in Hrun by done. simplify_eq. reflexivity.
    + apply encode_FA_sound in Hrun
        as (cell&?&?&?&w&_&_&_&_&_& -> &_); [|done].
      split; [|split]; simpl; try done; by apply prefix_app_r.
Qed.
(** *** Encoded cells *)

Lemma t1_encoded_grows g0 cell w st m st' m' :
  grows2 (st, m) (st', m') ->
  t1_encoded g0 cell w st.1 m -> t1_encoded g0 cell w st'.1 m'.
Proof.
  intros (Hex & _ & Hext) (Hg & Ht & Hc & Hm & Hsol & Hsib & Hterms & Hcost).
  simpl in *. repeat (split; [done|]). split; [|split; [|split]].
  - destruct Hsol as (f0 & f1 & f2 & ? & ? & ? & ? & Hsol).
    exists f0, f1, f2. repeat (split; [done|]).
    intros s M HM. apply Hsol. etrans; eauto.
  - intros k Hk. destruct (Hsib k Hk) as (v & ? & ?). exists v.
    split; [done|]. by eapply extends_constraint.
  - intros t Ht'. destruct Hex as [rest ->].
    apply elem_of_app. left. auto.
  - eapply Forall_impl; [exact Hcost|].
    intros t. by apply cost_var_extends.
Qed.

Lemma encode_FA_encoded g ex ap m st' m' :
  g ∈ od_values all_signals -> type g = FA -> sig g ∉ ap ->
  encode_FA NPH all_signals all_t1_cells Sigma g (ex, ap) m = Ok (st', m') ->
  exists cell w,
    st'.2 = ap ++ od_values cell /\
    t1_encoded g cell w st'.1 m'.
Proof.
  intros Hg Ht Hnin Hrun.
  apply encode_FA_sound in Hrun
    as (cell&f0&f1&f2&w&Hcell&Hf&H0&H1&H2& -> &Hcost&Hsib&Hsol); [|done].
  apply find_cell_Ok in Hcell as [Hc Hk].
  exists cell, w. split; [done|]. simpl.
  repeat (split; [done|]). split; [|split; [done|split; [|done]]].
  - exists f0, f1, f2. by repeat (split; [done|]).
  - intros t Ht'. apply elem_of_app. by right.
Qed.

Lemma encode_gate_processed st g m st' m' :
  g ∈ od_values all_signals ->
  processed_inv st m ->
  encode_gate NPH all_signals all_t1_cells Sigma fanout st g m
    = Ok (st', m') ->
  processed_inv st' m'.
Proof.
  intros Hg Hinv Hrun.
  pose proof (encode_gate_grows _ _ _ _ _ Hrun) as Hgrow.
  assert (Hold : forall k, k ∈ st.2 ->
            exists g0 cell w, k ∈ od_values cell /\
                              t1_encoded g0 cell w st'.1 m').
  { intros k Hk. destruct (Hinv k Hk) as (g0 & cell & w & ? & Henc).
    exists g0, cell, w. split; [done|].
    by eapply t1_encoded_grows. }
  unfold encode_gate in Hrun. destruct st as [ex ap].
  destruct (type g) eqn:Ht.
  - apply ret_Ok in Hrun as [-> ->]. done.
  - apply bind_Ok in Hrun as (? & ? & _ & [-> ->]%ret_Ok). exact Hold.
  - apply bind_Ok in Hrun as (? & ? & _ & [-> ->]%ret_Ok). exact Hold.
  - apply bind_Ok in Hrun as (? & ? & _ & [-> ->]%ret_Ok). exact Hold.
  - destruct (decide (sig g ∈ ap)) as [Hin|Hnin].
    + rewrite encode_FA_skip in Hrun by done. simplify_eq. exact Hold.
    + destruct (encode_FA_encoded _ _ _ _ _ _ Hg Ht Hnin Hrun)
        as (cell & w & Hap & Henc).
      intros k Hk. rewrite Hap in Hk.
      apply elem_of_app in Hk as [Hk|Hk]; [by apply Hold|].
      by exists g, cell, w.
Qed.

(** Every FA signal the loop visits ends in an encoded cell. *)
Lemma gate_loop_t1 l st m st' m' g :
  (forall x, x ∈ l -> x ∈ od_values all_signals) ->
  processed_inv st m ->
  for_each l (encode_gate NPH all_signals all_t1_cells Sigma fanout) st m
    = Ok (st', m') ->
  g ∈ l -> type g = FA ->
  exists g0 cell w,
    sig g ∈ od_values cell /\ t1_encoded g0 cell w st'.1 m'.
Proof.
  intros Hl Hinv Hrun Hg Ht.
  destruct (for_each_elem_Ok _ _ _ _ _ _ _ Hrun Hg)
    as (l1 & l2 & st1 & m1 & st2 & m2 & -> & H1 & Hx & H2).
  assert (Hinv1 : processed_inv st1 m1).
  { eapply (for_each_inv processed_inv); [|exact Hinv|exact H1].
    intros s x m0 s' m0' Hin Hi Hb.
    eapply encode_gate_processed; [|exact Hi|exact Hb].
    apply Hl. apply elem_of_app. by left. }
  pose proof (for_each_rel grows2 _ _ encode_gate_grows _ _ _ _ H2)
    as Hgrow.
  assert (Hgl : g ∈ od_values all_signals).
  { apply Hl. apply elem_of_app. right. left. }
  unfold encode_gate in Hx. destruct st1 as [ex1 ap1].
  rewrite Ht in Hx.
  destruct (decide (sig g ∈ ap1)) as [Hin|Hnin].
  - rewrite encode_FA_skip in Hx by done. simplify_eq.
    destruct (Hinv1 (sig g) Hin) as (g0 & cell & w & Hk & Henc).
    exists g0, cell, w. split; [done|]. by eapply t1_encoded_grows.
  - destruct (encode_FA_encoded _ _ _ _ _ _ Hgl Ht Hnin Hx)
      as (cell & w & Hap & Henc).
    exists g, cell, w. split.
    + by destruct Henc as (_ & _ & _ & ? & _).
    + by eapply t1_encoded_grows.
Qed.
End t1.

(** *** The model handed to the solver *)

Section construct.
Variable NPH : Z.
Variable all_signals : list (Z * Primitive).
Variable all_t1_cells : list t1_cell.

Local Abbreviation Sigma0 := (Sigma0 all_signals).
Local Abbreviation fanout0 := (fanout0 all_signals).
Local Abbreviation model0 := (model0 NPH all_signals).

Lemma construct_inv b m :
  construct NPH all_signals all_t1_cells = Ok (b, m) ->
  b_Sigma b = Sigma0 /\ b_fanout b = fanout0 /\
  exists ap m1,
    for_each (od_values all_signals)
      (encode_gate NPH all_signals all_t1_cells Sigma0 fanout0)
      ([], []) model0 = Ok ((b_expr b, ap), m1) /\
    variables m = variables m1 /\ constraints m = constraints m1 /\
    objective m = Some (py_sum (b_expr b)).
Proof.
  unfold construct, build. intros Hrun.
  apply bind_Ok in Hrun as ([Sigma fanout] & m0 & Halloc & Hrun).
  rewrite alloc_run in Halloc. injection Halloc as <- <- <-.
  apply bind_Ok in Hrun as ([ex ap] & m1 & Hloop & Hrun).
  apply bind_Ok in Hrun as ([] & m2 & Hmin & Hrun).
  apply ret_Ok in Hrun as [-> ->].
  unfold Minimize in Hmin. injection Hmin as <-. simpl.
  do 2 (split; [done|]). by exists ap, m1.
Qed.

Lemma construct_feasible (m m1 : CpModel) s :
  variables m = variables m1 -> constraints m = constraints m1 ->
  feasible s m -> feasible s m1.
Proof. unfold feasible. by intros -> ->. Qed.

(** The turn of the loop on a signal, and what it leaves in the end. *)
Lemma construct_gate b m g :
  construct NPH all_signals all_t1_cells = Ok (b, m) ->
  g ∈ od_values all_signals ->
  exists ex1 ap1 m1 ex2 ap2 m2 mf,
    encode_gate NPH all_signals all_t1_cells Sigma0 fanout0
      (ex1, ap1) g m1 = Ok ((ex2, ap2), m2) /\
    ex2 `prefix_of` b_expr b /\ extends m2 mf /\
    constraints m = constraints mf /\
    forall s, feasible s m -> feasible s mf.
Proof.
  intros (_ & _ & ap & mf & Hloop & Hv & Hc & _)%construct_inv Hg.
  destruct (for_each_elem_rel (grows2) _ _ _ _ _ _ _
              (encode_gate_grows _ _ _ _ _) Hloop Hg)
    as ([ex1 ap1] & m1 & [ex2 ap2] & m2 & _ & Hx & (Hpre & _ & Hext)).
  exists ex1, ap1, m1, ex2, ap2, m2, mf. repeat (split; [done|]).
  intros s. by apply construct_feasible.
Qed.

Lemma construct_cost b m :
  construct NPH all_signals all_t1_cells = Ok (b, m) ->
  Forall (cost_var m) (b_expr b).
Proof.
  intros (_ & _ & ap & mf & Hloop & Hv & Hc & _)%construct_inv.
  assert (Hmf : Forall (cost_var mf) (b_expr b)).
  { apply (for_each_inv
             (fun (st : list expr * list Z) m => Forall (cost_var m) st.1)
             _ _) with (s' := (b_expr b, ap)) (m' := mf) in Hloop;
      [done| |by constructor].
    intros [ex ap0] g m0 [ex' ap'] m0' _ Hex Hrun. cbn [fst] in *.
    unfold encode_gate in Hrun. destruct (type g) eqn:Ht.
    - apply ret_Ok in Hrun as [? ->]. by simplify_eq.
    - apply bind_Ok in Hrun as (? & ? & Hrun & [? ->]%ret_Ok).
      simplify_eq. by eapply (encode_AA_cost (P:=Primitive)).
    - apply bind_Ok in Hrun as (? & ? & Hrun & [? ->]%ret_Ok).
      simplify_eq. by eapply (encode_AS_cost (P:=Primitive)).
    - apply bind_Ok in Hrun as (? & ? & Hrun & [? ->]%ret_Ok).
      simplify_eq. by eapply (encode_SA_cost (P:=Primitive)).
    - destruct (decide (sig g ∈ ap0)) as [Hin|Hnin].
      + rewrite encode_FA_skip in Hrun by done. by simplify_eq.
      + pose proof (encode_FA_mono _ _ _ _ _ _ _ _ _ Hrun) as Hext.
        apply encode_FA_sound in Hrun
          as (cell&?&?&?&w&_&_&_&_&_& Hst &Hcost&_); [|done].
        simplify_eq. apply Forall_app. split; [|done].
        eapply Forall_impl; [exact Hex|].
        intros t. by apply cost_var_extends. }
  eapply Forall_impl; [exact Hmf|].
  intros t (v & d & -> & Hl & ?). exists v, d. by rewrite Hv.
Qed.
End construct.

(** *** Worked inputs *)

Example aa_lines_run :
  run_lines 2 aa_lines = Some (aa_sigs, [], aa_built, aa_model).
Proof. vm_compute. reflexivity. Qed.

Example aa_solution_feasible : feasible aa_solution aa_model.
Proof. apply (bool_decide_unpack _). vm_compute. exact I. Qed.

(** *** The AA case *)

(** C1 (as the code has it): for every AA gate with fanins [a] and [b] of
    a model that [phase_assignment.py] builds, every solution places the
    output not before either fanin, and a term of the objective equals
    the floor division by [NPH] of (output timing - min (timing of a,
    timing of b)): the model takes the larger of the two differences, so
    the cost is counted from the earlier fanin. *)
Theorem AA_cost_from_earlier_input NPH all_signals all_t1_cells b m g :
  0 < NPH ->
  construct NPH all_signals all_t1_cells = Ok (b, m) ->
  g ∈ od_values all_signals -> type g = AA ->
  AA_rule NPH all_signals b m Z.min g.
Proof.
  intros Hpos Hrun Hg Ht.
  pose proof (construct_inv _ _ _ _ _ Hrun) as (HS & _ & _).
  destruct (construct_gate _ _ _ _ _ _ Hrun Hg)
    as (ex1 & ap1 & m1 & ex2 & ap2 & m2 & mf & Hx & Hpre & Hext & Hcs & Hfeas).
  unfold encode_gate in Hx. rewrite Ht in Hx.
  apply bind_Ok in Hx as (ex' & m' & Hx & [? ->]%ret_Ok). simplify_eq.
  apply (encode_AA_sound (P:=Primitive)) in Hx
    as (a_sig&b_sig&a&b'&sg&sa&sb&t&Hf&Ha&Hb&Hsg&Hsa&Hsb& -> &Hsem).
  exists a_sig, b_sig, a, b', sg, sa, sb, t. rewrite HS.
  do 6 (split; [done|]). split.
  - destruct Hpre as [rest ->]. apply elem_of_app. left.
    apply elem_of_app. right. left.
  - intros s Hs. destruct (Hsem s mf Hext (Hfeas s Hs)) as (? & ? & Hcost).
    auto.
Qed.

Lemma AA_cost_from_earlier_input_witness :
  AA_rule 2 aa_sigs aa_built aa_model Z.min aa_gate.
Proof.
  apply (AA_cost_from_earlier_input 2 aa_sigs [] aa_built aa_model aa_gate).
  - lia.
  - vm_compute. reflexivity.
  - apply list_elem_of_In. vm_compute. auto.
  - reflexivity.
Defined.

(** C1 as stated (the cost counted from the later fanin, [Z.max]) fails:
    with the PIs at 0 and 1 and the gate at 2 under two phases, the term
    is 1 while (2 - max 0 1) / 2 = 0. *)
Lemma AA_cost_from_later_input_fails :
  ~ AA_rule 2 aa_sigs aa_built aa_model Z.max aa_gate.
Proof.
  intros (a_sig&b_sig&a&b'&vg&va&vb&t&Hf&Ha&Hb&Hg&Hva&Hvb&Ht&Hsem).
  simpl in Hf. injection Hf as <- <-.
  vm_compute in Ha. injection Ha as <-.
  vm_compute in Hb. injection Hb as <-.
  vm_compute in Hg. injection Hg as <-.
  vm_compute in Hva. injection Hva as <-.
  vm_compute in Hvb. injection Hvb as <-.
  apply list_elem_of_singleton in Ht. subst t.
  destruct (Hsem aa_solution aa_solution_feasible) as (_ & _ & Hcost).
  vm_compute in Hcost. discriminate.
Qed.

(** *** The AS case *)

Example as_lines_run :
  run_lines 2 ["PI,1"; "2,2,1"] = Some (as_sigs, [], as_built, as_model).
Proof. vm_compute. reflexivity. Qed.






(** *** The SA case *)



Example sa_lines_run :
  run_lines 2 ["PI,1,2"; "3,2,1"; "4,2,2"; "5,3,3|4"]
  = Some (sa_sigs, [], sa_built, sa_model).
Proof. vm_compute. reflexivity. Qed.



(** *** The objective *)

Lemma report_objective m Sigma r v :
  ObjectiveLine v ∈ report m Sigma r ->
  has_solution (StatusName (r_status r)) = true /\ v = r_objective r.
Proof.
  unfold report. intros Hin.
  apply elem_of_cons in Hin as [Hin|Hin]; [discriminate|].
  destruct (has_solution _); [|by apply elem_of_nil in Hin].
  split; [done|].
  apply elem_of_cons in Hin as [Hin|Hin]; [by injection Hin|].
  apply list_elem_of_fmap in Hin as ([k sv] & Hl & _). discriminate.
Qed.

(** C8: in every solution of a model that [phase_assignment.py] builds,
    every term appended to [expr] has a value that is not negative, and
    the objective is the sum of these terms; the objective value the
    script prints is that sum at the solution the engine returned. *)
Theorem objective_is_sum_of_nonneg_terms NPH all_signals all_t1_cells b m :
  construct NPH all_signals all_t1_cells = Ok (b, m) ->
  (forall s, feasible s m ->
     Forall (fun t => 0 <= eval s t) (b_expr b) /\
     objective_value s m = foldr Z.add 0 (map (eval s) (b_expr b))) /\
  (forall r v, answers m r ->
     ObjectiveLine v ∈ report m (b_Sigma b) r ->
     v = foldr Z.add 0 (map (eval (r_values r)) (b_expr b))).
Proof.
  intros Hrun.
  pose proof (construct_cost _ _ _ _ _ Hrun) as Hcost.
  pose proof (construct_inv _ _ _ _ _ Hrun)
    as (_ & _ & ap & mf & _ & _ & _ & Hobj).
  assert (Hsum : forall s, objective_value s m =
                   foldr Z.add 0 (map (eval s) (b_expr b))).
  { intros s. unfold objective_value. rewrite Hobj. apply eval_py_sum. }
  split.
  - intros s Hs. split; [|apply Hsum].
    eapply Forall_impl; [exact Hcost|].
    intros t Ht. by eapply cost_var_nonneg.
  - intros r v Hans (Hsol & ->)%report_objective.
    destruct (Hans Hsol) as (_ & ->). apply Hsum.
Qed.

Lemma objective_is_sum_of_nonneg_terms_witness :
  (forall s, feasible s sa_model ->
     Forall (fun t => 0 <= eval s t) (b_expr sa_built) /\
     objective_value s sa_model =
       foldr Z.add 0 (map (eval s) (b_expr sa_built))) /\
  (forall r v, answers sa_model r ->
     ObjectiveLine v ∈ report sa_model (b_Sigma sa_built) r ->
     v = foldr Z.add 0 (map (eval (r_values r)) (b_expr sa_built))).
Proof.
  apply (objective_is_sum_of_nonneg_terms 2 sa_sigs [] sa_built sa_model).
  vm_compute. reflexivity.
Defined.

(** *** The T1 cells *)

Lemma construct_t1 NPH all_signals all_t1_cells b m g :
  construct NPH all_signals all_t1_cells = Ok (b, m) ->
  g ∈ od_values all_signals -> type g = FA ->
  exists g0 cell w,
    sig g ∈ od_values cell /\
    t1_encoded NPH all_signals all_t1_cells (b_Sigma b) g0 cell w
      (b_expr b) m.
Proof.
  intros (HS & _ & ap & mf & Hloop & Hv & Hc & _)%construct_inv Hg Ht.
  rewrite HS.
  assert (Hex : exists g0 cell w,
             sig g ∈ od_values cell /\
             t1_encoded NPH all_signals all_t1_cells (Sigma0 all_signals)
               g0 cell w (b_expr b) mf).
  { eapply (gate_loop_t1 _ _ _ _ _ _ ([], []) _ (b_expr b, ap));
      [| |exact Hloop|done|done].
    - auto.
    - intros k Hk. by apply elem_of_nil in Hk. }
  destruct Hex as (g0 & cell & w & Hk & Henc).
  exists g0, cell, w. split; [done|].
  apply (t1_encoded_grows _ _ _ _ _ _ _ (b_expr b, ap) mf (b_expr b, ap) m);
    [|done].
  split; [reflexivity|]. split; [reflexivity|].
  split; simpl; [by rewrite Hv|by rewrite Hc].
Qed.

Lemma od_get_values {V} (d : list (string * V)) k v :
  od_get d k = Some v -> v ∈ od_values d.
Proof.
  intros Hin%od_get_In. unfold od_values.
  apply list_elem_of_fmap. by exists (k, v).
Qed.

Lemma od_values_get (all_signals : list (Z * Primitive)) g :
  NoDup (od_keys all_signals) ->
  (forall k g, (k, g) ∈ all_signals -> sig g = k) ->
  g ∈ od_values all_signals -> od_get all_signals (sig g) = Some g.
Proof.
  intros Hnd Hkey Hg. unfold od_values in Hg.
  apply list_elem_of_fmap in Hg as ([k g'] & -> & Hin). simpl.
  rewrite (Hkey _ _ Hin). by apply od_In_get.
Qed.

(** A cell of well-formed tables is encoded with its own fanins, and the
    timing variable of the encoding has the value of the XOR output. *)
Lemma t1_cell_solution NPH all_signals all_t1_cells b m cell x gx :
  construct NPH all_signals all_t1_cells = Ok (b, m) ->
  t1_groups_wf all_signals all_t1_cells ->
  cell ∈ all_t1_cells ->
  od_get cell "XOR" = Some x ->
  od_get all_signals x = Some gx ->
  exists f0 f1 f2 w vx,
    fanins gx = [f0; f1; f2] /\
    od_get (b_Sigma b) f0 = Some (t1_in0 w) /\
    od_get (b_Sigma b) f1 = Some (t1_in1 w) /\
    od_get (b_Sigma b) f2 = Some (t1_in2 w) /\
    od_get (b_Sigma b) x = Some vx /\
    (forall t, t ∈ t1_terms w -> t ∈ b_expr b) /\
    forall s, feasible s m ->
      (forall k, k ∈ od_values cell ->
         exists v, od_get (b_Sigma b) k = Some v /\ s v = s vx) /\
      s (t1_T w) = s vx /\
      t1_solution NPH s w
        (s (t1_in0 w) + eff_incr all_signals f0 (in_neg gx !! 0%nat))
        (s (t1_in1 w) + eff_incr all_signals f1 (in_neg gx !! 1%nat))
        (s (t1_in2 w) + eff_incr all_signals f2 (in_neg gx !! 2%nat)).
Proof.
  intros Hrun (Hnd & Hkey & Hcells & Hdisj) Hcell Hx Hgx.
  assert (Hxin : x ∈ od_values cell) by (by eapply od_get_values).
  destruct (Hcells cell Hcell) as (_ & F & N & Hmem).
  destruct (Hmem x Hxin) as (gx' & Hgx' & Htx & HFx & HNx).
  rewrite Hgx in Hgx'. injection Hgx' as <-.
  assert (Hsx : sig gx = x) by (apply Hkey; by apply od_get_In).
  assert (Hgin : gx ∈ od_values all_signals).
  { unfold od_values. apply list_elem_of_fmap. exists (x, gx).
    split; [done|]. by apply od_get_In. }
  destruct (construct_t1 _ _ _ _ _ _ Hrun Hgin Htx)
    as (g0 & cell' & w & Hk & Hg0 & Ht0 & Hc' & Hm0 & Hsol & Hsib & Hterms & _).
  rewrite Hsx in Hk.
  assert (cell' = cell) as -> by (by apply (Hdisj cell' cell x)).
  destruct (Hmem (sig g0) Hm0) as (g0' & Hg0' & _ & HF0 & HN0).
  rewrite (od_values_get _ _ Hnd Hkey Hg0) in Hg0'. injection Hg0' as <-.
  destruct Hsol as (f0 & f1 & f2 & Hfan & H0 & H1 & H2 & Hsol).
  destruct (Hsib x Hxin) as (vx & Hvx & Hcx).
  exists f0, f1, f2, w, vx.
  rewrite HFx, <- HF0, HNx, <- HN0.
  do 6 (split; [done|]).
  intros s Hs.
  assert (Heq : forall k, k ∈ od_values cell ->
            exists v, od_get (b_Sigma b) k = Some v /\ s v = s (t1_T w)).
  { intros k Hkin. destruct (Hsib k Hkin) as (v & Hv & Hcv).
    exists v. split; [done|].
    apply (feasible_holds _ _ _ Hs) in Hcv.
    exact (proj1 (holds_Linear _ _ _ _) Hcv). }
  destruct (Heq x Hxin) as (vx' & Hvx' & HT).
  rewrite Hvx in Hvx'. injection Hvx' as <-.
  split; [|split; [done|]].
  - intros k Hkin. destruct (Heq k Hkin) as (v & Hv & Hsv).
    exists v. split; [done|]. congruence.
  - by apply (Hsol s m).
Qed.

(** C2: for every T1 cell of well-formed tables, with [x] its XOR output,
    in every solution of the model that [phase_assignment.py] builds every
    output of the cell has the timing of [x], and that timing exceeds
    MIN + 2, MED + 1 and MAX, the least, the median and the greatest of
    the timings of the three fanins, each counted one unit later when the
    fanin is an AA gate, or an AS or SA gate read negated. *)
Theorem T1_members_share_bounded_timing NPH all_signals all_t1_cells b m
    cell x gx :
  construct NPH all_signals all_t1_cells = Ok (b, m) ->
  t1_groups_wf all_signals all_t1_cells ->
  cell ∈ all_t1_cells ->
  od_get cell "XOR" = Some x ->
  od_get all_signals x = Some gx ->
  t1_timing_rule all_signals b m cell x (fanins gx) (in_neg gx).
Proof.
  intros Hrun Hwf Hcell Hx Hgx.
  destruct (t1_cell_solution _ _ _ _ _ _ _ _ Hrun Hwf Hcell Hx Hgx)
    as (f0 & f1 & f2 & w & vx & Hf & H0 & H1 & H2 & Hvx & _ & Hsem).
  exists f0, f1, f2, (t1_in0 w), (t1_in1 w), (t1_in2 w), vx.
  do 5 (split; [done|]).
  intros s Hs. destruct (Hsem s Hs) as (Hmem & HT & Hsol).
  destruct Hsol as (_ & Hmin & Hmed & Hmax & _).
  cbv zeta in *. rewrite <- med3_median. rewrite HT in Hmin, Hmed, Hmax.
  by split.
Qed.


Example t1_lines_run :
  run_lines 4 ["PI,1,2"; "3,1,1|2"; "4|5|0|0|0,4,~1|3|2"]
  = Some (t1_sigs, [t1_example_cell], t1_built, t1_model).
Proof. vm_compute. reflexivity. Qed.

Lemma t1_example_wf : t1_groups_wf t1_sigs [t1_example_cell].
Proof.
  split; [|split; [|split]].
  - apply (bool_decide_unpack _). vm_compute. exact I.
  - intros k g Hin.
    repeat (apply elem_of_cons in Hin as [Hin|Hin]; [by simplify_eq|]).
    by apply elem_of_nil in Hin.
  - intros c ->%list_elem_of_singleton. split; [by eexists|].
    exists [1; 3; 2], [true; false; false]. intros k Hk.
    repeat (apply elem_of_cons in Hk as [->|Hk]; [by eexists|]).
    by apply elem_of_nil in Hk.
  - intros c1 c2 k ->%list_elem_of_singleton ->%list_elem_of_singleton.
    done.
Qed.

Lemma T1_members_share_bounded_timing_witness :
  t1_timing_rule t1_sigs t1_built t1_model t1_example_cell 4
    [1; 3; 2] [true; false; false].
Proof.
  apply (T1_members_share_bounded_timing 4 t1_sigs [t1_example_cell]
           t1_built t1_model t1_example_cell 4 t1_xor).
  - vm_compute. reflexivity.
  - exact t1_example_wf.
  - left.
  - reflexivity.
  - reflexivity.
Defined.




(** *** The parser *)

Lemma od_set_In {K V} `{EqDecision K} (d : list (K * V)) k v k' v' :
  (k', v') ∈ od_set d k v -> (k', v') = (k, v) \/ (k', v') ∈ d.
Proof.
  induction d as [|[k0 v0] d IH]; simpl.
  - intros ->%list_elem_of_singleton. by left.
  - destruct (decide (k0 = k)) as [->|Hne].
    + intros [->|Hin]%elem_of_cons; [by left|]. right. by right.
    + intros [->|Hin]%elem_of_cons; [right; left|].
      destruct (IH Hin) as [?|?]; [by left|]. right. by right.
Qed.

Lemma items_wf_nil : items_wf [].
Proof.
  split; [apply NoDup_nil_2|]. intros k g Hin. by apply elem_of_nil in Hin.
Qed.

Lemma items_wf_set items _sig _type _fanins _in_neg :
  items_wf items ->
  items_wf (od_set items _sig (Primitive_init _sig _type _fanins _in_neg)).
Proof.
  intros [Hnd Hall]. split; [by apply od_set_NoDup|].
  intros k g [Heq|Hin]%od_set_In; [|by apply Hall].
  injection Heq as -> ->. split; [done|]. simpl. by intros ->.
Qed.

Section parse_facts.
Variable py_int : string -> result Z.

Lemma result_bind_Ok {A B} (r : result A) (f : A -> result B) b :
  r ≫= f = Ok b -> exists a, r = Ok a /\ f a = Ok b.
Proof. destruct r as [a|e]; [by exists a|discriminate]. Qed.

Lemma parse_pis_wf toks : forall items items',
  items_wf items -> parse_pis py_int toks items = Ok items' ->
  items_wf items'.
Proof.
  induction toks as [|tok toks IH]; intros items items' Hwf; simpl.
  - by intros [= <-].
  - intros (_sig & _ & Hrest)%result_bind_Ok.
    eapply IH; [|exact Hrest]. by apply items_wf_set.
Qed.

Lemma parse_t1_outputs_wf _type _fanins _in_neg pairs :
  forall items sib items' sib',
  items_wf items ->
  parse_t1_outputs py_int _type _fanins _in_neg pairs items sib
    = Ok (items', sib') ->
  items_wf items'.
Proof.
  induction pairs as [|[key str] pairs IH];
    intros items sib items' sib' Hwf; simpl.
  - by intros [= <- _].
  - destruct (String.eqb str "0"); [by apply IH|].
    intros (_sig & _ & Hrest)%result_bind_Ok.
    eapply IH; [|exact Hrest]. by apply items_wf_set.
Qed.

Lemma parse_line_wf items cells line items' cells' :
  items_wf items ->
  parse_line py_int (items, cells) line = Ok (items', cells') ->
  items_wf items'.
Proof.
  intros Hwf. unfold parse_line.
  destruct (py_split "," (py_strip line)) as [|s1 [|s2 [|s3 [|? ?]]]];
    try discriminate.
  intros (_type & _ & Hrun)%result_bind_Ok.
  destruct (py_contains "|" s1).
  - destruct (negb (String.eqb s2 "4")); [discriminate|].
    apply result_bind_Ok in Hrun as ([F N] & _ & Hrun).
    apply result_bind_Ok in Hrun as ([items1 sib] & Hout & Hrun).
    destruct (negb _); [discriminate|]. injection Hrun as <- _.
    by eapply parse_t1_outputs_wf.
  - destruct (String.eqb s2 "4"); [discriminate|].
    apply result_bind_Ok in Hrun as (F & _ & Hrun).
    apply result_bind_Ok in Hrun as (_sig & _ & Hrun).
    apply result_bind_Ok in Hrun as (_type' & _ & Hrun).
    injection Hrun as <- _. by apply items_wf_set.
Qed.

Lemma parse_lines_wf lines : forall items cells items' cells',
  items_wf items ->
  parse_lines py_int lines (items, cells) = Ok (items', cells') ->
  items_wf items'.
Proof.
  induction lines as [|line lines IH]; intros items cells items' cells' Hwf;
    simpl.
  - by intros [= <- _].
  - intros ([items1 cells1] & Hline & Hrest)%result_bind_Ok.
    eapply IH; [|exact Hrest]. by eapply parse_line_wf.
Qed.

Lemma parse_specs_wf lines all_signals all_t1_cells :
  parse_specs py_int lines = Ok (all_signals, all_t1_cells) ->
  items_wf all_signals.
Proof.
  unfold parse_specs. destruct lines as [|pi_line rest]; [discriminate|].
  intros (items & Hpis & Hrest)%result_bind_Ok.
  eapply parse_lines_wf; [|exact Hrest].
  eapply parse_pis_wf; [|exact Hpis]. apply items_wf_nil.
Qed.
End parse_facts.

(** *** Signals without fanins *)

Lemma Primitive_init_no_fanins _sig _type _in_neg :
  type (Primitive_init _sig _type [] _in_neg) = PI.
Proof. reflexivity. Qed.

Lemma items_wf_sigs items :
  items_wf items -> NoDup (map sig_of (od_values items)).
Proof.
  intros [Hnd Hall].
  assert (Heq : map sig_of (od_values items) = od_keys items).
  { unfold od_values, od_keys. rewrite map_map.
    apply map_ext_in. intros [k g] Hin%list_elem_of_In. simpl.
    by apply Hall. }
  by rewrite Heq.
Qed.

(** C10: in the [phase_assignment.py] parser, every signal constructed
    with an empty fanin list has type PI, whatever type code its line
    declares, and so, for a phase count the engine takes, gets a timing
    variable bounded in [0, NPH - 1] and no constraint of a typed
    gate. *)
Theorem empty_fanins_become_PI py_int NPH lines all_signals all_t1_cells
    k g :
  phase_count_ok NPH ->
  parse_specs py_int lines = Ok (all_signals, all_t1_cells) ->
  (k, g) ∈ all_signals -> fanins g = [] ->
  treated_as_PI NPH all_signals g.
Proof.
  intros _ Hparse Hin Hf.
  pose proof (parse_specs_wf _ _ _ _ Hparse) as Hwf.
  pose proof (items_wf_sigs _ Hwf) as Hnd.
  destruct Hwf as [_ Hall]. destruct (Hall k g Hin) as [Hk Hpi].
  specialize (Hpi Hf). split; [done|]. split.
  - assert (Hg : g ∈ od_values all_signals).
    { unfold od_values. apply list_elem_of_fmap. by exists (k, g). }
    apply list_elem_of_lookup in Hg as [i Hi].
    exists (alloc_Sigma (od_values all_signals) 0 []),
      (alloc_fanout (od_values all_signals) ∅),
      (mkCpModel (map (sigma_decl NPH) (od_values all_signals)) [] None),
      i, (sigma_decl NPH g).
    split; [apply (alloc_run (P:=Primitive))|]. split.
    + exact (alloc_Sigma_own (P:=Primitive) _ 0 [] i g Hnd Hi).
    + split.
      * simpl. by rewrite list_lookup_fmap, Hi.
      * unfold sigma_decl. simpl. by rewrite Hpi.
  - intros cells Sigma fanout [ex ap] m. unfold encode_gate.
    by rewrite Hpi.
Qed.

Lemma empty_fanins_become_PI_witness :
  treated_as_PI 2
    [(1, mkPrimitive 1 PI [] []); (2, mkPrimitive 2 PI [] [])]
    (mkPrimitive 2 PI [] []).
Proof.
  apply (empty_fanins_become_PI dec_int 2 bare_gate_lines
           [(1, mkPrimitive 1 PI [] []); (2, mkPrimitive 2 PI [] [])] []
           2 (mkPrimitive 2 PI [] [])).
  - split; reflexivity.
  - vm_compute. reflexivity.
  - right. left.
  - reflexivity.
Defined.

(** *** Determinism of the construction *)




(** The variables of the model, counted. *)










(** The count on the worked T1 cell: five signals (two PIs, an AA gate
    and the two outputs of the cell), the two variables of the AA gate
    and the 18 of the cell. *)
Example t1_variable_count :
  length (variables t1_model) = variable_count t1_sigs [t1_example_cell] /\
  variable_count t1_sigs [t1_example_cell] = 25%nat.
Proof. vm_compute. auto. Qed.

(** *** Inputs the construction accepts *)

Lemma total_ret {A} (x : A) : total (mret x).
Proof. intros m. by exists x, m. Qed.

Lemma total_bind {A B} (c : M A) (f : A -> M B) :
  total c -> (forall a, total (f a)) -> total (c ≫= f).
Proof.
  intros Hc Hf m. destruct (Hc m) as (a & m1 & H1).
  destruct (Hf a m1) as (b & m2 & H2). exists b, m2.
  unfold mbind, M_bind. by rewrite H1.
Qed.

Lemma total_bind_post {A B} (c : M A) (f : A -> M B) (Q : A -> Prop) :
  total c -> (forall m a m', c m = Ok (a, m') -> Q a) ->
  (forall a, Q a -> total (f a)) -> total (c ≫= f).
Proof.
  intros Hc HQ Hf m. destruct (Hc m) as (a & m1 & H1).
  destruct (Hf a (HQ _ _ _ H1) m1) as (b & m2 & H2). exists b, m2.
  unfold mbind, M_bind. by rewrite H1.
Qed.

Lemma total_NewIntVar lb ub name : total (NewIntVar lb ub name).
Proof. intros m. by eexists _, _. Qed.

Lemma total_new_sigma_var name : total (new_sigma_var name).
Proof. apply total_NewIntVar. Qed.

Lemma total_NewBoolVar name : total (NewBoolVar name).
Proof. apply total_NewIntVar. Qed.

Lemma total_Add c : total (Add c).
Proof. intros m. by eexists _, _. Qed.

Lemma total_Minimize e : total (Minimize e).
Proof. intros m. by eexists _, _. Qed.

Lemma total_lift {A} (r : result A) a : r = Ok a -> total (lift r).
Proof. intros -> m. by exists a, m. Qed.

Lemma total_index {V} (d : list (Z * V)) k :
  is_Some (od_get d k) -> total (lift (od_index d k)).
Proof.
  intros [v Hv]. apply (total_lift _ v). unfold od_index. by rewrite Hv.
Qed.

Lemma total_for_each {A S} (l : list A) (body : S -> A -> M S) :
  (forall s x, x ∈ l -> total (body s x)) ->
  forall s, total (for_each l body s).
Proof.
  induction l as [|x l IH]; intros Hb s; simpl.
  - apply total_ret.
  - apply total_bind; [apply Hb; left|].
    intros s'. apply IH. intros s0 x0 Hin. apply Hb. by right.
Qed.

Create HintDb total discriminated.
#[global] Hint Resolve total_ret total_NewIntVar total_new_sigma_var
  total_NewBoolVar total_Add total_Minimize : total.

Section accepts.
Variable NPH : Z.
Variable all_signals : list (Z * Primitive).
Variable all_t1_cells : list t1_cell.
Variable Sigma : list (Z * nat).
Variable fanout : gmap Z Z.

(** Every id of the signal table has a timing variable, and every
    signal is stored under its id. *)
Hypothesis Sigma_total :
  forall k, k ∈ od_keys all_signals -> is_Some (od_get Sigma k).
Hypothesis keys_sig :
  forall k g, (k, g) ∈ all_signals -> sig g = k.

Local Abbreviation gate_resolved := (gate_resolved all_signals all_t1_cells).

Lemma total_sigma_of k :
  k ∈ od_keys all_signals -> total (sigma_of Sigma k).
Proof. intros Hk. apply total_index. by apply Sigma_total. Qed.

Lemma total_signal k :
  k ∈ od_keys all_signals -> total (lift (od_index all_signals k)).
Proof. intros Hk. apply total_index. by apply od_keys_get. Qed.

Lemma index_sig k p :
  od_index all_signals k = Ok p -> sig p = k.
Proof. intros Hp%od_index_Ok. apply keys_sig. by apply od_get_In. Qed.

Lemma lift_index_sig k p m m' :
  lift (od_index all_signals k) m = Ok (p, m') -> sig p = k.
Proof. intros [Hp _]%lift_Ok. by apply index_sig. Qed.

(** Closes a goal [total c] along the structure of [c]; the ids looked
    up must be known to be in the table. *)
Ltac total_step :=
  match goal with
  | |- total (lift (od_index all_signals _) ≫= _) =>
      eapply (total_bind_post _ _ (fun p => sig p ∈ od_keys all_signals));
      [apply total_signal; assumption
      |intros ? ? ? ->%lift_index_sig; assumption
      |intros ? ?]
  | |- total (_ ≫= _) => apply total_bind; [|intros ?]
  | |- total (sigma_of _ _) => apply total_sigma_of; assumption
  | |- total (if ?c then _ else _) => destruct c
  | |- total _ => solve [auto with total]
  end.

Lemma encode_AA_total g ex a_sig b_sig :
  sig g ∈ od_keys all_signals ->
  fanins g = [a_sig; b_sig] ->
  a_sig ∈ od_keys all_signals -> b_sig ∈ od_keys all_signals ->
  total (encode_AA NPH all_signals Sigma g ex).
Proof.
  intros Hg Hf Ha Hb. unfold encode_AA. simpl. rewrite Hf.
  repeat total_step.
Qed.

Lemma encode_AS_total g ex :
  sig g ∈ od_keys all_signals ->
  (forall p, p ∈ fanins g -> p ∈ od_keys all_signals) ->
  total (encode_AS NPH Sigma g ex).
Proof.
  intros Hg Hf. unfold encode_AS. apply total_for_each.
  intros ex0 p Hp%Hf. unfold encode_AS_edge. simpl in *.
  repeat total_step.
Qed.

Lemma encode_SA_total g ex :
  sig g ∈ od_keys all_signals ->
  (forall p, p ∈ fanins g -> p ∈ od_keys all_signals) ->
  total (encode_SA NPH all_signals Sigma fanout g ex).
Proof.
  intros Hg Hf. unfold encode_SA. apply total_for_each.
  intros ex0 p Hp%Hf. unfold encode_SA_edge. simpl in *.
  repeat total_step.
Qed.

Lemma incr_loop_succeeds pairs : forall i incr,
  (forall p n, (p, n) ∈ pairs -> p ∈ od_keys all_signals) ->
  exists incr', incr_loop all_signals i pairs incr = Ok incr'.
Proof.
  induction pairs as [|[p n] pairs IH]; intros i incr Hp; simpl.
  - by eexists.
  - destruct (od_keys_get all_signals p) as [pp Hpp].
    { apply (Hp p n). left. }
    unfold od_index. rewrite Hpp. simpl. apply IH.
    intros p' n' Hin. apply (Hp p' n'). by right.
Qed.

Lemma place_loop_total T vals u :
  (forall k, k ∈ vals -> k ∈ od_keys all_signals) ->
  total (for_each vals (place_sibling Sigma T) u).
Proof.
  intros Hv. apply total_for_each. intros [] k Hk%Hv.
  unfold place_sibling. repeat total_step.
Qed.

Lemma encode_FA_total g st cell f0 f1 f2 :
  cell ∈ all_t1_cells -> sig g ∈ od_values cell ->
  fanins g = [f0; f1; f2] ->
  (forall p, p ∈ fanins g -> p ∈ od_keys all_signals) ->
  (forall c k, c ∈ all_t1_cells -> k ∈ od_values c ->
               k ∈ od_keys all_signals) ->
  total (encode_FA NPH all_signals all_t1_cells Sigma g st).
Proof.
  intros Hcell Hmem Hf Hp Hcells. destruct st as [ex ap].
  unfold encode_FA.
  destruct (bool_decide (sig g ∈ ap)); [apply total_ret|].
  assert (Hfind : exists c, find_cell all_t1_cells (sig g) = Ok c).
  { unfold find_cell.
    destruct (find _ all_t1_cells) as [c|] eqn:Hfind; [by eexists|].
    exfalso. apply list_elem_of_In in Hcell.
    pose proof (find_none _ _ Hfind _ Hcell) as Hno. simpl in Hno.
    by rewrite bool_decide_eq_true_2 in Hno. }
  destruct Hfind as [c Hc].
  pose proof (find_cell_Ok _ _ _ Hc) as [Hcin _].
  eapply (total_bind_post _ _ (fun c' => c' = c)).
  { by apply (total_lift _ c). }
  { intros m c' m' [Hc' _]%lift_Ok. congruence. }
  intros ? ->. rewrite Hf.
  destruct (incr_loop_succeeds (zip [f0; f1; f2] (in_neg g)) 0 [0; 0; 0])
    as [incr Hincr].
  { intros p n Hin. apply Hp. rewrite Hf.
    by apply elem_of_zip_l in Hin. }
  apply total_bind; [by apply (total_lift _ incr)|intros ?].
  assert (H0 : f0 ∈ od_keys all_signals) by (apply Hp; rewrite Hf; left).
  assert (H1 : f1 ∈ od_keys all_signals)
    by (apply Hp; rewrite Hf; right; left).
  assert (H2 : f2 ∈ od_keys all_signals)
    by (apply Hp; rewrite Hf; do 2 right; left).
  cbv zeta.
  repeat (apply total_bind;
          [first [solve [auto with total]
                 |apply total_sigma_of; assumption]
          |intros ?]).
  apply total_bind; [|intros ?; apply total_ret].
  apply place_loop_total. intros k Hk. by apply (Hcells c).
Qed.

Lemma encode_gate_total st g :
  sig g ∈ od_keys all_signals -> gate_resolved g ->
  total (encode_gate NPH all_signals all_t1_cells Sigma fanout st g).
Proof.
  intros Hg Hres. unfold encode_gate, gate_resolved in *.
  destruct st as [ex ap]. destruct (type g).
  - apply total_ret.
  - destruct Hres as (a_sig & b_sig & Hf & Ha & Hb).
    apply total_bind; [by eapply encode_AA_total|intros ?].
    apply total_ret.
  - apply total_bind; [by apply encode_AS_total|intros ?].
    apply total_ret.
  - apply total_bind; [by apply encode_SA_total|intros ?].
    apply total_ret.
  - destruct Hres as ((cell & Hc & Hm) & (f0 & f1 & f2 & Hf) & Hp & Hcs).
    by eapply encode_FA_total.
Qed.
End accepts.

Lemma keys_of_values (all_signals : list (Z * Primitive)) :
  (forall k g, (k, g) ∈ all_signals -> sig g = k) ->
  map sig_of (od_values all_signals) = od_keys all_signals.
Proof.
  intros Hall. unfold od_values, od_keys. rewrite map_map.
  apply map_ext_in. intros [k g] Hin%list_elem_of_In. simpl. by apply Hall.
Qed.

Lemma forallb_elem_of {A} (f : A -> bool) (l : list A) :
  forallb f l = true -> forall x, x ∈ l -> f x = true.
Proof.
  intros H x Hx. apply list_elem_of_In in Hx.
  by apply (proj1 (forallb_forall f l) H).
Qed.

Lemma known_elem_of (keys : list Z) (l : list Z) :
  forallb (fun p => bool_decide (p ∈ keys)) l = true ->
  forall p, p ∈ l -> p ∈ keys.
Proof.
  intros H p Hp. pose proof (forallb_elem_of _ _ H p Hp) as Hk.
  by apply bool_decide_eq_true in Hk.
Qed.

Lemma gate_resolvedb_sound all_signals all_t1_cells g :
  gate_resolvedb all_signals all_t1_cells g = true ->
  gate_resolved all_signals all_t1_cells g.
Proof.
  unfold gate_resolvedb, gate_resolved. cbv zeta.
  destruct (type g); [done|..].
  - destruct (fanins g) as [|a_sig [|b_sig [|]]]; try done.
    intros [Ha Hb]%andb_prop. exists a_sig, b_sig.
    apply bool_decide_eq_true in Ha. by apply bool_decide_eq_true in Hb.
  - apply known_elem_of.
  - apply known_elem_of.
  - intros [[[Hc Hl]%andb_prop Hf]%andb_prop Hcs]%andb_prop.
    repeat split.
    + apply existsb_exists in Hc as (cell & Hin & Hm).
      exists cell. split; [by apply list_elem_of_In|].
      by apply bool_decide_eq_true in Hm.
    + destruct (fanins g) as [|f0 [|f1 [|f2 [|]]]]; try done.
      by exists f0, f1, f2.
    + by apply known_elem_of.
    + intros c k Hin Hk.
      by apply (known_elem_of _ _ (forallb_elem_of _ _ Hcs c Hin)).
Qed.

Lemma references_resolveb_sound all_signals all_t1_cells :
  references_resolveb all_signals all_t1_cells = true ->
  references_resolve all_signals all_t1_cells.
Proof.
  intros H. split.
  - intros k g Hin.
    apply (forallb_elem_of _ _ H) in Hin as [Hk _]%andb_prop.
    by apply bool_decide_eq_true in Hk.
  - intros g Hg. unfold od_values in Hg.
    apply list_elem_of_fmap in Hg as ([k g'] & -> & Hin).
    apply (forallb_elem_of _ _ H) in Hin as [_ Hr]%andb_prop.
    by apply gate_resolvedb_sound.
Qed.

(** The gate loop runs to its end on a table whose references
    resolve. *)
Lemma construct_resolved_Ok NPH all_signals all_t1_cells :
  references_resolve all_signals all_t1_cells ->
  exists b m, construct NPH all_signals all_t1_cells = Ok (b, m).
Proof.
  intros [Hkey Hres].
  unfold construct, build.
  assert (Hin : forall g, g ∈ od_values all_signals ->
                  sig g ∈ od_keys all_signals).
  { intros g Hg. unfold od_values in Hg.
    apply list_elem_of_fmap in Hg as ([k g'] & -> & Hin). simpl.
    rewrite (Hkey _ _ Hin). unfold od_keys.
    apply list_elem_of_fmap. by exists (k, g'). }
  assert (Hkeys : forall k, k ∈ od_keys all_signals ->
                    is_Some (od_get (Sigma0 all_signals) k)).
  { intros k Hk. rewrite <- (keys_of_values _ Hkey) in Hk.
    destruct (alloc_Sigma_in _ 0 [] k Hk) as (i & g & Hget & _).
    unfold Sigma0. by rewrite Hget. }
  destruct (total_for_each (od_values all_signals)
              (encode_gate NPH all_signals all_t1_cells
                 (Sigma0 all_signals) (fanout0 all_signals))
              (fun st g Hg => encode_gate_total NPH all_signals all_t1_cells
                 (Sigma0 all_signals) (fanout0 all_signals) Hkeys Hkey
                 st g (Hin g Hg) (Hres g Hg))
              ([], []) (model0 NPH all_signals))
    as ([ex ap] & m' & Hloop).
  unfold mbind at 1, M_bind at 1. rewrite alloc_run.
  fold (Sigma0 all_signals) (fanout0 all_signals) (model0 NPH all_signals).
  unfold mbind at 1, M_bind at 1. rewrite Hloop.
  by eexists _, _.
Qed.

(** C6 (as the code has it): for a phase count the engine takes, the
    construction of [phase_assignment.py] completes for every signal
    table whose references resolve, with or without a cycle among the
    fanin references, and the run of the script on a file with these
    tables calls the solver on the model and reports its answer: the
    script has no check for cycles. *)
Theorem construction_accepts_resolved_references NPH all_signals
    all_t1_cells :
  phase_count_ok NPH ->
  references_resolve all_signals all_t1_cells ->
  exists b m,
    construct NPH all_signals all_t1_cells = Ok (b, m) /\
    forall py_int Solve lines,
      parse_specs py_int lines = Ok (all_signals, all_t1_cells) ->
      main py_int Solve NPH lines =
      Ok (report m (b_Sigma b) (Solve m), report m (b_Sigma b) (Solve m)).
Proof.
  intros _ Hres.
  destruct (construct_resolved_Ok NPH _ _ Hres) as (b & m & Hc).
  exists b, m. split; [done|].
  intros py_int Solve lines Hparse. unfold main.
  unfold mbind at 1, result_bind at 1. rewrite Hparse.
  unfold mbind at 1, result_bind at 1. by rewrite Hc.
Qed.

Example cyc_lines_run :
  run_lines 2 cyc_lines = Some (cyc_sigs, [], cyc_built, cyc_model).
Proof. vm_compute. reflexivity. Qed.

Example cyc_is_cyclic : cyclic cyc_sigs.
Proof.
  exists 2. apply (reaches_trans _ 2 3 2).
  - apply (reaches_fanin _ 2 (mkPrimitive 2 AS [3] []) 3); [done|]. left.
  - apply (reaches_fanin _ 3 (mkPrimitive 3 AS [2] []) 2); [done|]. left.
Qed.

Lemma construction_accepts_resolved_references_witness :
  references_resolve cyc_sigs [] /\
  exists b m,
    construct 2 cyc_sigs [] = Ok (b, m) /\
    forall py_int Solve lines,
      parse_specs py_int lines = Ok (cyc_sigs, []) ->
      main py_int Solve 2 lines =
      Ok (report m (b_Sigma b) (Solve m), report m (b_Sigma b) (Solve m)).
Proof.
  assert (H : references_resolve cyc_sigs []).
  { apply references_resolveb_sound. vm_compute. reflexivity. }
  split; [exact H|].
  apply (construction_accepts_resolved_references 2 cyc_sigs []); [|exact H].
  split; reflexivity.
Defined.

(** The cyclic table above is not rejected: the construction returns its
    model. *)
Lemma cyclic_input_not_rejected : ~ cycle_rejected 2 cyc_sigs [].
Proof.
  intros H. destruct (H cyc_is_cyclic) as [e He].
  vm_compute in He. discriminate He.
Qed.

(** The whole run on these lines calls the engine, on [cyc_model], and
    reports what it answers. *)
Example cyc_main (Solve : CpModel -> response) :
  main dec_int Solve 2 cyc_lines =
  Ok (report cyc_model (b_Sigma cyc_built) (Solve cyc_model),
      report cyc_model (b_Sigma cyc_built) (Solve cyc_model)).
Proof. reflexivity. Qed.

(** What the engine is given has no solution: each gate is to be
    strictly later than the other. *)
Example cyc_model_infeasible (s : assignment) : ~ feasible s cyc_model.
Proof.
  intros [_ Hc]. unfold cyc_model in Hc. cbn [constraints] in Hc.
  apply Forall_cons in Hc as [H1 Hc].
  do 2 apply Forall_cons in Hc as [_ Hc].
  apply Forall_cons in Hc as [H2 _].
  specialize (H1 (Forall_nil_2 _)). specialize (H2 (Forall_nil_2 _)).
  simpl in H1, H2. lia.
Qed.

(** An id that is in no line of the file is the one reference the
    construction refuses. *)
Example absent_fanin_raises :
  construct 2 [(1, mkPrimitive 1 PI [] []); (2, mkPrimitive 2 AS [7] [])] []
  = Raise KeyError.
Proof. vm_compute. reflexivity. Qed.

(** *** The tables the parser returns *)

Lemma od_keys_set_mono {V} (d : list (Z * V)) k v k' :
  k' ∈ od_keys d -> k' ∈ od_keys (od_set d k v).
Proof.
  intros Hk. rewrite od_keys_set. case_bool_decide; [done|].
  apply elem_of_app. by left.
Qed.

Lemma od_keys_set_new {V} (d : list (Z * V)) k v :
  k ∈ od_keys (od_set d k v).
Proof. apply (od_get_Some_keys _ _ v), od_get_set_eq. Qed.

Lemma od_values_set {K V} `{EqDecision K} (d : list (K * V)) k v v' :
  v' ∈ od_values (od_set d k v) -> v' = v \/ v' ∈ od_values d.
Proof.
  unfold od_values. intros ([k0 v0] & -> & Hin)%list_elem_of_fmap.
  apply od_set_In in Hin as [Heq|Hin].
  - left. by injection Heq.
  - right. apply list_elem_of_fmap. by exists (k0, v0).
Qed.

Lemma cells_wf_keys items items' cells :
  (forall k, k ∈ od_keys items -> k ∈ od_keys items') ->
  cells_wf items cells -> cells_wf items' cells.
Proof.
  intros Hsub Hc c Hin. destruct (Hc c Hin) as [Hx Hk].
  split; [done|]. intros k Hkc. by apply Hsub, Hk.
Qed.

Section parsed_cells.
Variable py_int : string -> result Z.

Lemma parse_t1_outputs_keys _type _fanins _in_neg pairs :
  forall items sib items' sib',
  parse_t1_outputs py_int _type _fanins _in_neg pairs items sib
    = Ok (items', sib') ->
  (forall k, k ∈ od_keys items -> k ∈ od_keys items') /\
  ((forall k, k ∈ od_values sib -> k ∈ od_keys items) ->
   forall k, k ∈ od_values sib' -> k ∈ od_keys items').
Proof.
  induction pairs as [|[_key _sig_str] pairs IH];
    intros items sib items' sib' Hrun; simpl in Hrun.
  - by simplify_eq.
  - destruct (String.eqb _sig_str "0"); [by apply IH|].
    apply result_bind_Ok in Hrun as (_sig & Hint & Hrun).
    apply IH in Hrun as [Hmono Hsib]. split.
    + intros k Hk. by apply Hmono, od_keys_set_mono.
    + intros Hold k Hk. apply Hsib; [|done].
      intros k0 [->|Hk0]%od_values_set.
      * apply od_keys_set_new.
      * by apply od_keys_set_mono, Hold.
Qed.

Lemma parse_line_cells items cells line items' cells' :
  cells_wf items cells ->
  parse_line py_int (items, cells) line = Ok (items', cells') ->
  cells_wf items' cells'.
Proof.
  intros Hwf Hrun. unfold parse_line in Hrun.
  destruct (py_split "," (py_strip line)) as [|a [|t [|f [|? ?]]]];
    try discriminate.
  apply result_bind_Ok in Hrun as (_type & Hty & Hrun).
  destruct (py_contains "|" a).
  - destruct (negb (String.eqb t "4")); [discriminate|].
    apply result_bind_Ok in Hrun as ([_fanins _in_neg] & Hf & Hrun).
    apply result_bind_Ok in Hrun as ([items1 sib] & Hout & Hrun).
    destruct (negb (bool_decide (is_Some (od_get sib "XOR")))) eqn:Hx;
      [discriminate|].
    injection Hrun as <- <-.
    apply parse_t1_outputs_keys in Hout as [Hmono Hsib].
    intros c [Hc|Hc]%elem_of_app.
    + by apply (cells_wf_keys items items1 cells).
    + apply list_elem_of_singleton in Hc as ->. split.
      * apply negb_false_iff in Hx. by apply bool_decide_eq_true in Hx.
      * apply Hsib. intros k Hk. by apply elem_of_nil in Hk.
  - destruct (String.eqb t "4"); [discriminate|].
    apply result_bind_Ok in Hrun as (_fanins & Hf & Hrun).
    apply result_bind_Ok in Hrun as (_sig & Hs & Hrun).
    apply result_bind_Ok in Hrun as (_type' & Hty' & Hrun).
    injection Hrun as <- <-.
    eapply cells_wf_keys; [|exact Hwf].
    intros k. apply od_keys_set_mono.
Qed.

Lemma parse_lines_cells lines : forall items cells items' cells',
  cells_wf items cells ->
  parse_lines py_int lines (items, cells) = Ok (items', cells') ->
  cells_wf items' cells'.
Proof.
  induction lines as [|line lines IH]; intros items cells items' cells' Hwf;
    simpl.
  - intros [= <- <-]. done.
  - intros ([items1 cells1] & Hline & Hrest)%result_bind_Ok.
    eapply IH; [|exact Hrest]. by eapply parse_line_cells.
Qed.

(** X1: The tables [parse_specs] returns, whatever the lines are and whatever
    reader of integers is used: the signals have distinct ids, each is
    stored under its own id, and none is a typed gate without fanins;
    every T1 cell has an XOR output, and every output of a cell is an id
    of the signal table, so that the loop that places the outputs of a
    cell never asks [Sigma] for an unknown id. *)
Theorem parsed_tables_well_formed lines all_signals all_t1_cells :
  parse_specs py_int lines = Ok (all_signals, all_t1_cells) ->
  items_wf all_signals /\ cells_wf all_signals all_t1_cells.
Proof.
  intros Hrun. split; [by eapply parse_specs_wf|].
  unfold parse_specs in Hrun.
  destruct lines as [|pi_line rest]; [discriminate|].
  apply result_bind_Ok in Hrun as (items & Hpis & Hrest).
  eapply parse_lines_cells; [|exact Hrest].
  intros c Hc. by apply elem_of_nil in Hc.
Qed.
End parsed_cells.

Lemma parsed_tables_well_formed_witness :
  items_wf t1_sigs /\ cells_wf t1_sigs [t1_example_cell].
Proof.
  apply (parsed_tables_well_formed dec_int
           ["PI,1,2"; "3,1,1|2"; "4|5|0|0|0,4,~1|3|2"]).
  vm_compute. reflexivity.
Defined.

(** *** The timing variables and the fanout counts *)

Lemma construct_first_loop NPH all_signals all_t1_cells b m i g :
  construct NPH all_signals all_t1_cells = Ok (b, m) ->
  od_values all_signals !! i = Some g ->
  variables m !! i = Some (sigma_decl NPH g).
Proof.
  intros (_ & _ & ap & mf & Hloop & Hv & _)%construct_inv Hi.
  pose proof (for_each_rel grows2 _ _
                (encode_gate_grows _ _ _ _ _) _ _ _ _ Hloop)
    as (_ & _ & Hext).
  simpl in Hext. rewrite Hv. eapply extends_lookup; [exact Hext|].
  unfold model0. cbn [variables].
  change (map (sigma_decl NPH) (od_values all_signals))
    with (sigma_decl NPH <$> od_values all_signals).
  by rewrite list_lookup_fmap, Hi.
Qed.

(** X5: With a phase count that is not positive, a table with a PI gives a
    model without solution: the timing variable of a PI is bounded by
    [0] and [NPH - 1]. *)
Theorem nonpositive_phase_count_infeasible NPH all_signals all_t1_cells b m
    g s :
  construct NPH all_signals all_t1_cells = Ok (b, m) ->
  g ∈ od_values all_signals -> type g = PI -> NPH <= 0 ->
  ~ feasible s m.
Proof.
  intros Hrun [i Hi]%list_elem_of_lookup Ht Hn Hs.
  pose proof (construct_first_loop _ _ _ _ _ _ _ Hrun Hi) as Hl.
  pose proof (feasible_bounds _ _ _ _ Hs Hl) as Hb.
  unfold sigma_decl in Hb. simpl in Hb. rewrite Ht in Hb. simpl in Hb. lia.
Qed.

Lemma nonpositive_phase_count_infeasible_witness :
  construct 0 [(1, mkPrimitive 1 PI [] [])] [] =
    Ok (mkBuilt [(1, 0%nat)] ∅ [],
        mkCpModel [mkIntVar 0 (-1) "SIGMA_1"] [] (Some (EConst 0))) /\
  ~ feasible (assign [0])
      (mkCpModel [mkIntVar 0 (-1) "SIGMA_1"] [] (Some (EConst 0))).
Proof.
  assert (H : construct 0 [(1, mkPrimitive 1 PI [] [])] [] =
    Ok (mkBuilt [(1, 0%nat)] ∅ [],
        mkCpModel [mkIntVar 0 (-1) "SIGMA_1"] [] (Some (EConst 0))))
    by (vm_compute; reflexivity).
  split; [exact H|].
  apply (nonpositive_phase_count_infeasible 0
           [(1, mkPrimitive 1 PI [] [])] []
           (mkBuilt [(1, 0%nat)] ∅ []) _ (mkPrimitive 1 PI [] [])
           (assign [0]) H).
  - apply list_elem_of_In. vm_compute. auto.
  - reflexivity.
  - lia.
Defined.

(** X2: Every signal of a well-formed table has a timing variable of its
    own, named [SIGMA_] and its id, bounded by [0] and [NPH - 1] for a PI
    and by [0] and [1000] for a gate. *)
Theorem every_signal_has_timing_variable NPH all_signals all_t1_cells b m
    g :
  construct NPH all_signals all_t1_cells = Ok (b, m) ->
  items_wf all_signals -> g ∈ od_values all_signals ->
  sigma_declared NPH b m g.
Proof.
  intros Hrun Hwf [i Hi]%list_elem_of_lookup.
  pose proof (construct_first_loop _ _ _ _ _ _ _ Hrun Hi) as Hl.
  pose proof (construct_inv _ _ _ _ _ Hrun) as (HS & _).
  exists i, (sigma_decl NPH g). rewrite HS. split; [|split; [done|]].
  - exact (alloc_Sigma_own (P:=Primitive) (od_values all_signals) 0 [] i g
             (items_wf_sigs _ Hwf) Hi).
  - unfold sigma_decl. simpl. by destruct (type g).
Qed.

Lemma every_signal_has_timing_variable_witness :
  sigma_declared 2 aa_built aa_model aa_gate.
Proof.
  apply (every_signal_has_timing_variable 2 aa_sigs [] aa_built aa_model
           aa_gate).
  - vm_compute. reflexivity.
  - apply (parse_specs_wf dec_int aa_lines aa_sigs []).
    vm_compute. reflexivity.
  - apply list_elem_of_In. vm_compute. auto.
Defined.

(** X3: The count [fanout[k]] the first loop leaves is the number of times
    [k] is listed as a fanin by the signals that are not PIs. *)
Theorem fanout_counts_fanin_references NPH all_signals all_t1_cells b m k :
  construct NPH all_signals all_t1_cells = Ok (b, m) ->
  default 0 (b_fanout b !! k) = fanout_count all_signals k.
Proof.
  intros (_ & HF & _)%construct_inv. rewrite HF.
  unfold fanout0, fanout_count.
  rewrite (alloc_fanout_count (P:=Primitive)), lookup_empty. simpl. lia.
Qed.

Lemma fanout_counts_fanin_references_witness :
  default 0 (b_fanout sa_built !! 3) = fanout_count sa_sigs 3.
Proof.
  apply (fanout_counts_fanin_references 2 sa_sigs [] sa_built sa_model 3).
  vm_compute. reflexivity.
Defined.

Lemma alloc_Sigma_NoDup {P} `{Gate P} (l : list P) : forall n Sigma,
  NoDup (od_keys Sigma) -> NoDup (od_keys (alloc_Sigma l n Sigma)).
Proof.
  induction l as [|g l IH]; intros n Sigma Hnd; simpl; [done|].
  by apply IH, od_set_NoDup.
Qed.

Lemma alloc_Sigma_named (all_signals : list (Z * Primitive)) k v :
  (k, v) ∈ Sigma0 all_signals ->
  exists g, od_values all_signals !! v = Some g /\ sig g = k.
Proof.
  intros Hin.
  assert (Hget : od_get (Sigma0 all_signals) k = Some v).
  { apply od_In_get; [|done]. apply alloc_Sigma_NoDup. constructor. }
  unfold Sigma0 in Hget.
  destruct (alloc_Sigma_keys (P:=Primitive) _ _ _ _ _ Hget) as [Hk|Hk];
    [|done].
  destruct (alloc_Sigma_in (P:=Primitive) _ 0 [] k Hk)
    as (i & g & Hi & Hl & Hs).
  rewrite Hget in Hi. injection Hi as ->. by exists g.
Qed.

(** X4: Under OPTIMAL or FEASIBLE the report lists, after the status and the
    objective, every id of [Sigma] once, in the order of [Sigma], with the
    value of its timing variable: the id is read back from the name
    [SIGMA_id] of the variable. *)
Theorem report_lists_signal_ids NPH all_signals all_t1_cells b m r :
  construct NPH all_signals all_t1_cells = Ok (b, m) ->
  has_solution (StatusName (r_status r)) = true ->
  report m (b_Sigma b) r = report_lines b r.
Proof.
  intros Hrun Hsol. unfold report, report_lines. rewrite Hsol.
  do 2 f_equal. apply map_ext_in. intros [k v] Hin%list_elem_of_In.
  pose proof (construct_inv _ _ _ _ _ Hrun) as (HS & _).
  rewrite HS in Hin.
  destruct (alloc_Sigma_named _ _ _ Hin) as (g & Hl & <-).
  unfold var_name.
  rewrite (construct_first_loop _ _ _ _ _ _ _ Hrun Hl).
  unfold sigma_decl. simpl. by destruct (type g).
Qed.

Lemma report_lists_signal_ids_witness :
  report aa_model (b_Sigma aa_built) (mkResponse OPTIMAL 1 aa_solution) =
  report_lines aa_built (mkResponse OPTIMAL 1 aa_solution).
Proof.
  apply (report_lists_signal_ids 2 aa_sigs [] aa_built aa_model).
  - vm_compute. reflexivity.
  - reflexivity.
Defined.

(** *** What the construction checks, and what it leaves to the solver *)

(** X6: A model is returned only for a table whose references resolve: an AA
    gate has two fanins, the fanins of the AA, AS and SA gates are ids of
    the table, and a T1 output is listed in a cell.  Together with the
    acceptance of every resolved table, the check of the references is
    the only one the construction makes. *)
Theorem construction_checks_references NPH all_signals all_t1_cells b m g :
  construct NPH all_signals all_t1_cells = Ok (b, m) ->
  (forall k g, (k, g) ∈ all_signals -> sig g = k) ->
  g ∈ od_values all_signals ->
  gate_checked all_signals all_t1_cells g.
Proof.
  intros Hrun Hkeys Hg. unfold gate_checked.
  pose proof (construct_inv _ _ _ _ _ Hrun) as (HS & _ & _).
  destruct (type g) eqn:Ht; [done|..].
  - destruct (construct_gate _ _ _ _ _ _ Hrun Hg)
      as (ex1 & ap1 & m1 & ex2 & ap2 & m2 & mf & Hx & _).
    unfold encode_gate in Hx. rewrite Ht in Hx.
    apply bind_Ok in Hx as (ex' & m' & Hx & _).
    apply (encode_AA_sound (P:=Primitive)) in Hx
      as (a_sig&b_sig&a&b'&sg&sa&sb&t&Hf&Ha&Hb&_).
    exists a_sig, b_sig. split; [done|].
    split; by eapply od_get_Some_keys.
  - intros p Hp.
    destruct (construct_gate _ _ _ _ _ _ Hrun Hg)
      as (ex1 & ap1 & m1 & ex2 & ap2 & m2 & mf & Hx & _).
    unfold encode_gate in Hx. rewrite Ht in Hx.
    apply bind_Ok in Hx as (ex' & m' & Hx & _).
    apply (encode_AS_sound (P:=Primitive)) with (p_sig := p) in Hx
      as (sp&sg&t&Hsp&_); [|done].
    unfold Sigma0 in Hsp.
    apply (alloc_Sigma_keys (P:=Primitive)) in Hsp as [Hk|Hk]; [|done].
    by rewrite <- (keys_of_values _ Hkeys).
  - intros p Hp.
    destruct (construct_gate _ _ _ _ _ _ Hrun Hg)
      as (ex1 & ap1 & m1 & ex2 & ap2 & m2 & mf & Hx & _).
    unfold encode_gate in Hx. rewrite Ht in Hx.
    apply bind_Ok in Hx as (ex' & m' & Hx & _).
    apply (encode_SA_sound (P:=Primitive)) with (p_sig := p) in Hx
      as (p0&sp&sg&t&Hget&_); [|done].
    by eapply od_get_Some_keys.
  - destruct (construct_t1 _ _ _ _ _ _ Hrun Hg Ht)
      as (g0 & cell & w & Hin & Henc).
    exists cell. split; [|done]. by destruct Henc as (_ & _ & ? & _).
Qed.

Lemma construction_checks_references_witness :
  construct 2 sa_sigs [] = Ok (sa_built, sa_model) /\
  gate_checked sa_sigs [] sa_gate.
Proof.
  assert (H : construct 2 sa_sigs [] = Ok (sa_built, sa_model))
    by (vm_compute; reflexivity).
  split; [exact H|].
  apply (construction_checks_references 2 sa_sigs [] sa_built sa_model
           sa_gate H).
  - apply (parse_specs_wf dec_int
             ["PI,1,2"; "3,2,1"; "4,2,2"; "5,3,3|4"] sa_sigs []).
    vm_compute. reflexivity.
  - apply list_elem_of_In. vm_compute. auto 10.
Defined.

(** The order of two ids holds between their timing variables in every
    solution. *)
Lemma precedes_sound NPH all_signals all_t1_cells b m st k k' s :
  construct NPH all_signals all_t1_cells = Ok (b, m) ->
  precedes all_signals (b_fanout b) st k k' ->
  feasible s m ->
  exists v v',
    od_get (b_Sigma b) k = Some v /\ od_get (b_Sigma b) k' = Some v' /\
    if st then s v < s v' else s v <= s v'.
Proof.
  intros Hrun Hp Hs.
  pose proof (construct_inv _ _ _ _ _ Hrun) as (HS & HF & _).
  induction Hp as [g a_sig a Hg Ht Ha Hget|g p_sig Hg Ht Hin
                  |g p_sig p Hg Ht Hin Hget
                  |st1 st2 k1 k2 k3 _ IH1 _ IH2].
  - destruct (construct_gate _ _ _ _ _ _ Hrun Hg)
      as (ex1 & ap1 & m1 & ex2 & ap2 & m2 & mf & Hx & _ & Hext & _ & Hfeas).
    unfold encode_gate in Hx. rewrite Ht in Hx.
    apply bind_Ok in Hx as (ex' & m' & Hx & [? ->]%ret_Ok).
    apply (encode_AA_sound (P:=Primitive)) in Hx
      as (a1&b1&a'&b'&sg&sa&sb&t&Hf&Ha'&Hb'&Hsg&Hsa&Hsb&_&Hsem).
    destruct (Hsem s mf Hext (Hfeas s Hs)) as (Hle1 & Hle2 & _).
    simpl in Hf, Hsg, Hsa, Hsb. rewrite Hf in Ha. rewrite HS.
    apply elem_of_cons in Ha as [->|Ha].
    + assert (a' = a) by congruence. subst. by exists sa, sg.
    + apply list_elem_of_singleton in Ha as ->.
      assert (b' = a) by congruence. subst. by exists sb, sg.
  - destruct (construct_gate _ _ _ _ _ _ Hrun Hg)
      as (ex1 & ap1 & m1 & ex2 & ap2 & m2 & mf & Hx & _ & Hext & _ & Hfeas).
    unfold encode_gate in Hx. rewrite Ht in Hx.
    apply bind_Ok in Hx as (ex' & m' & Hx & [? ->]%ret_Ok).
    apply (encode_AS_sound (P:=Primitive)) with (p_sig := p_sig) in Hx
      as (sp&sg&t&Hsp&Hsg&_&Hsem); [|done].
    destruct (Hsem s mf Hext (Hfeas s Hs)) as (Hlt & _).
    rewrite HS. by exists sp, sg.
  - destruct (construct_gate _ _ _ _ _ _ Hrun Hg)
      as (ex1 & ap1 & m1 & ex2 & ap2 & m2 & mf & Hx & _ & Hext & _ & Hfeas).
    unfold encode_gate in Hx. rewrite Ht in Hx.
    apply bind_Ok in Hx as (ex' & m' & Hx & [? ->]%ret_Ok).
    apply (encode_SA_sound (P:=Primitive)) with (p_sig := p_sig) in Hx
      as (p0&sp&sg&t&Hget0&Hsp&Hsg&_&_&Hsem); [|done].
    destruct (Hsem s mf Hext (Hfeas s Hs)) as (Hord & _).
    assert (p0 = p) by congruence. subst p0.
    rewrite HS, HF. exists sp, sg. do 2 (split; [done|]).
    by destruct (is_true_AS _ p).
  - destruct IH1 as (v1 & v2 & H1 & H2 & Ho1).
    destruct IH2 as (v2' & v3 & H2' & H3 & Ho2).
    assert (v2' = v2) by congruence. subst v2'.
    exists v1, v3. do 2 (split; [done|]).
    destruct st1, st2; simpl; lia.
Qed.

(** X7: A cycle of fanin references with a strict step (an AS gate, or an SA
    gate on a fanin that is not a true AS source) is not rejected by the
    construction, but the model it gives has no solution. *)
Theorem strict_cycle_has_no_solution NPH all_signals all_t1_cells b m k s :
  construct NPH all_signals all_t1_cells = Ok (b, m) ->
  precedes all_signals (b_fanout b) true k k ->
  ~ feasible s m.
Proof.
  intros Hrun Hp Hs.
  destruct (precedes_sound _ _ _ _ _ _ _ _ s Hrun Hp Hs)
    as (v & v' & Hv & Hv' & Hlt).
  assert (v' = v) by congruence. subst. lia.
Qed.

Lemma strict_cycle_has_no_solution_witness :
  precedes cyc_sigs (b_fanout cyc_built) true 2 2 /\
  ~ feasible (assign [0; 1; 2; 1; 0; 1; 0]) cyc_model.
Proof.
  assert (H : precedes cyc_sigs (b_fanout cyc_built) true 2 2).
  { apply (precedes_trans _ _ true true 2 3 2).
    - apply (precedes_AS _ _ (mkPrimitive 3 AS [2] []) 2);
        [apply list_elem_of_In; vm_compute; auto|reflexivity|left].
    - apply (precedes_AS _ _ (mkPrimitive 2 AS [3] []) 3);
        [apply list_elem_of_In; vm_compute; auto|reflexivity|left]. }
  split; [exact H|].
  apply (strict_cycle_has_no_solution 2 cyc_sigs [] cyc_built cyc_model 2
           (assign [0; 1; 2; 1; 0; 1; 0])); [|exact H].
  vm_compute. reflexivity.
Defined.

(** *** More on the SA and T1 cases *)

(** X8: The term an SA gate adds for a fanin is the timing difference
    divided by [NPH] and rounded up: the least number of clock cycles
    that cover the difference. *)
Theorem SA_edge_cost_is_ceiling NPH all_signals all_t1_cells b m g p_sig :
  0 < NPH ->
  construct NPH all_signals all_t1_cells = Ok (b, m) ->
  g ∈ od_values all_signals -> type g = SA -> p_sig ∈ fanins g ->
  SA_edge_cost_rule NPH b m g p_sig.
Proof.
  intros Hpos Hrun Hg Ht Hp.
  pose proof (construct_inv _ _ _ _ _ Hrun) as (HS & _ & _).
  destruct (construct_gate _ _ _ _ _ _ Hrun Hg)
    as (ex1 & ap1 & m1 & ex2 & ap2 & m2 & mf & Hx & Hpre & Hext & Hcs & Hfeas).
  unfold encode_gate in Hx. rewrite Ht in Hx.
  apply bind_Ok in Hx as (ex' & m' & Hx & [? ->]%ret_Ok). simplify_eq.
  apply (encode_SA_sound (P:=Primitive)) with (p_sig := p_sig) in Hx
    as (p&sp&sg&t&Hget&Hsp&Hsg&Hin&Hc&Hsem); [|done].
  exists sp, sg, t. rewrite HS. do 2 (split; [done|]). split.
  - destruct Hpre as [rest ->]. apply elem_of_app. by left.
  - intros s Hs. destruct (Hsem s mf Hext (Hfeas s Hs)) as (_ & Hcost).
    specialize (Hcost Hpos). split; [done|]. rewrite Hcost.
    pose proof (Z.div_mod (s sg - s sp + NPH - 1) NPH ltac:(lia)) as Hdm.
    pose proof (Z.mod_pos_bound (s sg - s sp + NPH - 1) NPH Hpos) as Hmb.
    nia.
Qed.

Lemma SA_edge_cost_is_ceiling_witness :
  SA_edge_cost_rule 2 sa_built sa_model sa_gate 3.
Proof.
  apply (SA_edge_cost_is_ceiling 2 sa_sigs [] sa_built sa_model sa_gate 3).
  - lia.
  - vm_compute. reflexivity.
  - apply list_elem_of_In. vm_compute. auto 10.
  - reflexivity.
  - apply list_elem_of_In. vm_compute. auto.
Defined.

Lemma sigma_var_nonneg NPH all_signals all_t1_cells b m k v s :
  construct NPH all_signals all_t1_cells = Ok (b, m) ->
  od_get (b_Sigma b) k = Some v -> feasible s m -> 0 <= s v.
Proof.
  intros Hrun Hget Hs.
  pose proof (construct_inv _ _ _ _ _ Hrun) as (HS & _).
  rewrite HS in Hget. unfold Sigma0 in Hget.
  destruct (alloc_Sigma_keys (P:=Primitive) _ _ _ _ _ Hget) as [Hk|Hk];
    [|done].
  destruct (alloc_Sigma_in (P:=Primitive) _ 0 [] k Hk)
    as (i & g & Hi & Hl & _).
  rewrite Hget in Hi. injection Hi as ->.
  pose proof (construct_first_loop _ _ _ _ _ _ _ Hrun Hl) as Hd.
  pose proof (feasible_bounds _ _ _ _ Hs Hd) as Hb.
  unfold sigma_decl in Hb. simpl in Hb. destruct (type g); simpl in Hb; lia.
Qed.

(** X9: No solution puts an output of a T1 cell before timing 3: the cell
    stands more than two units after the earliest of its fanins. *)
Theorem T1_output_not_before_3 NPH all_signals all_t1_cells b m g :
  construct NPH all_signals all_t1_cells = Ok (b, m) ->
  g ∈ od_values all_signals -> type g = FA ->
  T1_output_late b m g.
Proof.
  intros Hrun Hg Ht.
  destruct (construct_t1 _ _ _ _ _ _ Hrun Hg Ht)
    as (g0 & cell & w & Hin & Henc).
  destruct Henc as (_ & _ & _ & _ & (f0 & f1 & f2 & _ & H0 & H1 & H2 & Hsem)
                    & Hplace & _).
  destruct (Hplace _ Hin) as (v & Hv & Hc).
  exists v. split; [done|]. intros s Hs.
  pose proof (proj1 (holds_Linear _ _ _ _) (feasible_holds _ _ _ Hs Hc))
    as Heq.
  simpl in Heq.
  destruct (Hsem s m (reflexivity _) Hs) as (_ & Hmin & _).
  pose proof (sigma_var_nonneg _ _ _ _ _ _ _ s Hrun H0 Hs).
  pose proof (sigma_var_nonneg _ _ _ _ _ _ _ s Hrun H1 Hs).
  pose proof (sigma_var_nonneg _ _ _ _ _ _ _ s Hrun H2 Hs).
  assert (Hincr : forall p n, 0 <= eff_incr all_signals p n).
  { intros p n. unfold eff_incr.
    destruct n as [n|]; [|done]. destruct (od_get all_signals p); [|done].
    by destruct (t1_delayed _ _). }
  pose proof (Hincr f0 (in_neg g0 !! 0%nat)).
  pose proof (Hincr f1 (in_neg g0 !! 1%nat)).
  pose proof (Hincr f2 (in_neg g0 !! 2%nat)).
  cbv zeta in Hmin. unfold min3 in Hmin. lia.
Qed.

Lemma T1_output_not_before_3_witness :
  T1_output_late t1_built t1_model t1_xor.
Proof.
  apply (T1_output_not_before_3 4 t1_sigs [t1_example_cell] t1_built
           t1_model t1_xor).
  - vm_compute. reflexivity.
  - apply list_elem_of_In. vm_compute. auto 10.
  - reflexivity.
Defined.

End PhaseAssignmentProofs.

(** ** [decomposed_ilp_max.py] *)

Module DecomposedMaxProofs.
Import DecomposedMax DecomposedMaxSpec.

Section construct.
Variable NPH : Z.
Variable all_signals : list (Z * Primitive).

Lemma decomposed_max_gate_grows Sigma fanout ex g m ex' m' :
  encode_gate NPH all_signals Sigma fanout ex g m = Ok (ex', m') ->
  grows (ex, m) (ex', m').
Proof.
  unfold encode_gate. destruct (type g) eqn:Ht.
  - intros [-> ->]%ret_Ok. reflexivity.
  - apply (encode_AA_grows (P:=Primitive)).
  - apply (encode_AS_grows (P:=Primitive)).
  - apply (encode_SA_grows (P:=Primitive)).
  - intros [-> ->]%ret_Ok. reflexivity.
Qed.

(** The turn of the loop on a signal, and what it leaves in the end. *)
Lemma decomposed_max_gate b m g :
  construct NPH all_signals = Ok (b, m) ->
  g ∈ od_values all_signals ->
  b_Sigma b = alloc_Sigma (od_values all_signals) 0 [] /\
  b_fanout b = alloc_fanout (od_values all_signals) ∅ /\
  exists ex1 m1 ex2 m2 mf,
    encode_gate NPH all_signals (b_Sigma b) (b_fanout b) ex1 g m1
      = Ok (ex2, m2) /\
    ex2 `prefix_of` b_expr b /\ extends m2 mf /\
    forall s, feasible s m -> feasible s mf.
Proof.
  unfold construct, build. intros Hrun Hg.
  apply bind_Ok in Hrun as ([Sigma fanout] & m0 & Halloc & Hrun).
  rewrite alloc_run in Halloc. injection Halloc as <- <- <-.
  apply bind_Ok in Hrun as (ex & mf & Hloop & Hrun).
  apply bind_Ok in Hrun as ([] & m2 & Hmin & Hrun).
  apply ret_Ok in Hrun as [-> ->].
  unfold Minimize in Hmin. injection Hmin as <-. simpl.
  do 2 (split; [done|]).
  destruct (for_each_elem_rel grows _ _ _ _ _ _ _
              (decomposed_max_gate_grows _ _) Hloop Hg)
    as (ex1 & m1 & ex2 & m3 & _ & Hx & (Hpre & Hext)).
  exists ex1, m1, ex2, m3, mf. do 3 (split; [done|]).
  intros s. unfold feasible. by destruct mf.
Qed.
End construct.

Example decomposed_max_aa_lines_run :
  run_lines 2 aa_lines = Some (aa_sigs, aa_built, aa_model).
Proof. vm_compute. reflexivity. Qed.

Example decomposed_max_as_lines_run :
  run_lines 2 as_lines = Some (as_sigs, as_built, as_model).
Proof. vm_compute. reflexivity. Qed.

Example decomposed_max_as_solution_2_feasible :
  feasible as_solution_2 as_model.
Proof. apply (bool_decide_unpack _). vm_compute. exact I. Qed.

Example decomposed_max_as_solution_4_feasible :
  feasible as_solution_4 as_model.
Proof. apply (bool_decide_unpack _). vm_compute. exact I. Qed.

(** X10: The AA case of [decomposed_ilp_max.py] is that of
    [phase_assignment.py]: every solution places the output not before
    either fanin, and a term of the objective equals the floor division by
    [NPH] of (output timing - min (timing of a, timing of b)). *)
Theorem decomposed_max_AA_rule NPH all_signals b m g :
  0 < NPH ->
  construct NPH all_signals = Ok (b, m) ->
  g ∈ od_values all_signals -> type g = AA ->
  AA_rule NPH all_signals b m Z.min g.
Proof.
  intros Hpos Hrun Hg Ht.
  destruct (decomposed_max_gate _ _ _ _ _ Hrun Hg)
    as (HS & _ & ex1 & m1 & ex2 & m2 & mf & Hx & Hpre & Hext & Hfeas).
  unfold encode_gate in Hx. rewrite Ht in Hx.
  apply (encode_AA_sound (P:=Primitive)) in Hx
    as (a_sig&b_sig&a&b'&sg&sa&sb&t&Hf&Ha&Hb&Hsg&Hsa&Hsb& -> &Hsem).
  exists a_sig, b_sig, a, b', sg, sa, sb, t.
  do 6 (split; [done|]). split.
  - destruct Hpre as [rest ->]. apply elem_of_app. left.
    apply elem_of_app. right. left.
  - intros s Hs. destruct (Hsem s mf Hext (Hfeas s Hs)) as (? & ? & Hcost).
    auto.
Qed.

Lemma decomposed_max_AA_rule_witness :
  AA_rule 2 aa_sigs aa_built aa_model Z.min aa_gate.
Proof.
  apply (decomposed_max_AA_rule 2 aa_sigs aa_built aa_model aa_gate).
  - lia.
  - vm_compute. reflexivity.
  - apply list_elem_of_In. vm_compute. auto.
  - reflexivity.
Defined.

(** X11: The AS case of [decomposed_ilp_max.py]: for every AS gate of a
    model that the script builds and each of its fanins, a PI or not,
    every solution places the fanin strictly before the output, and a
    term of the objective equals the floor division of the timing
    difference by [NPH]. *)
Theorem decomposed_max_AS_edge_rule NPH all_signals b m g p_sig :
  0 < NPH ->
  construct NPH all_signals = Ok (b, m) ->
  g ∈ od_values all_signals -> type g = AS -> p_sig ∈ fanins g ->
  AS_edge_rule NPH b m g p_sig.
Proof.
  intros Hpos Hrun Hg Ht Hp.
  destruct (decomposed_max_gate _ _ _ _ _ Hrun Hg)
    as (HS & _ & ex1 & m1 & ex2 & m2 & mf & Hx & Hpre & Hext & Hfeas).
  unfold encode_gate in Hx. rewrite Ht in Hx.
  apply (encode_AS_sound (P:=Primitive)) with (p_sig := p_sig) in Hx
    as (sp&sg&t&Hsp&Hsg&Hin&Hsem); [|done].
  exists sp, sg, t. do 2 (split; [done|]). split.
  - destruct Hpre as [rest ->]. apply elem_of_app. by left.
  - intros s Hs. destruct (Hsem s mf Hext (Hfeas s Hs)) as (? & Hcost).
    auto.
Qed.

Lemma decomposed_max_AS_edge_rule_witness :
  AS_edge_rule 2 as_built as_model as_gate 1.
Proof.
  apply (decomposed_max_AS_edge_rule 2 as_sigs as_built as_model as_gate 1).
  - lia.
  - vm_compute. reflexivity.
  - apply list_elem_of_In. vm_compute. auto.
  - reflexivity.
  - apply list_elem_of_In. vm_compute. auto.
Defined.

(** In [decomposed_ilp_max.py] too the cost of a PI edge is not a
    matter of the phases alone: the PI edge of the example costs 1 with
    the gate at 2 and costs 2 with the gate at 4, the phases of both ends
    being the same. *)
Lemma decomposed_max_PI_edge_not_by_phase :
  ~ edge_cost_by_phase_only 2 as_built as_model as_gate 1.
Proof.
  intros (vp & vg & t & Hvp & Hvg & Ht & Hsem).
  vm_compute in Hvp. injection Hvp as <-.
  vm_compute in Hvg. injection Hvg as <-.
  apply list_elem_of_singleton in Ht. subst t.
  specialize (Hsem as_solution_2 as_solution_4
                decomposed_max_as_solution_2_feasible
                decomposed_max_as_solution_4_feasible).
  vm_compute in Hsem. specialize (Hsem eq_refl eq_refl). discriminate.
Qed.

Example decomposed_max_sa_lines_run :
  run_lines 2 sa_lines = Some (sa_sigs, sa_built, sa_model).
Proof. vm_compute. reflexivity. Qed.

Lemma decomposed_max_loop NPH all_signals b m :
  construct NPH all_signals = Ok (b, m) ->
  b_fanout b = alloc_fanout (od_values all_signals) ∅ /\
  exists m0 mf,
    for_each (od_values all_signals)
      (encode_gate NPH all_signals (b_Sigma b) (b_fanout b)) [] m0
      = Ok (b_expr b, mf) /\
    variables m = variables mf /\ constraints m = constraints mf /\
    objective m = Some (py_sum (b_expr b)).
Proof.
  unfold construct, build. intros Hrun.
  apply bind_Ok in Hrun as ([Sigma fanout] & m0 & Halloc & Hrun).
  rewrite alloc_run in Halloc. injection Halloc as <- <- <-.
  apply bind_Ok in Hrun as (ex & mf & Hloop & Hrun).
  apply bind_Ok in Hrun as ([] & m2 & Hmin & Hrun).
  apply ret_Ok in Hrun as [-> ->].
  unfold Minimize in Hmin. injection Hmin as <-. simpl.
  split; [done|]. by eexists _, mf.
Qed.

(** X12: The SA case of [decomposed_ilp_max.py]: a fanin is taken for a true
    AS source exactly when it is an AS gate that one gate reads; the
    constraint added for a true AS source lets it share the timing of the
    gate, the one added for any other fanin puts it strictly earlier. *)
Theorem decomposed_max_SA_rule NPH all_signals b m g p_sig :
  construct NPH all_signals = Ok (b, m) ->
  g ∈ od_values all_signals -> type g = SA -> p_sig ∈ fanins g ->
  SA_edge_rule all_signals b m g p_sig.
Proof.
  intros Hrun Hg Ht Hp.
  destruct (decomposed_max_loop _ _ _ _ Hrun)
    as (HF & m0 & mf & Hloop & Hv & Hc & _).
  destruct (for_each_elem_rel grows _ _ _ _ _ _ _
              (decomposed_max_gate_grows _ _ _ _) Hloop Hg)
    as (ex1 & m1 & ex2 & m2 & _ & Hx & (Hpre & Hext)).
  simpl in Hpre, Hext.
  unfold encode_gate in Hx. rewrite Ht in Hx.
  apply (encode_SA_sound (P:=Primitive)) with (p_sig := p_sig) in Hx
    as (p&sp&sg&t&Hget&Hsp&Hsg&Hin&Hcin&Hsem); [|done].
  exists p, sp, sg. do 3 (split; [done|]). split; [|split].
  - rewrite HF. unfold is_true_AS, fanout_count.
    rewrite (alloc_fanout_count (P:=Primitive)), lookup_empty. simpl.
    rewrite andb_true_iff, !bool_decide_eq_true. done.
  - rewrite Hc. by eapply extends_constraint.
  - intros s Hs. apply (Hsem s mf Hext).
    unfold feasible in *. by rewrite <- Hv, <- Hc.
Qed.

Lemma decomposed_max_SA_rule_witness :
  SA_edge_rule sa_sigs sa_built sa_model sa_gate 3.
Proof.
  apply (decomposed_max_SA_rule 2 sa_sigs sa_built sa_model sa_gate 3).
  - vm_compute. reflexivity.
  - apply list_elem_of_In. vm_compute. auto 10.
  - reflexivity.
  - apply list_elem_of_In. vm_compute. auto.
Defined.

(** X13: In every solution of a model that [decomposed_ilp_max.py] builds the
    terms of the objective are not negative and the objective is their
    sum; the objective value the script prints is that sum at the
    solution the engine returned. *)
Theorem decomposed_max_objective NPH all_signals b m :
  construct NPH all_signals = Ok (b, m) ->
  (forall s, feasible s m ->
     Forall (fun t => 0 <= eval s t) (b_expr b) /\
     objective_value s m = foldr Z.add 0 (map (eval s) (b_expr b))) /\
  (forall r v, answers m r ->
     ObjectiveLine v ∈ report m (b_Sigma b) r ->
     v = foldr Z.add 0 (map (eval (r_values r)) (b_expr b))).
Proof.
  intros (_ & m0 & mf & Hloop & Hv & Hc & Hobj)%decomposed_max_loop.
  assert (Hsum : forall s, objective_value s m =
                   foldr Z.add 0 (map (eval s) (b_expr b))).
  { intros s. unfold objective_value. rewrite Hobj. apply eval_py_sum. }
  assert (Hcost : Forall (cost_var m) (b_expr b)).
  { assert (Hmf : Forall (cost_var mf) (b_expr b)).
    { eapply (for_each_inv (fun ex m => Forall (cost_var m) ex));
        [|constructor|exact Hloop].
      intros ex g m1 ex' m1' _ Hex Hx. unfold encode_gate in Hx.
      destruct (type g).
      - apply ret_Ok in Hx as [-> ->]. done.
      - by eapply (encode_AA_cost (P:=Primitive)).
      - by eapply (encode_AS_cost (P:=Primitive)).
      - by eapply (encode_SA_cost (P:=Primitive)).
      - apply ret_Ok in Hx as [-> ->]. done. }
    eapply Forall_impl; [exact Hmf|].
    intros t (v & d & -> & Hl & ?). exists v, d. by rewrite Hv. }
  split.
  - intros s Hs. split; [|apply Hsum].
    eapply Forall_impl; [exact Hcost|]. intros t. by apply cost_var_nonneg.
  - intros r v Hans Hin. unfold report in Hin.
    apply elem_of_cons in Hin as [Hin|Hin]; [discriminate|].
    destruct (has_solution _) eqn:Hsol; [|by apply elem_of_nil in Hin].
    apply elem_of_cons in Hin as [Hin|Hin].
    + injection Hin as ->. destruct (Hans Hsol) as (_ & ->). apply Hsum.
    + apply list_elem_of_fmap in Hin as ([k sv] & Hl & _). discriminate.
Qed.

Lemma decomposed_max_objective_witness :
  (forall s, feasible s sa_model ->
     Forall (fun t => 0 <= eval s t) (b_expr sa_built) /\
     objective_value s sa_model =
       foldr Z.add 0 (map (eval s) (b_expr sa_built))) /\
  (forall r v, answers sa_model r ->
     ObjectiveLine v ∈ report sa_model (b_Sigma sa_built) r ->
     v = foldr Z.add 0 (map (eval (r_values r)) (b_expr sa_built))).
Proof.
  apply (decomposed_max_objective 2 sa_sigs sa_built sa_model).
  vm_compute. reflexivity.
Defined.

Section parsed_table.
Variable py_int : string -> result Z.

Lemma decomposed_max_line_wf items line items' :
  table_wf items -> parse_line py_int items line = Ok items' ->
  table_wf items'.
Proof.
  intros [Hnd Hk] Hrun. unfold parse_line in Hrun.
  destruct (py_split "," (py_strip line)) as [|a [|t [|f [|o [|? ?]]]]];
    try discriminate.
  apply PhaseAssignmentProofs.result_bind_Ok in Hrun as (_sig & _ & Hrun).
  apply PhaseAssignmentProofs.result_bind_Ok in Hrun as (_fanins & _ & Hrun).
  apply PhaseAssignmentProofs.result_bind_Ok in Hrun as (_fanouts & _ & Hrun).
  apply PhaseAssignmentProofs.result_bind_Ok in Hrun as (_type & _ & Hrun).
  injection Hrun as <-. split; [by apply od_set_NoDup|].
  intros k g [Heq|Hin]%PhaseAssignmentProofs.od_set_In; [|by apply Hk].
  by injection Heq as -> ->.
Qed.

(** X14: [parse_specs] of [decomposed_ilp_max.py] keeps a table of signals
    with distinct ids, each signal stored under its own id: a later line
    with the id of an earlier one replaces it. *)
Theorem decomposed_max_parsed_table lines all_signals :
  parse_specs py_int lines = Ok all_signals -> table_wf all_signals.
Proof.
  unfold parse_specs.
  assert (Hgen : forall items items',
            table_wf items -> parse_lines py_int lines items = Ok items' ->
            table_wf items').
  { induction lines as [|line lines IH]; intros items items' Hwf; simpl.
    - by intros [= <-].
    - intros (items1 & Hline & Hrest)%PhaseAssignmentProofs.result_bind_Ok.
      eapply IH; [|exact Hrest]. by eapply decomposed_max_line_wf. }
  apply Hgen. split; [constructor|]. intros k g Hin.
  by apply elem_of_nil in Hin.
Qed.
End parsed_table.

Lemma decomposed_max_parsed_table_witness : table_wf sa_sigs.
Proof.
  apply (decomposed_max_parsed_table dec_int sa_lines).
  vm_compute. reflexivity.
Defined.

End DecomposedMaxProofs.

(** ** [Gradual_ILP.py] *)

Module GradualILPProofs.
Import GradualILP GradualILPSpec.

(** Reads what a run added to the model as facts about a solution [s]
    of a model that extends the result: the constraints, and the bounds
    of the new variables. *)
Ltac inv_G :=
  repeat first
    [ inv_M_step
    | progress unfold S_at, Phi_at, varphi_le, varphi_lt, phi_lt,
        add_fanin_constraints in * ];
  cbn [variables constraints objective] in *;
  rewrite ?length_app in *; cbn [length] in *.

(** Two readings of a dictionary at one key give one variable. *)
Ltac same_gets :=
  repeat match goal with
         | H1 : od_get ?d ?k = Some ?a, H2 : od_get ?d ?k = Some ?b |- _ =>
             assert (b = a) by congruence; subst b; clear H2
         end.

Ltac model_facts Hext Hfeas :=
  let Hf := fresh "Hf" in
  let Hb := fresh "Hbounds" in
  let Hall := fresh "Hall" in
  pose proof (feasible_extends _ _ _ Hext Hfeas) as Hf;
  destruct Hf as [Hb Hall];
  cbn [variables constraints] in Hb, Hall;
  rewrite ?in_bounds_app in Hb; rewrite ?Forall_app in Hall;
  cbn [in_bounds length v_lb v_ub] in Hb;
  rewrite ?length_app in Hb; cbn [length Nat.add] in Hb;
  rewrite ?Forall_singleton in Hall;
  cbn [holds eval rel_holds] in Hall;
  rewrite ?Forall_cons, ?Forall_nil, ?Exists_cons, ?Exists_nil in Hall;
  cbn [lit_holds] in Hall.

Section encode_facts.
Variable all_signals : list (Z * Primitive).
Variable S_ : list (Z * nat).
Variable Phi : list (Z * nat).
Variable fanout : gmap Z Z.

Lemma dict_bounded_extends d m m' lb ub :
  extends m m' -> dict_bounded d m lb ub -> dict_bounded d m' lb ub.
Proof.
  intros Hext Hd k v Hk. destruct (Hd k v Hk) as (dcl & Hl & Hb).
  exists dcl. split; [by eapply extends_lookup|done].
Qed.

Lemma dict_bounded_at s m M d lb ub k v :
  dict_bounded d m lb ub -> extends m M -> feasible s M ->
  od_get d k = Some v -> lb <= s v <= ub.
Proof.
  intros Hd Hext Hfeas Hk. destruct (Hd k v Hk) as (dcl & Hl & Hlb & Hub).
  pose proof (feasible_bounds s M v dcl Hfeas (extends_lookup _ _ _ _ Hext Hl)).
  lia.
Qed.

(** The facts a solution [s] of [M] satisfies after a run from [m]: the
    constraints and bounds the run added, and the bounds of the stage and
    phase variables that were read. *)
Ltac solution_facts m HS HPhi Hext Hfeas :=
  model_facts Hext Hfeas;
  let Hm := fresh "Hm" in
  assert (Hm : extends m _) by
    (etrans; [|exact Hext]; split; cbn [variables constraints];
     rewrite <- ?app_assoc; by apply prefix_app_r);
  repeat match goal with
         | Hg : od_get S_ _ = Some ?v |- _ =>
             pose proof (dict_bounded_at _ _ _ _ _ _ _ _ HS Hm Hfeas Hg);
             clear Hg
         | Hg : od_get Phi _ = Some ?v |- _ =>
             pose proof (dict_bounded_at _ _ _ _ _ _ _ _ HPhi Hm Hfeas Hg);
             clear Hg
         end;
  unfold timing_at, timing, NPH in *; cbn [eval] in *.

Lemma encode_gate_mono ex g :
  mono (encode_gate all_signals S_ Phi fanout ex g).
Proof.
  unfold encode_gate, encode_AA, encode_AS, encode_AS_edge, encode_SA,
    encode_SA_both, encode_SA_none, encode_SA_one, varphi_le, varphi_lt,
    phi_lt, add_fanin_constraints, S_at, Phi_at.
  solve_mono.
Qed.

Lemma gradual_encode_AA_sound g ex m ex' m' :
  encode_AA all_signals S_ Phi g ex m = Ok (ex', m') ->
  exists t, ex' = ex ++ [t] /\ term_nonneg m' t.
Proof.
  unfold encode_AA. intros Hrun.
  destruct (fanins g) as [|a_sig [|b_sig [|? ?]]]; try discriminate.
  inv_G. eexists. split; [reflexivity|].
  intros s M Hext Hfeas. model_facts Hext Hfeas. cbn [eval]. lia.
Qed.

Lemma encode_AA_later g ex m ex' m' :
  encode_AA all_signals S_ Phi g ex m = Ok (ex', m') ->
  exists a_sig b_sig a b sg pg sa pa sb pb t,
    fanins g = [a_sig; b_sig] /\
    od_get all_signals a_sig = Some a /\
    od_get all_signals b_sig = Some b /\
    od_get S_ (sig g) = Some sg /\
    od_get Phi (sig g) = Some pg /\
    od_get S_ (sig a) = Some sa /\
    od_get Phi (sig a) = Some pa /\
    od_get S_ (sig b) = Some sb /\
    od_get Phi (sig b) = Some pb /\
    ex' = ex ++ [t] /\
    forall s M, extends m' M -> feasible s M ->
      timing_at s sg pg = Z.max (timing_at s sa pa) (timing_at s sb pb) /\
      Z.abs (s sa - s sb) <= eval s t.
Proof.
  unfold encode_AA. intros Hrun.
  destruct (fanins g) as [|a_sig [|b_sig [|? ?]]]; try discriminate.
  apply bind_Ok in Hrun as (a & ? & Ha & Hrun). inv_prim Ha.
  apply bind_Ok in Hrun as (b & ? & Hgb & Hrun). inv_prim Hgb.
  apply od_index_Ok in Ha, Hgb.
  inv_G; same_gets.
  exists a_sig, b_sig, a, b. eexists _, _, _, _, _, _, _.
  do 9 (split; [eassumption || reflexivity|]).
  split; [reflexivity|]. intros s M Hext Hfeas.
  model_facts Hext Hfeas. unfold timing_at, timing, NPH in *.
  cbn [eval] in *. unfold S_bounds in *. cbn [fst snd] in *.
  clear Hext Hfeas.
  repeat match goal with
         | H : _ /\ _ |- _ => destruct H
         | H : True |- _ => clear H
         | H : in_bounds _ _ _ |- _ => clear H
         | H : Forall _ _ |- _ => clear H
         | H : True -> _ |- _ => specialize (H I)
         end.
  split; lia.
Qed.

Lemma gradual_encode_AS_edge_sound g ex p_sig m ex' m' :
  encode_AS_edge all_signals S_ Phi g ex p_sig m = Ok (ex', m') ->
  exists p sg pg sp pp t,
    od_get all_signals p_sig = Some p /\
    od_get S_ (sig g) = Some sg /\
    od_get Phi (sig g) = Some pg /\
    od_get S_ (sig p) = Some sp /\
    od_get Phi (sig p) = Some pp /\
    ex' = ex ++ [t] /\
    forall s M,
      dict_bounded S_ m 0 1000 -> dict_bounded Phi m 0 (NPH - 1) ->
      extends m' M -> feasible s M ->
      timing_at s sp pp < timing_at s sg pg /\
      eval s t =
        (if bool_decide (type p = PI) then s sg else s sg - s sp) -
        (if bool_decide (s pg <= s pp) then 1 else 0) /\
      (type p <> PI ->
       eval s t = (timing_at s sg pg - timing_at s sp pp - 1) `div` NPH) /\
      0 <= eval s t.
Proof.
  intros Hrun. unfold encode_AS_edge in Hrun. inv_G.
  match goal with
  | H : (if bool_decide (type ?p = PI) then _ else _) _ = Ok _ |- _ =>
      destruct (bool_decide (type p = PI)) eqn:Epi; inv_G
  end; same_gets.
  all: eexists _, _, _, _, _, _; do 5 (split; [eassumption|]).
  all: split; [reflexivity|]; intros s M HS HPhi Hext Hfeas.
  all: solution_facts m HS HPhi Hext Hfeas.
  all: rewrite Epi.
  all: apply bool_decide_eq_true in Epi || apply bool_decide_eq_false in Epi.
  all: case_bool_decide.
  all: repeat split; try lia; try done.
  all: intros _.
  all: match goal with
       | |- ?q = ?a `div` 2 =>
           apply (Z.div_unique_pos a 2 q (a - 2 * q)); lia
       end.
Qed.

Lemma gradual_encode_SA_sound g ex m ex' m' :
  encode_SA all_signals S_ Phi fanout g ex m = Ok (ex', m') ->
  exists a_sig b_sig a b sg pg sa pa sb pb t,
    fanins g = [a_sig; b_sig] /\
    od_get all_signals a_sig = Some a /\
    od_get all_signals b_sig = Some b /\
    od_get S_ (sig g) = Some sg /\
    od_get Phi (sig g) = Some pg /\
    od_get S_ (sig a) = Some sa /\
    od_get Phi (sig a) = Some pa /\
    od_get S_ (sig b) = Some sb /\
    od_get Phi (sig b) = Some pb /\
    ex' = ex ++ [t] /\
    forall s M,
      dict_bounded S_ m 0 1000 -> dict_bounded Phi m 0 (NPH - 1) ->
      extends m' M -> feasible s M ->
      (if is_true_AS fanout a
       then timing_at s sa pa <= timing_at s sg pg
       else timing_at s sa pa < timing_at s sg pg) /\
      (if is_true_AS fanout b
       then timing_at s sb pb <= timing_at s sg pg
       else timing_at s sb pb < timing_at s sg pg) /\
      0 <= eval s t /\
      timing_at s sg pg =
        Z.max (timing_at s sa pa + (if is_true_AS fanout a then 0 else 1))
              (timing_at s sb pb + (if is_true_AS fanout b then 0 else 1)).
Proof.
  intros Hrun. unfold encode_SA in Hrun.
  destruct (fanins g) as [|a_sig [|b_sig [|? ?]]]; try discriminate.
  apply bind_Ok in Hrun as (a & ? & Ha & Hrun). inv_prim Ha.
  apply bind_Ok in Hrun as (b & ? & Hb & Hrun). inv_prim Hb.
  apply od_index_Ok in Ha, Hb. cbv zeta in Hrun.
  destruct (is_true_AS fanout a) eqn:Ea, (is_true_AS fanout b) eqn:Eb.
  all: unfold encode_SA_both, encode_SA_none, encode_SA_one in Hrun.
  all: inv_G; same_gets.
  all: exists a_sig, b_sig, a, b.
  all: eexists _, _, _, _, _, _, _.
  all: do 9 (split; [eassumption || reflexivity|]).
  all: split; [reflexivity|]; intros s M HS HPhi Hext Hfeas.
  all: solution_facts m HS HPhi Hext Hfeas.
  all: rewrite ?Ea, ?Eb; cbv beta iota; unfold S_bounds in *;
    cbn [fst snd] in *.
  all: clear Hext Hfeas Hm HS HPhi.
  all: repeat match goal with
         | H : _ /\ _ |- _ => destruct H
         | H : True |- _ => clear H
         | H : in_bounds _ _ _ |- _ => clear H
         | H : Forall _ _ |- _ => clear H
         | H : True -> _ |- _ => specialize (H I)
         end.
  all: repeat split; lia.
Qed.

Lemma term_nonneg_extends m m' t :
  extends m m' -> term_nonneg m t -> term_nonneg m' t.
Proof. intros Hext Ht s M HM. apply Ht. by etrans. Qed.

Lemma encode_AS_edge_mono g ex p_sig :
  mono (encode_AS_edge all_signals S_ Phi g ex p_sig).
Proof.
  unfold encode_AS_edge, varphi_le, add_fanin_constraints, S_at, Phi_at.
  solve_mono.
Qed.

Lemma gradual_encode_AS_edge_grows g ex p_sig m ex' m' :
  encode_AS_edge all_signals S_ Phi g ex p_sig m = Ok (ex', m') ->
  grows (ex, m) (ex', m').
Proof.
  intros Hrun. split; simpl.
  - apply gradual_encode_AS_edge_sound in Hrun as (?&?&?&?&?&?&_&_&_&_&_& -> &_).
    by apply prefix_app_r.
  - by eapply encode_AS_edge_mono.
Qed.

Lemma gradual_encode_gate_grows ex g m ex' m' :
  encode_gate all_signals S_ Phi fanout ex g m = Ok (ex', m') ->
  grows (ex, m) (ex', m').
Proof.
  intros Hrun. split; simpl; [|by eapply encode_gate_mono].
  unfold encode_gate in Hrun. destruct (type g).
  - by apply ret_Ok in Hrun as [-> _].
  - apply gradual_encode_AA_sound in Hrun as (t & -> & _). by apply prefix_app_r.
  - apply (for_each_rel grows) in Hrun as [Hpre _]; [done|].
    intros ? ? ? ? ?. apply gradual_encode_AS_edge_grows.
  - apply gradual_encode_SA_sound in Hrun
      as (?&?&?&?&?&?&?&?&?&?&?&_&_&_&_&_&_&_&_&_& -> &_).
    by apply prefix_app_r.
  - by apply ret_Ok in Hrun as [-> _].
Qed.

(** The loop keeps every term of the objective not negative, and the
    stage and phase variables declared in their bounds. *)
Lemma encode_gate_inv ex g m ex' m' :
  Forall (term_nonneg m) ex /\
  dict_bounded S_ m 0 1000 /\ dict_bounded Phi m 0 (NPH - 1) ->
  encode_gate all_signals S_ Phi fanout ex g m = Ok (ex', m') ->
  Forall (term_nonneg m') ex' /\
  dict_bounded S_ m' 0 1000 /\ dict_bounded Phi m' 0 (NPH - 1).
Proof.
  intros (Hex & HS & HPhi) Hrun.
  pose proof (encode_gate_mono _ _ _ _ _ Hrun) as Hext.
  split; [|split; by eapply dict_bounded_extends].
  assert (Hold : Forall (term_nonneg m') ex).
  { eapply Forall_impl; [exact Hex|]. intros t.
    by apply term_nonneg_extends. }
  unfold encode_gate in Hrun. destruct (type g).
  - by apply ret_Ok in Hrun as [-> _].
  - apply gradual_encode_AA_sound in Hrun as (t & -> & Ht).
    apply Forall_app. split; [done|]. by constructor.
  - assert (Hstep : forall ex0 p m0 ex1 m1,
      p ∈ fanins g ->
      Forall (term_nonneg m0) ex0 /\
      dict_bounded S_ m0 0 1000 /\ dict_bounded Phi m0 0 (NPH - 1) ->
      encode_AS_edge all_signals S_ Phi g ex0 p m0 = Ok (ex1, m1) ->
      Forall (term_nonneg m1) ex1 /\
      dict_bounded S_ m1 0 1000 /\ dict_bounded Phi m1 0 (NPH - 1)).
    { intros ex0 p m0 ex1 m1 _ (Hex0 & HS0 & HPhi0) Hedge.
      pose proof (encode_AS_edge_mono _ _ _ _ _ _ Hedge) as Hext0.
      split; [|split; by eapply dict_bounded_extends].
      apply gradual_encode_AS_edge_sound in Hedge
        as (?&?&?&?&?&t&_&_&_&_&_& -> & Hsem).
      apply Forall_app; split.
      - eapply Forall_impl; [exact Hex0|]. intros ?.
        by apply term_nonneg_extends.
      - constructor; [|done]. intros s M HM Hf.
        by destruct (Hsem s M HS0 HPhi0 HM Hf) as (_&_&_&?). }
    by destruct (for_each_inv _ _ _ Hstep _ _ _ _
                   (conj Hex (conj HS HPhi)) Hrun).
  - apply gradual_encode_SA_sound in Hrun
      as (?&?&?&?&?&?&?&?&?&?&t&_&_&_&_&_&_&_&_&_& -> & Hsem).
    apply Forall_app. split; [done|]. constructor; [|done].
    intros s M HM Hf. by destruct (Hsem s M HS HPhi HM Hf) as (_&_&?&_).
  - by apply ret_Ok in Hrun as [-> _].
Qed.
End encode_facts.

(** *** The first loop *)

Lemma dict_bounded_set d m k lb ub lb' ub' name :
  lb <= lb' -> ub' <= ub ->
  dict_bounded d m lb ub ->
  dict_bounded (od_set d k (length (variables m)))
    (mkCpModel (variables m ++ [mkIntVar lb' ub' name]) (constraints m)
               (objective m)) lb ub.
Proof.
  intros Hlb Hub Hd k' v Hk'. cbn [variables].
  destruct (decide (k = k')) as [->|Hne].
  - rewrite od_get_set_eq in Hk'. injection Hk' as <-.
    exists (mkIntVar lb' ub' name). split; [|done].
    by apply (lookup_app_plus _ _ 0%nat); [lia|].
  - rewrite od_get_set_ne in Hk' by done.
    destruct (Hd k' v Hk') as (dcl & Hl & Hb). exists dcl. split; [|done].
    by apply lookup_app_l_Some.
Qed.

Lemma dict_bounded_new d m lb ub dcl :
  dict_bounded d m lb ub ->
  dict_bounded d (mkCpModel (variables m ++ [dcl]) (constraints m)
                            (objective m)) lb ub.
Proof.
  intros Hd k v Hk. destruct (Hd k v Hk) as (dcl' & Hl & Hb).
  exists dcl'. split; [|done]. by apply lookup_app_l_Some.
Qed.

Lemma alloc_body_inv S_ Phi fanout g m S' Phi' fanout' m' :
  alloc_body (S_, Phi, fanout) g m = Ok ((S', Phi', fanout'), m') ->
  dict_bounded S_ m 0 1000 -> dict_bounded Phi m 0 (NPH - 1) ->
  dict_bounded S' m' 0 1000 /\ dict_bounded Phi' m' 0 (NPH - 1) /\
  fanout' = match type g with
            | PI => fanout
            | _ => foldl count_fanout fanout (fanins g)
            end.
Proof.
  unfold alloc_body. intros Hrun HS HPhi.
  apply bind_Ok in Hrun as (phi & m1 & Hphi & Hrun).
  apply NewIntVar_inv in Hphi as [-> Hm1].
  assert (HPhi1 : dict_bounded (od_set Phi (sig g) (length (variables m)))
                    m1 0 (NPH - 1))
    by (rewrite Hm1; by apply dict_bounded_set).
  assert (HS1 : dict_bounded S_ m1 0 1000)
    by (rewrite Hm1; by apply dict_bounded_new).
  clear Hm1 HS HPhi.
  destruct (type g).
  all: apply bind_Ok in Hrun as (sv & m2 & Hs & Hrun).
  all: apply NewIntVar_inv in Hs as [-> ->].
  all: apply ret_Ok in Hrun as [Heq ->]; injection Heq as -> -> ->.
  all: split; [|split; [|reflexivity]].
  all: try (by apply dict_bounded_new).
  all: apply dict_bounded_set; [..|exact HS1]; cbn; lia.
Qed.

Lemma alloc_loop_inv l : forall S_ Phi fanout m S' Phi' fanout' m',
  for_each l alloc_body (S_, Phi, fanout) m = Ok ((S', Phi', fanout'), m') ->
  dict_bounded S_ m 0 1000 -> dict_bounded Phi m 0 (NPH - 1) ->
  dict_bounded S' m' 0 1000 /\ dict_bounded Phi' m' 0 (NPH - 1) /\
  fanout' = alloc_fanout l fanout.
Proof.
  induction l as [|g l IH]; intros S_ Phi fanout m S' Phi' fanout' m'; simpl.
  - intros [Heq ->]%ret_Ok. by injection Heq as <- <- <-.
  - intros ([[S1 Phi1] fanout1] & m1 & Hg & Hl)%bind_Ok HS HPhi.
    destruct (alloc_body_inv _ _ _ _ _ _ _ _ _ Hg HS HPhi)
      as (HS1 & HPhi1 & ->).
    by apply (IH _ _ _ _ _ _ _ _ Hl).
Qed.

(** *** The model handed to the solver *)

Lemma gradual_construct_inv all_signals b m :
  construct all_signals = Ok (b, m) ->
  t_fanout b = alloc_fanout (od_values all_signals) ∅ /\
  exists m0 mf,
    dict_bounded (t_S b) m0 0 1000 /\
    dict_bounded (t_Phi b) m0 0 (NPH - 1) /\
    for_each (od_values all_signals)
      (encode_gate all_signals (t_S b) (t_Phi b) (t_fanout b)) [] m0
      = Ok (t_expr b, mf) /\
    variables m = variables mf /\ constraints m = constraints mf /\
    objective m = Some (py_sum (t_expr b)).
Proof.
  unfold construct, build. intros Hrun.
  apply bind_Ok in Hrun as ([[S_ Phi] fanout] & m0 & Halloc & Hrun).
  apply bind_Ok in Hrun as (ex & mf & Hloop & Hrun).
  apply bind_Ok in Hrun as ([] & m2 & Hmin & Hrun).
  apply ret_Ok in Hrun as [-> ->].
  unfold Minimize in Hmin. injection Hmin as <-. cbn.
  unfold alloc in Halloc.
  destruct (alloc_loop_inv _ _ _ _ _ _ _ _ _ Halloc) as (HS & HPhi & ->);
    [by intros ? ? ?|by intros ? ? ?|].
  split; [done|]. by exists m0, mf.
Qed.

(** The turn of the loop on a signal, and what it leaves in the end. *)
Lemma gradual_construct_gate all_signals b m g :
  construct all_signals = Ok (b, m) ->
  g ∈ od_values all_signals ->
  exists ex1 m1 ex2 m2 mf,
    dict_bounded (t_S b) m1 0 1000 /\
    dict_bounded (t_Phi b) m1 0 (NPH - 1) /\
    encode_gate all_signals (t_S b) (t_Phi b) (t_fanout b) ex1 g m1
      = Ok (ex2, m2) /\
    ex2 `prefix_of` t_expr b /\ extends m2 mf /\
    forall s, feasible s m -> feasible s mf.
Proof.
  intros (_ & m0 & mf & HS & HPhi & Hloop & Hv & Hc & _)%gradual_construct_inv
         Hg.
  destruct (for_each_elem_rel grows _ _ _ _ _ _ _
              (gradual_encode_gate_grows _ _ _ _) Hloop Hg)
    as (ex1 & m1 & ex2 & m2 & [_ Hext1] & Hx & [Hpre Hext]).
  exists ex1, m1, ex2, m2, mf. simpl in *.
  split; [by eapply dict_bounded_extends|].
  split; [by eapply dict_bounded_extends|].
  do 3 (split; [done|]).
  intros s. unfold feasible. by rewrite Hv, Hc.
Qed.

Lemma gradual_term_in (ex ex2 all : list expr) (t : expr) :
  ex2 = ex ++ [t] -> ex2 `prefix_of` all -> t ∈ all.
Proof.
  intros -> [rest ->]. apply elem_of_app. left. apply elem_of_app. right.
  left.
Qed.

(** X15: The AA case of [Gradual_ILP.py]: in every solution the gate stands
    at the later of its two fanins (its timing is the maximum of theirs),
    and the term it adds to the objective is at least the distance
    between the stages of the fanins. *)
Theorem gradual_AA_at_later_fanin all_signals b m g :
  construct all_signals = Ok (b, m) ->
  g ∈ od_values all_signals -> type g = AA ->
  AA_rule all_signals b m g.
Proof.
  intros Hrun Hg Ht.
  destruct (gradual_construct_gate _ _ _ _ Hrun Hg)
    as (ex1 & m1 & ex2 & m2 & mf & HS & HPhi & Hx & Hpre & Hext & Hfeas).
  unfold encode_gate in Hx. rewrite Ht in Hx.
  apply encode_AA_later in Hx
    as (a_sig&b_sig&a&b'&sg&pg&sa&pa&sb&pb&t&?&?&?&?&?&?&?&?&?&He&Hsem).
  exists a_sig, b_sig, a, b', sg, pg, sa, pa, sb, pb, t.
  do 9 (split; [done|]). split; [by eapply gradual_term_in|].
  intros s Hs. by apply (Hsem s mf Hext), Hfeas.
Qed.

Lemma gradual_AA_at_later_fanin_witness :
  AA_rule aa_sigs aa_tables aa_model aa_gate.
Proof.
  apply (gradual_AA_at_later_fanin aa_sigs aa_tables aa_model aa_gate).
  - vm_compute. reflexivity.
  - apply list_elem_of_In. vm_compute. auto.
  - reflexivity.
Defined.

(** X16: The AS case of [Gradual_ILP.py]: in every solution a fanin is
    strictly earlier than the gate; the term added for the edge is the
    stage of the gate, less the stage of the fanin unless the fanin is a
    PI, less one when the phase of the gate is not after that of the
    fanin, which for a fanin that is not a PI is the floor division by
    [NPH] of the timing difference less one. *)
Theorem gradual_AS_edge_cost all_signals b m g p_sig :
  construct all_signals = Ok (b, m) ->
  g ∈ od_values all_signals -> type g = AS -> p_sig ∈ fanins g ->
  AS_edge_rule all_signals b m g p_sig.
Proof.
  intros Hrun Hg Ht Hp.
  destruct (gradual_construct_gate _ _ _ _ Hrun Hg)
    as (ex1 & m1 & ex2 & m2 & mf & HS & HPhi & Hx & Hpre & Hext & Hfeas).
  unfold encode_gate in Hx. rewrite Ht in Hx. unfold encode_AS in Hx.
  destruct (for_each_elem_rel grows _ _ _ _ _ _ _
              (gradual_encode_AS_edge_grows _ _ _ _) Hx Hp)
    as (exa & ma & exb & mb & [_ Hexta] & Hedge & [Hpreb Hextb]).
  simpl in Hexta, Hpreb, Hextb.
  apply gradual_encode_AS_edge_sound in Hedge
    as (p&sg&pg&sp&pp&t&?&?&?&?&?&He&Hsem).
  exists p, sg, pg, sp, pp, t. do 5 (split; [done|]).
  split.
  - eapply gradual_term_in; [exact He|]. by etrans.
  - intros s Hs.
    destruct (Hsem s mf) as (Hq1 & Hq2 & Hq3 & _); try done.
    + by eapply dict_bounded_extends.
    + by eapply dict_bounded_extends.
    + by etrans.
    + by apply Hfeas.
Qed.

Lemma gradual_AS_edge_cost_witness :
  AS_edge_rule as_sigs as_tables as_model as_gate 1.
Proof.
  apply (gradual_AS_edge_cost as_sigs as_tables as_model as_gate 1).
  - vm_compute. reflexivity.
  - apply list_elem_of_In. vm_compute. auto.
  - reflexivity.
  - apply list_elem_of_In. vm_compute. auto.
Defined.

(** X17: The SA case of [Gradual_ILP.py]: a fanin counts as a true AS source
    exactly when it is an AS gate that one gate reads; in every solution
    a true AS source is not later than the gate, and any other fanin is
    strictly earlier.  The gate has no slack: its timing is the larger
    of the two fanin timings, each taken as it is for a true AS source
    and one later for any other fanin. *)
Theorem gradual_SA_true_AS all_signals b m g :
  construct all_signals = Ok (b, m) ->
  g ∈ od_values all_signals -> type g = SA ->
  SA_rule all_signals b m g.
Proof.
  intros Hrun Hg Ht.
  pose proof (gradual_construct_inv _ _ _ Hrun) as (HF & _).
  destruct (gradual_construct_gate _ _ _ _ Hrun Hg)
    as (ex1 & m1 & ex2 & m2 & mf & HS & HPhi & Hx & Hpre & Hext & Hfeas).
  unfold encode_gate in Hx. rewrite Ht in Hx.
  apply gradual_encode_SA_sound in Hx
    as (a_sig&b_sig&a&b'&sg&pg&sa&pa&sb&pb&t&?&?&?&?&?&?&?&?&?&He&Hsem).
  exists a_sig, b_sig, a, b', sg, pg, sa, pa, sb, pb.
  do 9 (split; [done|]).
  assert (Hcls : forall p : Primitive,
            is_true_AS (t_fanout b) p = true <->
            type p = AS /\ fanout_count all_signals (sig p) = 1).
  { intros p. rewrite HF. unfold is_true_AS, fanout_count.
    rewrite (alloc_fanout_count (P:=Primitive)), lookup_empty. simpl.
    rewrite andb_true_iff, !bool_decide_eq_true. done. }
  do 2 (split; [apply Hcls|]).
  intros s Hs.
  destruct (Hsem s mf HS HPhi Hext (Hfeas s Hs)) as (Hq1 & Hq2 & _ & Hq3).
  done.
Qed.

Lemma gradual_SA_true_AS_witness :
  SA_rule sa_sigs sa_tables sa_model sa_gate.
Proof.
  apply (gradual_SA_true_AS sa_sigs sa_tables sa_model sa_gate).
  - vm_compute. reflexivity.
  - apply list_elem_of_In. vm_compute. auto 10.
  - reflexivity.
Defined.

(** X18: In every solution of a model that [Gradual_ILP.py] builds, every
    term of the objective has a value that is not negative, and the
    objective is the sum of the terms. *)
Theorem gradual_terms_nonneg all_signals b m :
  construct all_signals = Ok (b, m) ->
  forall s, feasible s m ->
    Forall (fun t => 0 <= eval s t) (t_expr b) /\
    objective_value s m = foldr Z.add 0 (map (eval s) (t_expr b)).
Proof.
  intros (_ & m0 & mf & HS & HPhi & Hloop & Hv & Hc & Hobj)%gradual_construct_inv
         s Hs.
  split.
  - assert (Hinv : Forall (term_nonneg mf) (t_expr b) /\
                   dict_bounded (t_S b) mf 0 1000 /\
                   dict_bounded (t_Phi b) mf 0 (NPH - 1)).
    { eapply (for_each_inv
                (fun ex m => Forall (term_nonneg m) ex /\
                             dict_bounded (t_S b) m 0 1000 /\
                             dict_bounded (t_Phi b) m 0 (NPH - 1)));
        [|split; [constructor|split; [exact HS|exact HPhi]]|exact Hloop].
      intros ex g m1 ex' m1' _. apply encode_gate_inv. }
    destruct Hinv as [Hall _].
    eapply Forall_impl; [exact Hall|]. intros t Ht. apply (Ht s mf).
    + reflexivity.
    + unfold feasible in *. by rewrite <- Hv, <- Hc.
  - unfold objective_value. rewrite Hobj. apply eval_py_sum.
Qed.

Lemma gradual_terms_nonneg_witness :
  feasible sa_solution sa_model /\
  Forall (fun t => 0 <= eval sa_solution t) (t_expr sa_tables) /\
  objective_value sa_solution sa_model =
    foldr Z.add 0 (map (eval sa_solution) (t_expr sa_tables)).
Proof.
  assert (H : feasible sa_solution sa_model)
    by (apply (bool_decide_unpack _); vm_compute; exact I).
  split; [exact H|].
  apply (gradual_terms_nonneg sa_sigs sa_tables sa_model); [|exact H].
  vm_compute. reflexivity.
Defined.

(** *** The parsed table *)

Section gradual_parsed.
Variable py_int : string -> result Z.

Lemma gradual_line_wf items line items' :
  table_wf items -> parse_line py_int items line = Ok items' ->
  table_wf items'.
Proof.
  intros [Hnd Hk] Hrun. unfold parse_line in Hrun.
  assert (Hset : forall k g, sig g = k -> table_wf (od_set items k g)).
  { intros k g Hsig. split; [by apply od_set_NoDup|].
    intros k' g' [Heq|Hin]%PhaseAssignmentProofs.od_set_In; [|by apply Hk].
    by injection Heq as -> ->. }
  destruct (String.prefix "PI" line).
  - destruct (py_split_ws line) as [|a [|b [|? ?]]]; try discriminate.
    apply PhaseAssignmentProofs.result_bind_Ok in Hrun as (_sig & _ & Hrun).
    injection Hrun as <-. by apply Hset.
  - destruct (py_split "," line) as [|a [|f [|t [|i [|? ?]]]]];
      try discriminate.
    apply PhaseAssignmentProofs.result_bind_Ok in Hrun as (_sig & _ & Hrun).
    apply PhaseAssignmentProofs.result_bind_Ok in Hrun as (_func & _ & Hrun).
    apply PhaseAssignmentProofs.result_bind_Ok in Hrun
      as (_fanins & _ & Hrun).
    apply PhaseAssignmentProofs.result_bind_Ok in Hrun as (_type & _ & Hrun).
    injection Hrun as <-. by apply Hset.
Qed.

(** X20: [parse_specs] of [Gradual_ILP.py] returns a table with distinct
    ids, each signal stored under its own id, whatever the lines are: a
    later line with the id of an earlier one replaces it, be it a PI
    line or a gate line. *)
Theorem gradual_parsed_table lines all_signals :
  parse_specs py_int lines = Ok all_signals -> table_wf all_signals.
Proof.
  unfold parse_specs.
  assert (Hgen : forall items items',
            table_wf items -> parse_lines py_int lines items = Ok items' ->
            table_wf items').
  { induction lines as [|line lines IH]; intros items items' Hwf; simpl.
    - by intros [= <-].
    - intros (items1 & Hline & Hrest)%PhaseAssignmentProofs.result_bind_Ok.
      eapply IH; [|exact Hrest]. by eapply gradual_line_wf. }
  apply Hgen. split; [constructor|]. intros k g Hin.
  by apply elem_of_nil in Hin.
Qed.
End gradual_parsed.

Lemma gradual_parsed_table_witness : table_wf sa_sigs.
Proof.
  apply (gradual_parsed_table dec_int sa_lines).
  vm_compute. reflexivity.
Defined.

(** *** The variables of a signal *)

Lemma declared_extends S_ Phi m m' g :
  variables m `prefix_of` variables m' ->
  declared S_ Phi m g -> declared S_ Phi m' g.
Proof.
  intros Hpre (vS & vPhi & dS & dPhi & ? & ? & HlS & HlP & Hb).
  exists vS, vPhi, dS, dPhi. do 2 (split; [done|]).
  split; [by eapply prefix_lookup_Some|].
  split; [by eapply prefix_lookup_Some|done].
Qed.

Lemma alloc_body_declared S_ Phi fanout g m S' Phi' fanout' m' :
  alloc_body (S_, Phi, fanout) g m = Ok ((S', Phi', fanout'), m') ->
  variables m `prefix_of` variables m' /\
  declared S' Phi' m' g /\
  forall k, k <> sig g ->
    od_get S' k = od_get S_ k /\ od_get Phi' k = od_get Phi k.
Proof.
  unfold alloc_body. intros Hrun.
  apply bind_Ok in Hrun as (phi & m1 & Hphi & Hrun).
  apply NewIntVar_inv in Hphi as [-> ->].
  destruct (type g) eqn:Ety.
  all: apply bind_Ok in Hrun as (sv & m2 & Hs & Hrun).
  all: apply NewIntVar_inv in Hs as [-> ->].
  all: apply ret_Ok in Hrun as [Heq ->]; injection Heq as -> -> ->.
  all: cbn [variables]; rewrite <- app_assoc.
  all: split; [by apply prefix_app_r|].
  all: split;
    [|intros k Hk; by rewrite !od_get_set_ne by congruence].
  all: eexists _, _, _, _; rewrite !od_get_set_eq.
  all: do 2 (split; [reflexivity|]).
  all: split;
    [apply (lookup_app_plus _ _ 1%nat);
       [rewrite length_app; cbn [length]; lia|reflexivity]|].
  all: split; [by apply (lookup_app_plus _ _ 0%nat); [lia|]|].
  all: rewrite Ety; done.
Qed.

Lemma alloc_loop_declared l : forall S_ Phi fanout m S' Phi' fanout' m',
  for_each l alloc_body (S_, Phi, fanout) m = Ok ((S', Phi', fanout'), m') ->
  NoDup (map sig l) ->
  variables m `prefix_of` variables m' /\
  (forall g, g ∈ l -> declared S' Phi' m' g) /\
  forall k, k ∉ map sig l ->
    od_get S' k = od_get S_ k /\ od_get Phi' k = od_get Phi k.
Proof.
  induction l as [|g l IH]; intros S_ Phi fanout m S' Phi' fanout' m'; simpl.
  - intros [Heq ->]%ret_Ok _. injection Heq as <- <- <-.
    split; [done|]. split; [|done]. intros g Hg. by apply elem_of_nil in Hg.
  - intros ([[S1 Phi1] fanout1] & m1 & Hg & Hl)%bind_Ok
           [Hnew Hnd]%NoDup_cons.
    destruct (alloc_body_declared _ _ _ _ _ _ _ _ _ Hg)
      as (Hpre1 & Hdecl & Hkeep1).
    destruct (IH _ _ _ _ _ _ _ _ Hl Hnd) as (Hpre & Hall & Hkeep).
    split; [by etrans|]. split.
    + intros g' [->|Hin]%elem_of_cons; [|by apply Hall].
      apply (declared_extends _ _ _ _ _ Hpre) in Hdecl.
      destruct Hdecl as (vS & vPhi & dS & dPhi & HS & HP & Hrest).
      destruct (Hkeep (sig g) Hnew) as [HS' HP'].
      exists vS, vPhi, dS, dPhi. by rewrite HS', HP'.
    + intros k Hk. apply not_elem_of_cons in Hk as [Hne Hk].
      destruct (Hkeep k Hk) as [-> ->]. by apply Hkeep1.
Qed.

Lemma gradual_construct_declared all_signals b m g :
  construct all_signals = Ok (b, m) ->
  NoDup (map sig (od_values all_signals)) ->
  g ∈ od_values all_signals ->
  declared (t_S b) (t_Phi b) m g.
Proof.
  unfold construct, build. intros Hrun Hnd Hg.
  apply bind_Ok in Hrun as ([[S_ Phi] fanout] & m0 & Halloc & Hrun).
  apply bind_Ok in Hrun as (ex & mf & Hloop & Hrun).
  apply bind_Ok in Hrun as ([] & m2 & Hmin & Hrun).
  apply ret_Ok in Hrun as [-> ->].
  unfold Minimize in Hmin. injection Hmin as <-. cbn.
  unfold alloc in Halloc.
  destruct (alloc_loop_declared _ _ _ _ _ _ _ _ _ Halloc Hnd)
    as (_ & Hall & _).
  pose proof (mono_for_each _ _ _
                (fun ex0 g0 => encode_gate_mono _ _ _ _ ex0 g0) _ _ _ Hloop)
    as [Hpre _].
  eapply declared_extends; [exact Hpre|by apply Hall].
Qed.

(** X19: Every signal of a table of [Gradual_ILP.py] has a stage and a phase
    variable; in every solution its phase is one of the [NPH] phases,
    its stage lies in [[0, 1000]], and a PI is at stage 0 (with any
    phase). *)
Theorem gradual_PI_at_stage_0 all_signals b m g :
  construct all_signals = Ok (b, m) ->
  table_wf all_signals ->
  g ∈ od_values all_signals ->
  stage_phase_rule b m g.
Proof.
  intros Hrun [Hnd Hown] Hg.
  assert (Hsigs : map sig (od_values all_signals) = od_keys all_signals).
  { unfold od_values, od_keys. rewrite map_map.
    apply map_ext_in. intros [k g'] Hin%list_elem_of_In. simpl.
    by apply Hown. }
  rewrite <- Hsigs in Hnd.
  destruct (gradual_construct_declared _ _ _ _ Hrun Hnd Hg)
    as (vS & vPhi & dS & dPhi & HS & HP & HlS & HlP & HS0 & HS1 & HP0 & HP1).
  exists vS, vPhi. do 2 (split; [done|]). intros s Hs.
  pose proof (feasible_bounds _ _ _ _ Hs HlS) as HbS.
  pose proof (feasible_bounds _ _ _ _ Hs HlP) as HbP.
  rewrite HS0, HS1 in HbS. rewrite HP0, HP1 in HbP.
  split; [lia|]. split.
  - destruct (type g); lia.
  - intros Hpi. rewrite Hpi in HbS. lia.
Qed.

Lemma gradual_PI_at_stage_0_witness :
  stage_phase_rule as_tables as_model (mkPrimitive 1 43690 PI []).
Proof.
  apply (gradual_PI_at_stage_0 as_sigs as_tables as_model).
  - vm_compute. reflexivity.
  - split.
    + apply (bool_decide_unpack _). vm_compute. exact I.
    + intros k g Hin.
      repeat (apply elem_of_cons in Hin as [Hin|Hin]; [by simplify_eq|]).
      by apply elem_of_nil in Hin.
  - apply list_elem_of_In. vm_compute. auto 10.
Defined.

Example gradual_as_lines_run :
  run_lines as_lines = Some (as_sigs, as_tables, as_model).
Proof. vm_compute. reflexivity. Qed.

Example gradual_sa_lines_run :
  run_lines sa_lines = Some (sa_sigs, sa_tables, sa_model).
Proof. vm_compute. reflexivity. Qed.

Example gradual_aa_lines_run :
  run_lines aa_lines = Some (aa_sigs, aa_tables, aa_model).
Proof. vm_compute. reflexivity. Qed.

(** An edge over exactly one clock cycle costs nothing here, where the
    floor division of the difference by [NPH] is 1. *)
Example gradual_as_solution_cost :
  feasible as_solution as_model /\
  timing_at as_solution 3 2 - timing_at as_solution 1 0 = NPH /\
  objective_value as_solution as_model = 0.
Proof.
  split; [apply (bool_decide_unpack _); vm_compute; exact I|].
  vm_compute. auto.
Qed.

(** The SA gate shares the timing of its two true AS sources, at no
    cost. *)
Example gradual_sa_solution_cost :
  feasible sa_solution sa_model /\
  timing_at sa_solution 9 8 = timing_at sa_solution 5 4 /\
  timing_at sa_solution 9 8 = timing_at sa_solution 7 6 /\
  objective_value sa_solution sa_model = 0.
Proof.
  split; [apply (bool_decide_unpack _); vm_compute; exact I|].
  vm_compute. auto.
Qed.

End GradualILPProofs.

(** ** [decomposed_ilp_FA.py] *)

Module DecomposedFAProofs.
Import DecomposedFA.

Lemma outcome_bind_Returns {A B} (r : outcome A) (f : A -> outcome B) b :
  r ≫= f = Returns b -> exists a, r = Returns a /\ f a = Returns b.
Proof. destruct r as [a|e]; [by exists a|discriminate]. Qed.

Lemma decomposed_FA_line_raises py_int items line items' :
  parse_line py_int items line <> Returns items'.
Proof.
  unfold parse_line. intros Hrun.
  destruct (py_split "," (py_strip line))
    as [|a [|f [|t [|i [|p [|o [|? ?]]]]]]]; try discriminate.
  repeat (apply outcome_bind_Returns in Hrun as (? & ? & Hrun)).
  match goal with
  | H : Primitive_init _ _ _ _ _ _ = Returns _ |- _ => discriminate H
  end.
Qed.

(** X21: [parse_specs] of [decomposed_ilp_FA.py] returns for a file without
    lines only: every line ends the run with an exception (the
    constructor of [Primitive] reads the unbound name [sig]), and on the
    empty table [max] has nothing to take the maximum of, so no run of
    the script reaches the construction of the model. *)
Theorem decomposed_FA_never_builds py_int lines :
  (forall items, parse_specs py_int lines = Returns items ->
     lines = [] /\ items = []) /\
  exists e, main_start py_int lines = Raises e.
Proof.
  assert (Hparse : forall items, parse_specs py_int lines = Returns items ->
                     lines = [] /\ items = []).
  { unfold parse_specs. destruct lines as [|line rest]; simpl.
    - by intros items [= <-].
    - intros items (items1 & Hline & _)%outcome_bind_Returns.
      by apply decomposed_FA_line_raises in Hline. }
  split; [exact Hparse|].
  unfold main_start.
  destruct (parse_specs py_int lines) as [items|e] eqn:Hp.
  - destruct (Hparse items eq_refl) as [_ ->]. by eexists.
  - by exists e.
Qed.

(** A line with six fields that read well ends with the [NameError]. *)
Example decomposed_FA_line_NameError :
  parse_specs dec_int ["1,0,0,,0,2"] = Raises NameError.
Proof. reflexivity. Qed.

End DecomposedFAProofs.

(** ** The report after the solve call *)

Module ReportProofs.

Lemma StatusName_inj st1 st2 :
  StatusName st1 = StatusName st2 -> st1 = st2.
Proof. by destruct st1, st2. Qed.

Lemma has_solution_status st :
  has_solution (StatusName st) = true <-> st = OPTIMAL \/ st = FEASIBLE.
Proof.
  destruct st; vm_compute; split; try done; try tauto;
    by intros [|].
Qed.

(** What [main] writes, to the log and to the terminal, is the report of
    the engine's answer on the model it built. *)
Lemma main_reports py_int Solve NPH lines log term :
  PhaseAssignment.main py_int Solve NPH lines = Ok (log, term) ->
  exists all_signals all_t1_cells b m,
    PhaseAssignment.parse_specs py_int lines = Ok (all_signals, all_t1_cells) /\
    PhaseAssignment.construct NPH all_signals all_t1_cells = Ok (b, m) /\
    log = report m (b_Sigma b) (Solve m) /\ term = log.
Proof.
  unfold PhaseAssignment.main. intros H.
  destruct (PhaseAssignment.parse_specs py_int lines)
    as [[all_signals all_t1_cells]|e] eqn:Hp; [|done].
  simpl in H.
  destruct (PhaseAssignment.construct NPH all_signals all_t1_cells)
    as [[b m]|e] eqn:Hc; [|done].
  simpl in H. injection H as <- <-.
  by exists all_signals, all_t1_cells, b, m.
Qed.

Example phase_assignment_infeasible m Sigma :
  report m Sigma infeasible_response = [StatusLine "INFEASIBLE"].
Proof. reflexivity. Qed.

Example config_solver_infeasible :
  ConfigSolver.report [] infeasible_response =
  [StatusLine "INFEASIBLE"; ObjectiveLine 0].
Proof. reflexivity. Qed.

(** C5 (as the code has it): both scripts print the name of the status,
    which tells the five statuses of the engine apart, never a success
    flag; [phase_assignment.py] prints the objective and the assignment
    only under OPTIMAL or FEASIBLE, the statuses with a solution, while
    [config_solver.py] prints the objective value under every status. *)
Theorem solver_outcomes_reported (m : CpModel) (Sigma : list (Z * nat))
    (sorted_vars : list (string * nat)) :
  report_rule (report m Sigma) /\
  status_distinguished (ConfigSolver.report sorted_vars) /\
  forall r, ObjectiveLine (r_objective r) ∈ ConfigSolver.report sorted_vars r.
Proof.
  split; [split|split].
  - intros r1 r2 H. unfold report in H.
    injection H as H _. by apply StatusName_inj.
  - intros r l Hin Hl. unfold report in Hin.
    apply elem_of_cons in Hin as [->|Hin]; [done|].
    destruct (has_solution _) eqn:Hs; [|by apply elem_of_nil in Hin].
    by apply has_solution_status.
  - intros r1 r2 H. unfold ConfigSolver.report in H.
    injection H as H _. by apply StatusName_inj.
  - intros r. unfold ConfigSolver.report. right. left.
Qed.

(** The report of [config_solver.py] does not keep the objective for the
    answers with a solution: it prints one under INFEASIBLE. *)
Lemma config_solver_reports_objective_without_solution :
  ~ report_rule (ConfigSolver.report []).
Proof.
  intros [_ H].
  destruct (H infeasible_response (ObjectiveLine 0)) as [Hs|Hs];
    [right; left|done|discriminate Hs|discriminate Hs].
Qed.

End ReportProofs.
